(** * 3DS: content-addressed block store, chunked object storage, overlay

    A shallow embedding of the Go packages [blocks], [core], [importers]
    and [p2p] of 3FT-io/3DS, together with the part of the Go runtime they
    touch (package [os], [io], [context], [time], [strconv], [strings],
    [encoding/binary]), and the properties stated for them.

    Conventions.
    - A Go [string] is a Rocq [string]; a [[]byte] is a [list byte].
    - A Go [error] value is an [option error] ([None] is [nil]); a function
      returning [(T, error)] returns a [result T].
    - The file system is explicit state ([Disk]); an operating-system call
      can fail, which is decided by the fault table the disk carries.
    - [io.Reader] and [io.Writer] are interfaces, hence type classes.
    - Locks are not modelled: every method runs atomically, as it does
      under the mutex it takes.
    - A loop that need not end takes a number of turns ([fuel]) and
      returns [None] when they are used up; a call that can panic returns
      an [outcome]. *)

From Stdlib Require Import ZArith NArith Lia Ascii String Strings.Byte.
From stdpp Require Import base gmap sets list strings pretty.

Local Open Scope string_scope.
Local Open Scope nat_scope.
Local Open Scope list_scope.

(* ===================================================================== *)
(** * The Go runtime the packages rely on                                *)
(* ===================================================================== *)

Module Go.

Abbreviation bytes := (list byte).

Global Instance byte_eq_dec : EqDecision byte.
Proof.
  intros x y. destruct (Byte.eqb x y) eqn:E.
  - left. by apply Byte.byte_dec_bl.
  - right. intros ->. by rewrite Byte.byte_dec_lb in E.
Defined.

(** The operating-system error numbers that matter here. *)
Inductive Errno : Type := ENOENT | EISDIR | ENOTDIR | EIO.

(** Error values. [errorf] is [fmt.Errorf] / [errors.New] with a plain
    message; [wrapf] is [fmt.Errorf] with the [%w] verb: the text before
    the colon and the wrapped error. *)
Inductive error : Type :=
| io_EOF
| context_Canceled
| context_DeadlineExceeded
| PathError (op path : string) (errno : Errno)
| ReadError (msg : string)
| WriteError (msg : string)
| ConnectError (msg : string)
| errorf (msg : string)
| wrapf (msg : string) (wrapped : error).

Inductive result (A : Type) : Type :=
| Ok (a : A)
| Err (e : error).
Arguments Ok {A} a.
Arguments Err {A} e.

(** One turn of a [for] loop: go round again, or return. *)
Inductive Turn (S A : Type) : Type :=
| Continue (s : S)
| Return (a : A).
Arguments Continue {S A} s.
Arguments Return {S A} a.

Definition is_EOF (e : error) : bool :=
  match e with io_EOF => true | _ => false end.

(** [len(b)] of a slice, as the [int] it is. *)
Definition len {A} (l : list A) : Z := Z.of_nat (length l).

(** Two's complement wrap-around of [int64] arithmetic. *)
Definition wrap64 (z : Z) : Z := (z + 2 ^ 63) mod 2 ^ 64 - 2 ^ 63.
Definition add64 (a b : Z) : Z := wrap64 (a + b).
Definition mul64 (a b : Z) : Z := wrap64 (a * b).

(** [b[:n]] and [b[n:]] with the bound kept binary, so that a 5 MiB bound
    costs nothing to evaluate. *)
Fixpoint takeN {A} (n : N) (l : list A) : list A :=
  match l with
  | [] => []
  | x :: l' => if (n =? 0)%N then [] else x :: takeN (N.pred n) l'
  end.

Fixpoint dropN {A} (n : N) (l : list A) : list A :=
  match l with
  | [] => []
  | x :: l' => if (n =? 0)%N then l else dropN (N.pred n) l'
  end.

(** One element of a path: not empty, no separator in it, and neither of
    the dot segments. A UUID, [chunk_<i>] and a hex digest are such
    elements. *)
Fixpoint has_separator (e : string) : bool :=
  match e with
  | EmptyString => false
  | String c e' => if Ascii.eqb c "/"%char then true else has_separator e'
  end.

Definition path_element (e : string) : bool :=
  negb (has_separator e) && negb (String.eqb e EmptyString) &&
  negb (String.eqb e ".") && negb (String.eqb e "..").

(** [filepath.Join] of a directory and one element. For a clean directory
    path and an element that is a [path_element] (the ones joined in these
    packages: a UUID, [chunk_<i>], a hex digest) the cleaning [Join]
    performs changes nothing and the result is this concatenation. On other
    elements [Join] cleans: [Join(d, ./h) = Join(d, h)] and
    [Join(d, <empty>) = d]; statements about such elements are made on the
    joined path, not on the element. *)
Definition filepath_Join (dir elem : string) : string := dir +:+ "/" +:+ elem.

(** [fmt.Sprintf("chunk_%d", i)]. *)
Definition chunk_name (i : nat) : string := "chunk_" +:+ pretty i.

(** Lower-case hexadecimal, as [hex.EncodeToString] and the [%x] verb. *)
Definition hex_digit (n : N) : ascii :=
  match n with
  | 0 => "0" | 1 => "1" | 2 => "2" | 3 => "3" | 4 => "4" | 5 => "5"
  | 6 => "6" | 7 => "7" | 8 => "8" | 9 => "9" | 10 => "a" | 11 => "b"
  | 12 => "c" | 13 => "d" | 14 => "e" | _ => "f"
  end%N%char.

Fixpoint hex_EncodeToString (b : bytes) : string :=
  match b with
  | [] => ""
  | x :: b' =>
      let n := Byte.to_N x in
      String (hex_digit (n / 16)) (String (hex_digit (n mod 16)) (hex_EncodeToString b'))
  end.

(** ** package context *)

(** A context is cancelled at most once and stays cancelled. [cancel_at] is
    the number of polls of [ctx.Done()] that still find the channel open;
    [cancel_err] is what [ctx.Err()] returns from then on
    ([context.Canceled] or [context.DeadlineExceeded]). *)
Record Context : Type := {
  cancel_at : option nat;
  cancel_err : error
}.

Definition context_Background : Context :=
  {| cancel_at := None; cancel_err := context_Canceled |}.

(** [select { case <-ctx.Done(): ... default: ... }] at the [k]-th poll. *)
Definition ctx_Done (ctx : Context) (k : nat) : bool :=
  match cancel_at ctx with
  | Some c => (c <=? k)%nat
  | None => false
  end.

Definition ctx_Err (ctx : Context) : error := cancel_err ctx.

(** ** package os *)

(** What the environment refuses: per operation, the paths on which the call
    fails (permissions, full disk, busy file, ...). *)
Record Faults : Type := {
  mkdir_fault : string → bool;
  write_fault : string → bool;
  read_fault : string → bool;
  remove_fault : string → bool;
  stat_fault : string → bool
}.

Definition no_faults : Faults :=
  {| mkdir_fault := λ _, false; write_fault := λ _, false;
     read_fault := λ _, false; remove_fault := λ _, false;
     stat_fault := λ _, false |}.

Record Disk : Type := {
  files : gmap string bytes;
  dirs : gset string;
  faults : Faults
}.

Definition empty_disk (f : Faults) : Disk :=
  {| files := ∅; dirs := ∅; faults := f |}.

(** [p] lies strictly below directory [d]. *)
Definition below (d p : string) : bool := String.prefix (d +:+ "/") p.

(** [os.MkdirAll] of a path whose parent directory exists: the directory
    itself is all there is to create. (With a parent missing [os.MkdirAll]
    creates that parent too; statements about the directories outside [p]
    assume the parent is there.) *)
Definition os_MkdirAll (p : string) (d : Disk) : option error * Disk :=
  if mkdir_fault (faults d) p then (Some (PathError "mkdir" p EIO), d)
  else if decide (is_Some (files d !! p)) then (Some (PathError "mkdir" p ENOTDIR), d)
  else (None, {| files := files d; dirs := {[p]} ∪ dirs d; faults := faults d |}).

(** [os.WriteFile]. Every way the system refuses to create or write the
    file, a missing parent directory among them, is a [write_fault]. *)
Definition os_WriteFile (p : string) (data : bytes) (d : Disk) : option error * Disk :=
  if write_fault (faults d) p then (Some (PathError "open" p EIO), d)
  else if decide (p ∈ dirs d) then (Some (PathError "open" p EISDIR), d)
  else (None, {| files := <[p := data]> (files d); dirs := dirs d; faults := faults d |}).

Definition os_ReadFile (p : string) (d : Disk) : result bytes :=
  if read_fault (faults d) p then Err (PathError "read" p EIO)
  else match files d !! p with
       | Some data => Ok data
       | None =>
           if decide (p ∈ dirs d) then Err (PathError "read" p EISDIR)
           else Err (PathError "open" p ENOENT)
       end.

Definition os_IsNotExist (e : error) : bool :=
  match e with PathError _ _ ENOENT => true | _ => false end.

(** [os.Stat(p)] returned a nil error. *)
Definition os_Stat_ok (p : string) (d : Disk) : bool :=
  if stat_fault (faults d) p then false
  else bool_decide (is_Some (files d !! p) ∨ p ∈ dirs d).

(** [os.Remove] of a path that is a file or is missing (the packages call
    it on block files only; of an empty directory [os.Remove] removes the
    directory). *)
Definition os_Remove (p : string) (d : Disk) : option error * Disk :=
  if remove_fault (faults d) p then (Some (PathError "remove" p EIO), d)
  else match files d !! p with
       | Some _ => (None, {| files := delete p (files d); dirs := dirs d; faults := faults d |})
       | None => (Some (PathError "remove" p ENOENT), d)
       end.

(** [os.RemoveAll]: the path and everything below it; a missing path is
    not an error. *)
Definition os_RemoveAll (p : string) (d : Disk) : option error * Disk :=
  if remove_fault (faults d) p then (Some (PathError "unlinkat" p EIO), d)
  else (None,
        {| files := filter (λ kv, kv.1 ≠ p ∧ below p kv.1 = false) (files d);
           dirs := filter (λ q, q ≠ p ∧ below p q = false) (dirs d);
           faults := faults d |}).

(** The same disk under another fault table: what the system refuses from
    now on. *)
Definition with_faults (d : Disk) (f : Faults) : Disk :=
  {| files := files d; dirs := dirs d; faults := f |}.

(** The directory [p] and everything in it is gone. *)
Definition dir_gone (p : string) (d : Disk) : Prop :=
  (p ∉ dirs d) ∧ (files d !! p = None) ∧
  (∀ q, below p q = true → (files d !! q = None) ∧ (q ∉ dirs d)).

(** ** The rest of the world: the UUID generator and the clock *)

(** [uuid_src] is the sequence of strings [uuid.New().String()] returns,
    [uuid_ctr] how many have been drawn. *)
Record World : Type := {
  disk : Disk;
  uuid_src : nat → string;
  uuid_ctr : nat;
  clock : Z
}.

Definition with_disk (w : World) (d : Disk) : World :=
  {| disk := d; uuid_src := uuid_src w; uuid_ctr := uuid_ctr w; clock := clock w |}.

Definition time_Now (w : World) : Z := clock w.

(** ** package io *)

(** [Read(p)] with [len(p) = n]: the bytes stored in [p[:k]], the error,
    and the reader afterwards. *)
Class Reader (R : Type) := Read : R → N → (bytes * option error) * R.

(** [Write(p)]: the error and the writer afterwards. *)
Class Writer (W : Type) := Write : W → bytes → option error * W.

(** [bytes.Reader] / [strings.Reader]: the unread part of the slice. *)
Record BytesReader : Type := { unread : bytes }.

Global Instance BytesReader_Read : Reader BytesReader := λ r n,
  match unread r with
  | [] => (([], Some io_EOF), r)
  | _ => ((takeN n (unread r), None), {| unread := dropN n (unread r) |})
  end.

(** A reader given by what its successive [Read] calls return (each at most
    the buffer long); once the list is used up it reports [io.EOF]. This is
    any reader seen through one run: [iotest.OneByteReader],
    [iotest.DataErrReader], a network connection. *)
Record ScriptReader : Type := { script : list (bytes * option error) }.

Global Instance ScriptReader_Read : Reader ScriptReader := λ r n,
  match script r with
  | [] => (([], Some io_EOF), r)
  | (data, e) :: rest => ((takeN n data, e), {| script := rest |})
  end.

(** The byte stream such a reader carries: all the data up to and
    including what comes with the first error. *)
Fixpoint carried_by (sc : list (bytes * option error)) : bytes :=
  match sc with
  | [] => []
  | (data, None) :: rest => data ++ carried_by rest
  | (data, Some _) :: _ => data
  end.

(** [bytes.Buffer] as a writer: it never fails. *)
Record Buffer : Type := { written : bytes }.

Global Instance Buffer_Write : Writer Buffer := λ b p,
  (None, {| written := written b ++ p |}).

(** A writer that accepts [budget] writes and then fails, as a closed
    connection does. *)
Record FlakyWriter : Type := { accepted : bytes; budget : nat }.

Global Instance FlakyWriter_Write : Writer FlakyWriter := λ w p,
  match budget w with
  | O => (Some (WriteError "broken pipe"), w)
  | S b => (None, {| accepted := accepted w ++ p; budget := b |})
  end.

End Go.

(* ===================================================================== *)
(** * package blocks (pkg/blocks/store.go)                               *)
(* ===================================================================== *)

Module blocks.
Import Go.

Section blocks.
(** [sha256.Sum256]. *)
Context (sha256_Sum256 : bytes → bytes).

Record Block : Type := {
  Hash : string;
  Size : Z;
  Data : bytes
}.

Record Store : Type := { basePath : string }.


Definition getBlockPath (s : Store) (hash : string) : string :=
  filepath_Join (basePath s) hash.

Definition calculateHash (data : bytes) : string :=
  hex_EncodeToString (sha256_Sum256 data).

Definition StoreBlock (s : Store) (data : bytes) (d : Disk) : result string * Disk :=
  let hash := calculateHash data in
  let blockPath := getBlockPath s hash in
  if os_Stat_ok blockPath d then (Ok hash, d)
  else
    match os_WriteFile blockPath data d with
    | (Some e, d') => (Err e, d')
    | (None, d') => (Ok hash, d')
    end.

Definition GetBlock (s : Store) (hash : string) (d : Disk) : result Block :=
  let blockPath := getBlockPath s hash in
  match os_ReadFile blockPath d with
  | Err e =>
      if os_IsNotExist e then Err (errorf "block not found") else Err e
  | Ok data => Ok {| Hash := hash; Size := len data; Data := data |}
  end.

Definition DeleteBlock (s : Store) (hash : string) (d : Disk) : option error * Disk :=
  os_Remove (getBlockPath s hash) d.

(** Every block file of the store, the file at [getBlockPath s h] for a
    path element [h], is named by the digest of what it holds: what
    [NewStore] followed by any number of [StoreBlock] and [DeleteBlock]
    leaves behind. Files under other names are not constrained. *)
Definition store_inv (s : Store) (d : Disk) : Prop :=
  ∀ h D, path_element h = true →
         files d !! getBlockPath s h = Some D → h = calculateHash D.

(** ** The block service (service.go) *)

Record Service : Type := { store : Store }.

Definition NewService (st : Store) : Service := {| store := st |}.

(** The loop of [GetModelBlocks]: the hashes still to fetch and the blocks
    appended so far. *)
Fixpoint getBlocksLoop (s : Service) (d : Disk) (hashes : list string)
    (blocks : list Block) : result (list Block) :=
  match hashes with
  | [] => Ok blocks
  | hash :: rest =>
      match GetBlock (store s) hash d with
      | Err e => Err e
      | Ok block => getBlocksLoop s d rest (blocks ++ [block])
      end
  end.

Definition GetModelBlocks (s : Service) (hashes : list string) (d : Disk)
  : result (list Block) :=
  getBlocksLoop s d hashes [].

(** [Service.DeleteBlock]. *)
Definition Service_DeleteBlock (s : Service) (hash : string) (d : Disk)
  : option error * Disk :=
  DeleteBlock (store s) hash d.

(** A call that changes the store, and the disk a sequence of such calls
    leaves, whatever each of them returned. *)
Inductive Call : Type :=
  | CallStoreBlock (data : bytes)
  | CallDeleteBlock (hash : string).

Definition call (s : Store) (d : Disk) (c : Call) : Disk :=
  match c with
  | CallStoreBlock data => (StoreBlock s data d).2
  | CallDeleteBlock hash => (DeleteBlock s hash d).2
  end.

Definition calls (s : Store) (cs : list Call) (d : Disk) : Disk :=
  foldl (call s) d cs.


End blocks.
End blocks.

(* ===================================================================== *)
(** * package core: chunked object storage                               *)
(* ===================================================================== *)

Module core.
Import Go.

Section core.
(** [sha256.New()], [Write], [Sum(nil)]: the digest of what was written. *)
Context (sha256_Sum : bytes → bytes).

(** [const ChunkSize = 1024 * 1024 * 5]. *)
Definition ChunkSize : N := 1024 * 1024 * 5.

Record ModelMetadata : Type := {
  ID : string;
  Name : string;
  Format : string;
  Size : Z;
  Hash : string;
  Chunks : list string;
  CreatedAt : Z;
  Owner : string;
  Permissions : list string
}.

Record ModelChunk : Type := {
  chunk_ID : string;
  chunk_Data : bytes;
  chunk_Index : nat;
  chunk_ModelID : string;
  chunk_Hash : string
}.

Definition CalculateHash (m : ModelMetadata) : string :=
  hex_EncodeToString
    (sha256_Sum (list_byte_of_string (ID m +:+ Name m +:+ Format m))).

Record Storage : Type := {
  basePath : string;
  metadata : gmap string ModelMetadata
}.

Definition NewStorage (path : string) (d : Disk) : result Storage * Disk :=
  match os_MkdirAll path d with
  | (Some e, d') => (Err e, d')
  | (None, d') => (Ok {| basePath := path; metadata := ∅ |}, d')
  end.

Definition generateUUID (w : World) : string * World :=
  (uuid_src w (uuid_ctr w),
   {| disk := disk w; uuid_src := uuid_src w;
      uuid_ctr := S (uuid_ctr w); clock := clock w |}).

Definition storeChunk (chunk : ModelChunk) (path : string) (w : World)
  : option error * World :=
  let '(e, d) := os_WriteFile path (chunk_Data chunk) (disk w) in
  (e, with_disk w d).

(** The variables of the loop of [splitAndStoreChunks]. [chunkIndex] is
    also the number of times [ctx.Done()] has been polled. *)
Record SplitState (R : Type) : Type := {
  reader : R;
  chunks : list string;
  totalSize : Z;
  chunkIndex : nat;
  world : World
}.
Global Arguments reader {R} _.
Global Arguments chunks {R} _.
Global Arguments totalSize {R} _.
Global Arguments chunkIndex {R} _.
Global Arguments world {R} _.

(** What [splitAndStoreChunks] returns, with the world and the reader as
    it leaves them. *)
Definition SplitReturn (R : Type) : Type :=
  (result (list string * Z) * World * R)%type.

(** The body of the [for] loop of [splitAndStoreChunks]. *)
Definition splitBody {R} `{Reader R} (ctx : Context) (modelPath : string)
    (st : SplitState R) : Turn (SplitState R) (SplitReturn R) :=
  if ctx_Done ctx (chunkIndex st) then
    Return (Err (ctx_Err ctx), world st, reader st)
  else
    let '((data, err), reader') := Read (reader st) ChunkSize in
    match err with
    | Some e =>
        if is_EOF e then Return (Ok (chunks st, totalSize st), world st, reader')
        else Return (Err e, world st, reader')
    | None =>
        let '(id, w1) := generateUUID (world st) in
        let chunk := {| chunk_ID := id; chunk_Data := data;
                        chunk_Index := chunkIndex st;
                        chunk_ModelID := ""; chunk_Hash := "" |} in
        let chunkPath := filepath_Join modelPath (chunk_name (chunkIndex st)) in
        match storeChunk chunk chunkPath w1 with
        | (Some e, w2) => Return (Err e, w2, reader')
        | (None, w2) =>
            Continue {| reader := reader';
                        chunks := chunks st ++ [chunk_ID chunk];
                        totalSize := add64 (totalSize st) (len data);
                        chunkIndex := S (chunkIndex st);
                        world := w2 |}
        end
    end.

(** The loop itself; [fuel] bounds the number of turns, and [None] means
    the bound was reached before the loop returned. *)
Fixpoint splitLoop {R} `{Reader R} (fuel : nat) (ctx : Context)
    (modelPath : string) (st : SplitState R) : option (SplitReturn R) :=
  match fuel with
  | O => None
  | S fuel' =>
      match splitBody ctx modelPath st with
      | Return r => Some r
      | Continue st' => splitLoop fuel' ctx modelPath st'
      end
  end.

(** [k] full turns of that loop, none of which returns: the loop
    variables after them. *)
Fixpoint splitTurns {R} `{Reader R} (k : nat) (ctx : Context)
    (modelPath : string) (st : SplitState R) : option (SplitState R) :=
  match k with
  | O => Some st
  | S k' =>
      match splitBody ctx modelPath st with
      | Return _ => None
      | Continue st' => splitTurns k' ctx modelPath st'
      end
  end.

Definition splitAndStoreChunks {R} `{Reader R} (fuel : nat) (ctx : Context)
    (modelPath : string) (rd : R) (w : World) : option (SplitReturn R) :=
  splitLoop fuel ctx modelPath
    {| reader := rd; chunks := []; totalSize := 0; chunkIndex := 0; world := w |}.

Definition StoreModel {R} `{Reader R} (fuel : nat) (ctx : Context)
    (name format : string) (rd : R) (s : Storage) (w : World)
  : option (result ModelMetadata * Storage * World * R) :=
  let '(id, w0) := generateUUID w in
  let md := {| ID := id; Name := name; Format := format; Size := 0;
               Hash := ""; Chunks := []; CreatedAt := time_Now w0;
               Owner := ""; Permissions := [] |} in
  let modelPath := filepath_Join (basePath s) (ID md) in
  match os_MkdirAll modelPath (disk w0) with
  | (Some e, d) => Some (Err e, s, with_disk w0 d, rd)
  | (None, d) =>
      match splitAndStoreChunks fuel ctx modelPath rd (with_disk w0 d) with
      | None => None
      | Some (Err e, w1, rd') =>
          let '(_, d') := os_RemoveAll modelPath (disk w1) in
          Some (Err e, s, with_disk w1 d', rd')
      | Some (Ok (cs, size), w1, rd') =>
          let md1 := {| ID := ID md; Name := Name md; Format := Format md;
                        Size := size; Hash := Hash md; Chunks := cs;
                        CreatedAt := CreatedAt md; Owner := Owner md;
                        Permissions := Permissions md |} in
          let md2 := {| ID := ID md1; Name := Name md1; Format := Format md1;
                        Size := Size md1; Hash := CalculateHash md1;
                        Chunks := Chunks md1; CreatedAt := CreatedAt md1;
                        Owner := Owner md1; Permissions := Permissions md1 |} in
          Some (Ok md2,
                {| basePath := basePath s;
                   metadata := <[ID md2 := md2]> (metadata s) |},
                w1, rd')
      end
  end.

Definition getMetadata (s : Storage) (modelID : string) : result ModelMetadata :=
  match metadata s !! modelID with
  | Some md => Ok md
  | None => Err (errorf ("model not found: " +:+ modelID))
  end.

Definition GetModel (s : Storage) (modelID : string) : result ModelMetadata :=
  match getMetadata s modelID with
  | Err e => Err e
  | Ok md => Ok md
  end.

Definition GetModelMetadata (s : Storage) (modelID : string) : result ModelMetadata :=
  match getMetadata s modelID with
  | Err e => Err e
  | Ok md => Ok md
  end.

(** The spec's [NotFound] for an object identifier. *)
Definition NotFound (modelID : string) : error :=
  errorf ("model not found: " +:+ modelID).

Definition DeleteModel (s : Storage) (modelID : string) (w : World)
  : option error * Storage * World :=
  match metadata s !! modelID with
  | None => (Some (errorf ("model not found: " +:+ modelID)), s, w)
  | Some _ =>
      let s' := {| basePath := basePath s; metadata := delete modelID (metadata s) |} in
      let modelPath := filepath_Join (basePath s) modelID in
      let '(e, d) := os_RemoveAll modelPath (disk w) in
      (e, s', with_disk w d)
  end.

(** The loop of [StreamModel], from index [i] with [n] turns left
    ([n = len(metadata.Chunks) - i]). *)
Fixpoint streamLoop {W} `{Writer W} (n : nat) (ctx : Context)
    (modelPath : string) (i : nat) (d : Disk) (wr : W) : option error * W :=
  match n with
  | O => (None, wr)
  | S n' =>
      if ctx_Done ctx i then (Some (ctx_Err ctx), wr)
      else
        let chunkPath := filepath_Join modelPath (chunk_name i) in
        match os_ReadFile chunkPath d with
        | Err e => (Some (wrapf ("failed to read chunk " +:+ pretty i) e), wr)
        | Ok data =>
            match Write wr data with
            | (Some e, wr') =>
                (Some (wrapf ("failed to write chunk " +:+ pretty i) e), wr')
            | (None, wr') => streamLoop n' ctx modelPath (S i) d wr'
            end
        end
  end.

Definition StreamModel {W} `{Writer W} (ctx : Context) (s : Storage)
    (modelID : string) (wr : W) (w : World) : option error * W :=
  match getMetadata s modelID with
  | Err e => (Some e, wr)
  | Ok md =>
      let modelPath := filepath_Join (basePath s) modelID in
      streamLoop (length (Chunks md)) ctx modelPath 0 (disk w) wr
  end.

(** [for _, model := range s.metadata]: the values of the catalog in the
    order the runtime yields them. Go leaves that order unspecified; this is
    one enumeration, and what is proved about it holds for every other. *)
Definition range_metadata (s : Storage) : list ModelMetadata :=
  (map_to_list (metadata s)).*2.

(** [ListModels]; its error is always nil. *)
Definition ListModels (s : Storage) : list ModelMetadata :=
  foldl (λ models model, models ++ [model]) [] (range_metadata s).

Record ModelSummary : Type := {
  sum_ID : string;
  sum_Name : string;
  sum_Size : Z;
  sum_CreatedAt : Z
}.

Record StorageStatus : Type := {
  TotalModels : Z;
  TotalSize : Z;
  BasePath : string;
  Models : list ModelSummary
}.

(** One turn of the loop of [GetStatus]. *)
Definition statusTurn (status : StorageStatus) (model : ModelMetadata) : StorageStatus :=
  {| TotalModels := TotalModels status;
     TotalSize := add64 (TotalSize status) (Size model);
     BasePath := BasePath status;
     Models := Models status ++
               [{| sum_ID := ID model; sum_Name := Name model;
                   sum_Size := Size model; sum_CreatedAt := CreatedAt model |}] |}.

(** [GetStatus] when [range s.metadata] yields the models [ms]; its error
    is always nil. *)
Definition GetStatusOver (s : Storage) (ms : list ModelMetadata) : StorageStatus :=
  foldl statusTurn
    {| TotalModels := Z.of_nat (size (metadata s)); TotalSize := 0;
       BasePath := basePath s; Models := [] |}
    ms.

Definition GetStatus (s : Storage) : StorageStatus :=
  GetStatusOver s (range_metadata s).

(** The disk carries out every call, and the directory the next
    [StoreModel] will use is free: no file has its name and no directory
    sits where a chunk file would go. *)
Definition ready_for_store (s : Storage) (w : World) : Prop :=
  let modelPath := filepath_Join (basePath s) (uuid_src w (uuid_ctr w)) in
  (∀ p, mkdir_fault (faults (disk w)) p = false) ∧
  (∀ p, write_fault (faults (disk w)) p = false) ∧
  (∀ p, read_fault (faults (disk w)) p = false) ∧
  files (disk w) !! modelPath = None ∧
  (∀ i, filepath_Join modelPath (chunk_name i) ∉ dirs (disk w)).

(** The exact sum of the sizes of some models. *)
Definition sum_sizes (ms : list ModelMetadata) : Z :=
  foldr (λ m acc, (Size m + acc)%Z) 0%Z ms.

(** The reader hands over the payloads [ds], one per call of [Read] and
    each with a nil error, and then reports [io.EOF] on a call that brings
    the bytes [tail] with it ([tail] is empty for a reader that reports the
    end on a call of its own). The stream read is [concat ds ++ tail]. *)
Fixpoint delivers {R} `{Reader R} (rd : R) (ds : list bytes) (tail : bytes) : Prop :=
  match ds with
  | [] => (Read rd ChunkSize).1 = (tail, Some io_EOF)
  | data :: ds' =>
      (Read rd ChunkSize).1 = (data, None) ∧ delivers (Read rd ChunkSize).2 ds' tail
  end.

(** The reader hands over the payloads [ds], one per call of [Read] and
    each with a nil error; nothing is said of its later calls. *)
Fixpoint hands_over {R} `{Reader R} (rd : R) (ds : list bytes) : Prop :=
  match ds with
  | [] => True
  | data :: ds' =>
      (Read rd ChunkSize).1 = (data, None) ∧ hands_over (Read rd ChunkSize).2 ds'
  end.

(** The reader after [n] calls of [Read] with the chunk buffer. *)
Fixpoint after_reads {R} `{Reader R} (n : nat) (rd : R) : R :=
  match n with
  | O => rd
  | S n' => after_reads n' (Read rd ChunkSize).2
  end.

(** The files of a disk after the payloads [ds] went to the chunk files
    [chunk_i], [chunk_(i+1)], ... of a model directory. *)
Fixpoint put_chunks (modelPath : string) (i : nat) (ds : list bytes)
    (m : gmap string bytes) : gmap string bytes :=
  match ds with
  | [] => m
  | data :: ds' =>
      put_chunks modelPath (S i) ds' (<[filepath_Join modelPath (chunk_name i) := data]> m)
  end.

(** A slice cut into pieces of [n] bytes, the last one possibly shorter:
    what the successive reads of a [bytes.Reader] into a buffer of [n]
    bytes return. *)
Fixpoint cut (fuel : nat) (n : N) (l : bytes) : list bytes :=
  match fuel with
  | O => []
  | S fuel' =>
      match l with
      | [] => []
      | _ => takeN n l :: cut fuel' n (dropN n l)
      end
  end.

Definition pieces (n : N) (l : bytes) : list bytes := cut (length l) n l.

(** [ceil(a / b)] on integers. *)
Definition ceil_div (a b : Z) : Z := ((a + b - 1) / b)%Z.

Definition MiB : Z := 1024 * 1024.

End core.
End core.

(* ===================================================================== *)
(** * package core: references and collections (pkg/core/referencer.go)  *)
(* ===================================================================== *)

Module referencer.
Import Go.

(** [Referencer]; a missing key of a Go map reads as the nil slice. *)
Record Referencer : Type := {
  refs : gmap string (list string);
  backRefs : gmap string (list string)
}.

Definition NewReferencer : Referencer := {| refs := ∅; backRefs := ∅ |}.

Definition AddReference (r : Referencer) (fromID toID : string)
  : option error * Referencer :=
  let refs' := <[fromID := default [] (refs r !! fromID) ++ [toID]]> (refs r) in
  let backRefs' := <[toID := default [] (backRefs r !! toID) ++ [fromID]]> (backRefs r) in
  (None, {| refs := refs'; backRefs := backRefs' |}).

(** The result is a copy: later calls do not change it. *)
Definition GetReferences (r : Referencer) (objectID : string) : result (list string) :=
  Ok (default [] (refs r !! objectID)).

Definition GetBackReferences (r : Referencer) (objectID : string)
  : result (list string) :=
  Ok (default [] (backRefs r !! objectID)).

(** The referencer after the calls [AddReference(from, to)], in order. *)
Definition AddReferences (calls : list (string * string)) (r : Referencer) : Referencer :=
  foldl (λ r c, (AddReference r c.1 c.2).2) r calls.

Definition ErrCollectionNotFound : error := errorf "collection not found".

(** [Collection]; [Metadata] is created empty and never read or written
    by this package. *)
Record Collection : Type := {
  ID : string;
  Name : string;
  Objects : list string
}.

(** [Organizer]. Its map holds pointers, and so do the callers of
    [CreateCollection] and [GetCollection]: [heap] is the collections
    allocated so far and a pointer is a position in it. *)
Record Organizer : Type := {
  heap : list Collection;
  collections : gmap string nat;
  org_referencer : Referencer
}.

Definition NewOrganizer (r : Referencer) : Organizer :=
  {| heap := []; collections := ∅; org_referencer := r |}.

(** The composite literal leaves [ID] at its zero value. *)
Definition CreateCollection (name : string) (o : Organizer)
  : result nat * Organizer :=
  let collection := {| ID := EmptyString; Name := name; Objects := [] |} in
  let ptr := length (heap o) in
  (Ok ptr,
   {| heap := heap o ++ [collection];
      collections := <[ID collection := ptr]> (collections o);
      org_referencer := org_referencer o |}).

Definition AddToCollection (collectionID objectID : string) (o : Organizer)
  : option error * Organizer :=
  match collections o !! collectionID with
  | None => (Some ErrCollectionNotFound, o)
  | Some ptr =>
      (None,
       {| heap := alter (λ c, {| ID := ID c; Name := Name c;
                                 Objects := Objects c ++ [objectID] |}) ptr (heap o);
          collections := collections o;
          org_referencer := org_referencer o |})
  end.

Definition GetCollection (id : string) (o : Organizer) : result nat :=
  match collections o !! id with
  | None => Err ErrCollectionNotFound
  | Some ptr => Ok ptr
  end.

(** A call that changes the organizer, and a sequence of them. *)
Inductive Call : Type :=
  | CallCreateCollection (name : string)
  | CallAddToCollection (collectionID objectID : string).

Definition call (o : Organizer) (c : Call) : Organizer :=
  match c with
  | CallCreateCollection name => (CreateCollection name o).2
  | CallAddToCollection collectionID objectID =>
      (AddToCollection collectionID objectID o).2
  end.

Definition calls (cs : list Call) (o : Organizer) : Organizer := foldl call o cs.

(** The names given to [CreateCollection] in a sequence of calls. *)
Definition created (cs : list Call) : list string :=
  omap (λ c, match c with
             | CallCreateCollection name => Some name
             | CallAddToCollection _ _ => None
             end) cs.

End referencer.

(* ===================================================================== *)
(** * package p2p: the overlay network (pkg/p2p/network.go)              *)
(* ===================================================================== *)

Module p2p.
Import Go.

(** [time.Duration] is an [int64] count of nanoseconds. *)
Definition time_Second : Z := 1000000000.
Definition time_Minute : Z := 60 * time_Second.
Definition ConnectionTimeout : Z := 10 * time_Second.

(** [peer.AddrInfo]; a [peer.ID] and a multiaddress are strings. *)
Record AddrInfo : Type := {
  peer_ID : string;
  Addrs : list string
}.

(** [config.Config], the fields this package reads. *)
Record Config : Type := {
  ListenAddress : string;
  Port : Z;
  BootstrapPeers : list string
}.

(** [Network]: [host_ID] is [n.host.ID()]. *)
Record Network : Type := {
  cfg : Config;
  host_ID : string;
  peers : gmap string AddrInfo
}.

(** What lies outside the process. [dialled] lists the peers given to
    [host.Connect] so far, oldest first; [link p k] is what [host.Connect]
    returns for peer [p] when [k] dials came before it; [slept] lists the
    arguments of [time.Sleep] in order; [polls] counts the polls of
    [ctx.Done()]. *)
Record Net : Type := {
  link : string → nat → option error;
  dialled : list string;
  slept : list Z;
  polls : nat
}.

Definition host_Connect (pi : AddrInfo) (e : Net) : option error * Net :=
  (link e (peer_ID pi) (length (dialled e)),
   {| link := link e; dialled := dialled e ++ [peer_ID pi];
      slept := slept e; polls := polls e |}).

Definition time_Sleep (d : Z) (e : Net) : Net :=
  {| link := link e; dialled := dialled e; slept := slept e ++ [d]; polls := polls e |}.

Definition poll (ctx : Context) (e : Net) : bool * Net :=
  (ctx_Done ctx (polls e),
   {| link := link e; dialled := dialled e; slept := slept e; polls := S (polls e) |}).

Definition connectToPeer (peerInfo : AddrInfo) (n : Network) (e : Net)
  : option error * Network * Net :=
  match host_Connect peerInfo e with
  | (Some err, e') => (Some err, n, e')
  | (None, e') =>
      (None,
       {| cfg := cfg n; host_ID := host_ID n;
          peers := <[peer_ID peerInfo := peerInfo]> (peers n) |},
       e')
  end.

(** The variables of the loop of [connectToPeerWithBackoff]. *)
Record BackoffState : Type := {
  backoff : Z;
  network : Network;
  net : Net
}.

Definition maxBackoff : Z := time_Minute.

Definition backoffBody (ctx : Context) (peerInfo : AddrInfo) (st : BackoffState)
  : Turn BackoffState (option error * Network * Net) :=
  let '(done, e0) := poll ctx (net st) in
  if done then Return (Some (ctx_Err ctx), network st, e0)
  else
    match connectToPeer peerInfo (network st) e0 with
    | (None, n1, e1) => Return (None, n1, e1)
    | (Some err, n1, e1) =>
        if (backoff st >? maxBackoff)%Z then
          Return (Some (wrapf "max backoff reached" err), n1, e1)
        else
          Continue {| backoff := mul64 (backoff st) 2;
                      network := n1;
                      net := time_Sleep (backoff st) e1 |}
    end.

Fixpoint backoffLoop (fuel : nat) (ctx : Context) (peerInfo : AddrInfo)
    (st : BackoffState) : option (option error * Network * Net) :=
  match fuel with
  | O => None
  | S fuel' =>
      match backoffBody ctx peerInfo st with
      | Return r => Some r
      | Continue st' => backoffLoop fuel' ctx peerInfo st'
      end
  end.

Definition connectToPeerWithBackoff (fuel : nat) (ctx : Context)
    (peerInfo : AddrInfo) (n : Network) (e : Net)
  : option (option error * Network * Net) :=
  backoffLoop fuel ctx peerInfo
    {| backoff := time_Second; network := n; net := e |}.

Section bootstrap.
(** [multiaddr.NewMultiaddr] and [peer.AddrInfoFromP2pAddr]. *)
Context (multiaddr_NewMultiaddr : string → result string)
        (peer_AddrInfoFromP2pAddr : string → result AddrInfo).

(** The [for ... range n.cfg.BootstrapPeers] loop. *)
Fixpoint bootstrapLoop (fuel : nat) (ctx : Context) (addrs : list string)
    (n : Network) (e : Net) : option (Network * Net) :=
  match addrs with
  | [] => Some (n, e)
  | addr :: rest =>
      match multiaddr_NewMultiaddr addr with
      | Err _ => bootstrapLoop fuel ctx rest n e
      | Ok maddr =>
          match peer_AddrInfoFromP2pAddr maddr with
          | Err _ => bootstrapLoop fuel ctx rest n e
          | Ok peerInfo =>
              match connectToPeerWithBackoff fuel ctx peerInfo n e with
              | None => None
              | Some (Some _, n', e') => bootstrapLoop fuel ctx rest n' e'
              | Some (None, n', e') => bootstrapLoop fuel ctx rest n' e'
              end
          end
      end
  end.

Definition connectToBootstrapPeers (fuel : nat) (ctx : Context)
    (n : Network) (e : Net) : option (option error * Network * Net) :=
  match bootstrapLoop fuel ctx (BootstrapPeers (cfg n)) n e with
  | None => None
  | Some (n', e') => Some (None, n', e')
  end.

End bootstrap.

(** [GetPeers]: the keys of the peer table, in the order [range] yields
    them. *)
Definition GetPeers (n : Network) : list string := (map_to_list (peers n)).*1.

(** [pubsub.Message], the fields read here. *)
Record Message : Type := {
  ReceivedFrom : string;
  From : string;
  Data : bytes
}.

(** What one call of [n.subscription.Next(ctx)] returns. *)
Inductive NextResult : Type :=
| Next_msg (msg : Message)
| Next_err (err : error).

(** How the receive loop stands: back from [handleMessages], or blocked in
    [Next] with nothing more delivered. *)
Inductive LoopStatus : Type := Returned | Waiting.

(** [processMessage] is an empty extension point. *)
Definition processMessage (ctx : Context) (msg : Message) : unit := tt.

(** [handleMessages]. [sub] lists what the successive calls of [Next]
    return; [k] counts the calls made; [spawned] lists the messages for
    which [go n.processMessage(ctx, msg)] has been executed, oldest
    first. The result also gives the part of [sub] never pulled. *)
Fixpoint handleMessages (ctx : Context) (n : Network) (k : nat)
    (sub : list NextResult) (spawned : list Message)
  : list Message * list NextResult * LoopStatus :=
  match sub with
  | [] => (spawned, [], Waiting)
  | Next_err _ :: rest =>
      if ctx_Done ctx k then (spawned, rest, Returned)
      else handleMessages ctx n (S k) rest spawned
  | Next_msg msg :: rest =>
      if decide (ReceivedFrom msg = host_ID n) then
        handleMessages ctx n (S k) rest spawned
      else
        handleMessages ctx n (S k) rest (spawned ++ [msg])
  end.

(** The messages among the results of [Next]. *)
Definition delivered (sub : list NextResult) : list Message :=
  omap (λ r, match r with Next_msg m => Some m | Next_err _ => None end) sub.

End p2p.

(* ===================================================================== *)
(** * package importers (pkg/importers/vertex.go)                        *)
(* ===================================================================== *)

Module importers.
Import Go.

(** A [float64] is given by its IEEE 754 bits, [math.Float64bits]; the
    importers move floats around and never compute with them. *)
Definition float64 : Type := Z.

(** [[3]float64] and [[2]float64]. *)
Definition vector3 : Type := float64 * float64 * float64.
Definition vector2 : Type := float64 * float64.

Record Vertex : Type := {
  Position : vector3;
  Normal : vector3;
  TexCoords : vector2
}.

Record VertexImporter : Type := { vertices : list Vertex }.

Definition NewVertexImporter : VertexImporter := {| vertices := [] |}.

Definition GetVertices (vi : VertexImporter) : list Vertex := vertices vi.

(** ** Run-time panics *)

Inductive RuntimeError : Type :=
  | IndexOutOfRange
  | SliceBoundsOutOfRange.

(** What a call comes to: it returns, or the goroutine panics. *)
Inductive outcome (A : Type) : Type :=
  | Returns (a : A)
  | Panics (p : RuntimeError).
Global Arguments Returns {A} a.
Global Arguments Panics {A} p.

Global Instance outcome_ret : MRet outcome := λ A a, Returns a.
Global Instance outcome_bind : MBind outcome := λ A B f m,
  match m with
  | Returns a => f a
  | Panics p => Panics p
  end.

(** [l[i]]: the index is checked against the length. *)
Definition at_index {A} (l : list A) (i : Z) : outcome A :=
  if (i <? 0)%Z then Panics IndexOutOfRange
  else match l !! Z.to_nat i with
       | Some x => Returns x
       | None => Panics IndexOutOfRange
       end.

(** [l[lo:hi]] of a slice whose capacity is its length. *)
Definition slice {A} (l : list A) (lo hi : Z) : outcome (list A) :=
  if ((0 <=? lo) && (lo <=? hi) && (hi <=? len l))%Z
  then Returns (take (Z.to_nat (hi - lo)) (drop (Z.to_nat lo) l))
  else Panics SliceBoundsOutOfRange.

(** ** package strconv, package strings *)

Definition ErrSyntax : error := errorf "invalid syntax".
Definition ErrRange : error := errorf "value out of range".

Definition double_quote : string := String (ascii_of_nat 34) EmptyString.

(** [*strconv.NumError]; the number is quoted as [strconv.Quote] quotes a
    string of printable ASCII without quotes or backslashes. *)
Definition NumError (func num : string) (err : error) : error :=
  wrapf ("strconv." +:+ func +:+ ": parsing " +:+ double_quote +:+ num +:+ double_quote)
        err.

Definition is_digit (c : ascii) : bool :=
  ((48 <=? nat_of_ascii c) && (nat_of_ascii c <=? 57))%nat.

Definition maxUint64 : Z := 2 ^ 64 - 1.

(** The loop of [strconv.ParseUint] in base 10: a character that is no
    digit is a syntax error, a value past [maxUint64] a range error,
    whichever comes first. *)
Fixpoint parseDigits (s : string) (n : Z) : result Z :=
  match s with
  | EmptyString => Ok n
  | String c s' =>
      if is_digit c then
        let n1 := (n * 10 + Z.of_nat (nat_of_ascii c - 48))%Z in
        if (n1 >? maxUint64)%Z then Err ErrRange else parseDigits s' n1
      else Err ErrSyntax
  end.

(** The sign [strconv.Atoi] strips, and what is left. *)
Definition sign_and_body (s : string) : bool * string :=
  match s with
  | String c rest =>
      if Ascii.eqb c "-" then (true, rest)
      else if Ascii.eqb c "+" then (false, rest)
      else (false, s)
  | EmptyString => (false, s)
  end.

(** [strconv.Atoi] where [int] has 64 bits. *)
Definition strconv_Atoi (s : string) : result Z :=
  let '(neg, body) := sign_and_body s in
  if String.eqb body EmptyString then Err (NumError "Atoi" s ErrSyntax)
  else
    match parseDigits body 0 with
    | Err e => Err (NumError "Atoi" s e)
    | Ok un =>
        if (negb neg && (un >=? 2 ^ 63))%Z then Err (NumError "Atoi" s ErrRange)
        else if (neg && (un >? 2 ^ 63))%Z then Err (NumError "Atoi" s ErrRange)
        else Ok (if neg then - un else un)%Z
    end.

(** [strings.Split(s, sep)] for a separator of one byte: one piece more
    than there are separators. *)
Fixpoint strings_Split (s : string) (sep : ascii) : list string :=
  match s with
  | EmptyString => [EmptyString]
  | String c s' =>
      if Ascii.eqb c sep then EmptyString :: strings_Split s' sep
      else match strings_Split s' sep with
           | piece :: pieces => String c piece :: pieces
           | [] => [String c EmptyString]
           end
  end.

(** ** Wavefront OBJ *)

(** [parseIndex]: a 1-based OBJ index, or a negative one counting from the
    end, to a 0-based index below [maxLen]. *)
Definition parseIndex (indexStr : string) (maxLen : Z) : result Z :=
  match strconv_Atoi indexStr with
  | Err err => Err err
  | Ok index =>
      let index := if (index <? 0)%Z then add64 maxLen index else add64 index (-1) in
      if ((index <? 0) || (index >=? maxLen))%Z then
        Err (errorf ("index out of bounds: " +:+ pretty index +:+
                     " (max: " +:+ pretty maxLen +:+ ")"))
      else Ok index
  end.

Definition zero3 : vector3 := (0, 0, 0)%Z.
Definition zero2 : vector2 := (0, 0)%Z.

(** One turn of the loop of [processFace]: the vertex of one corner. *)
Definition faceCorner (vertexData : string)
    (positions normals : list vector3) (texCoords : list vector2)
  : outcome (result Vertex) :=
  let indices := strings_Split vertexData "/" in
  i0 ← at_index indices 0;
  match parseIndex i0 (len positions) with
  | Err err => Returns (Err (wrapf "invalid position index" err))
  | Ok posIndex =>
      position ← at_index positions posIndex;
      i1 ← (if (len indices >? 1)%Z then at_index indices 1 else Returns EmptyString);
      withTex ←
        (if ((len indices >? 1)%Z && negb (String.eqb i1 EmptyString))%bool then
           match parseIndex i1 (len texCoords) with
           | Err err => Returns (Err (wrapf "invalid texture coordinate index" err))
           | Ok texIndex => tex ← at_index texCoords texIndex; Returns (Ok tex)
           end
         else Returns (Ok zero2));
      match withTex with
      | Err err => Returns (Err err)
      | Ok tex =>
          i2 ← (if (len indices >? 2)%Z then at_index indices 2 else Returns EmptyString);
          withNormal ←
            (if ((len indices >? 2)%Z && negb (String.eqb i2 EmptyString))%bool then
               match parseIndex i2 (len normals) with
               | Err err => Returns (Err (wrapf "invalid normal index" err))
               | Ok normalIndex =>
                   normal ← at_index normals normalIndex; Returns (Ok normal)
               end
             else Returns (Ok zero3));
          match withNormal with
          | Err err => Returns (Err err)
          | Ok normal =>
              Returns (Ok {| Position := position; Normal := normal; TexCoords := tex |})
          end
      end
  end.

(** The loop of [processFace]; the vertices of the corners before a bad
    one stay appended. *)
Fixpoint faceLoop (faceData : list string)
    (positions normals : list vector3) (texCoords : list vector2)
    (vi : VertexImporter) : outcome (option error * VertexImporter) :=
  match faceData with
  | [] => Returns (None, vi)
  | vertexData :: rest =>
      r ← faceCorner vertexData positions normals texCoords;
      match r with
      | Err err => Returns (Some err, vi)
      | Ok vertex =>
          faceLoop rest positions normals texCoords
            {| vertices := vertices vi ++ [vertex] |}
      end
  end.

Definition processFace (faceData : list string)
    (positions normals : list vector3) (texCoords : list vector2)
    (vi : VertexImporter) : outcome (option error * VertexImporter) :=
  if (len faceData <? 3)%Z then
    Returns (Some (errorf "face must have at least 3 vertices"), vi)
  else faceLoop faceData positions normals texCoords vi.

(** [line == "" || line[0] == '#']. *)
Definition comment_or_blank (line : string) : bool :=
  match line with
  | EmptyString => true
  | String c _ => Ascii.eqb c "#"
  end.

Section obj.
(** [strings.TrimSpace], [strings.Fields] and [strconv.ParseFloat] (with
    bit size 64). *)
Context (strings_TrimSpace : string → string)
        (strings_Fields : string → list string)
        (strconv_ParseFloat : string → result float64).

Definition parseVector3 (values : list string) : outcome (result vector3) :=
  if (len values <? 3)%Z then Returns (Err (errorf "not enough values for vector3"))
  else
    v0 ← at_index values 0;
    match strconv_ParseFloat v0 with
    | Err err => Returns (Err err)
    | Ok x =>
        v1 ← at_index values 1;
        match strconv_ParseFloat v1 with
        | Err err => Returns (Err err)
        | Ok y =>
            v2 ← at_index values 2;
            match strconv_ParseFloat v2 with
            | Err err => Returns (Err err)
            | Ok z => Returns (Ok (x, y, z))
            end
        end
    end.

Definition parseVector2 (values : list string) : outcome (result vector2) :=
  if (len values <? 2)%Z then Returns (Err (errorf "not enough values for vector2"))
  else
    v0 ← at_index values 0;
    match strconv_ParseFloat v0 with
    | Err err => Returns (Err err)
    | Ok x =>
        v1 ← at_index values 1;
        match strconv_ParseFloat v1 with
        | Err err => Returns (Err err)
        | Ok y => Returns (Ok (x, y))
        end
    end.

(** The variables of the loop of [ImportFromOBJ]. *)
Record ObjState : Type := {
  positions : list vector3;
  normals : list vector3;
  texCoords : list vector2;
  importer : VertexImporter
}.

(** One turn of the loop of [ImportFromOBJ], for the line [text] the
    scanner yields: go on with the next line, or return an error. *)
Definition objLine (text : string) (st : ObjState)
  : outcome (Turn ObjState (option error * VertexImporter)) :=
  let line := strings_TrimSpace text in
  if comment_or_blank line then Returns (Continue st)
  else
      let fields := strings_Fields line in
      if (len fields <? 2)%Z then Returns (Continue st)
      else
        f0 ← at_index fields 0;
        if String.eqb f0 "v" then
          if (len fields <? 4)%Z then
            Returns (Return (Some (errorf "invalid vertex position"), importer st))
          else
            values ← slice fields 1 4;
            r ← parseVector3 values;
            match r with
            | Err err =>
                Returns (Return (Some (wrapf "failed to parse vertex position" err),
                                 importer st))
            | Ok pos =>
                Returns (Continue {| positions := positions st ++ [pos];
                                     normals := normals st;
                                     texCoords := texCoords st;
                                     importer := importer st |})
            end
        else if String.eqb f0 "vn" then
          if (len fields <? 4)%Z then
            Returns (Return (Some (errorf "invalid vertex normal"), importer st))
          else
            values ← slice fields 1 4;
            r ← parseVector3 values;
            match r with
            | Err err =>
                Returns (Return (Some (wrapf "failed to parse vertex normal" err),
                                 importer st))
            | Ok normal =>
                Returns (Continue {| positions := positions st;
                                     normals := normals st ++ [normal];
                                     texCoords := texCoords st;
                                     importer := importer st |})
            end
        else if String.eqb f0 "vt" then
          if (len fields <? 3)%Z then
            Returns (Return (Some (errorf "invalid texture coordinates"), importer st))
          else
            values ← slice fields 1 3;
            r ← parseVector2 values;
            match r with
            | Err err =>
                Returns (Return (Some (wrapf "failed to parse texture coordinates" err),
                                 importer st))
            | Ok tex =>
                Returns (Continue {| positions := positions st;
                                     normals := normals st;
                                     texCoords := texCoords st ++ [tex];
                                     importer := importer st |})
            end
        else if String.eqb f0 "f" then
          faceData ← slice fields 1 (len fields);
          r ← processFace faceData (positions st) (normals st) (texCoords st)
                (importer st);
          match r with
          | (Some err, vi) =>
              Returns (Return (Some (wrapf "failed to process face" err), vi))
          | (None, vi) =>
              Returns (Continue {| positions := positions st;
                                   normals := normals st;
                                   texCoords := texCoords st;
                                   importer := vi |})
          end
        else Returns (Continue st).

Fixpoint objLoop (scanned : list string) (scan_err : option error) (st : ObjState)
  : outcome (option error * VertexImporter) :=
  match scanned with
  | [] => Returns (scan_err, importer st)
  | text :: rest =>
      t ← objLine text st;
      match t with
      | Return r => Returns r
      | Continue st' => objLoop rest scan_err st'
      end
  end.

(** [ImportFromOBJ]. [scanned] lists the lines [bufio.Scanner] yields from
    the reader, and [scan_err] is what [scanner.Err()] returns once it
    stops: nil at the end of the input, else the reader's error or
    [bufio.ErrTooLong]. *)
Definition ImportFromOBJ (scanned : list string) (scan_err : option error)
    (vi : VertexImporter) : outcome (option error * VertexImporter) :=
  objLoop scanned scan_err
    {| positions := []; normals := []; texCoords := []; importer := vi |}.

(** The corners of the face a line declares, if it declares one. *)
Definition corners (text : string) : nat :=
  let line := strings_TrimSpace text in
  if comment_or_blank line then 0
  else
    match strings_Fields line with
    | f0 :: faceData => if String.eqb f0 "f" then length faceData else 0
    | [] => 0
    end.

End obj.

(** ** Binary FBX *)

(** [uint32] arithmetic. *)
Definition wrap32 (z : Z) : Z := z mod 2 ^ 32.

(** [binary.LittleEndian.Uint32] and [Uint64] of a slice of exactly four
    or eight bytes. *)
Definition le_uint (b : bytes) : Z :=
  foldr (λ x acc, (Z.of_N (Byte.to_N x) + 256 * acc)%Z) 0%Z b.

(** [binary.LittleEndian.PutUint32(b, v)] and [PutUint64(b, v)], for
    [n = 4] and [n = 8] bytes. *)
Fixpoint le_bytes (n : nat) (v : Z) : bytes :=
  match n with
  | O => []
  | S n' =>
      default Byte.x00 (Byte.of_N (Z.to_N (v mod 256))) :: le_bytes n' (v / 256)
  end.

Definition magic : bytes := list_byte_of_string "Kaydara FBX Binary  ".

(** The names of the nodes [extractGeometryData] reads. *)
Definition geometry_names : list bytes :=
  [list_byte_of_string "Vertices"; list_byte_of_string "Normals";
   list_byte_of_string "UV"].

(** The node header at offset [o], if the data holds one whole: the end
    offset it gives and the name of the node. *)
Definition node_at (data : bytes) (o : Z) : option (Z * bytes) :=
  match slice data o (o + 4), at_index data (o + 13) with
  | Returns header, Returns nameByte =>
      match slice data (o + 14) (o + 14 + Z.of_N (Byte.to_N nameByte)) with
      | Returns name => Some (le_uint header, name)
      | Panics _ => None
      end
  | _, _ => None
  end.

(** The loop of [extractFloatArray]. *)
Fixpoint floatLoop (fuel : nat) (data : bytes) (arrayLen i offset : Z)
    (result : list float64) : option (outcome (list float64)) :=
  match fuel with
  | O => None
  | S fuel' =>
      if ((i <? arrayLen) && (wrap32 (offset + 8) <=? wrap32 (len data)))%Z then
        match slice data offset (wrap32 (offset + 8)) with
        | Panics p => Some (Panics p)
        | Returns b =>
            floatLoop fuel' data arrayLen (wrap32 (i + 1)) (wrap32 (offset + 8))
              (result ++ [le_uint b])
        end
      else Some (Returns result)
  end.

(** [extractFloatArray]; the loop gets more turns than it can take. *)
Definition extractFloatArray (data : bytes) : option (outcome (list float64)) :=
  if (len data <? 4)%Z then Some (Returns [])
  else
    match slice data 0 4 with
    | Panics p => Some (Panics p)
    | Returns b => floatLoop (S (length data)) data (le_uint b) 0 4 []
    end.

(** The variables of the loop of [extractGeometryData]. *)
Record GeometryState : Type := {
  offset : Z;
  geo_vertices : list float64;
  geo_normals : list float64;
  geo_uvs : list float64
}.

Definition geometry (st : GeometryState)
  : list float64 * list float64 * list float64 :=
  (geo_vertices st, geo_normals st, geo_uvs st).

(** One turn of the loop of [extractGeometryData]: [None] when a float
    array was not read to its end in the turns given. *)
Definition geometryBody (data : bytes) (st : GeometryState)
  : option (outcome (Turn GeometryState
                       (list float64 * list float64 * list float64))) :=
  let size := wrap32 (len data) in
  if negb (offset st <? size)%Z then Some (Returns (Return (geometry st)))
  else if (wrap32 (offset st + 4) >? size)%Z then Some (Returns (Return (geometry st)))
  else
    match slice data (offset st) (wrap32 (offset st + 4)) with
    | Panics p => Some (Panics p)
    | Returns header =>
        let endOffset := le_uint header in
        if ((endOffset =? 0) || (endOffset >? size))%Z then
          Some (Returns (Return (geometry st)))
        else
          let offset1 := wrap32 (offset st + 13) in
          match at_index data offset1 with
          | Panics p => Some (Panics p)
          | Returns nameByte =>
              let nameLen := Z.of_N (Byte.to_N nameByte) in
              let offset2 := wrap32 (offset1 + 1) in
              if (wrap32 (offset2 + nameLen) >? size)%Z then
                Some (Returns (Return (geometry st)))
              else
                match slice data offset2 (wrap32 (offset2 + nameLen)) with
                | Panics p => Some (Panics p)
                | Returns nodeName =>
                    let offset3 := wrap32 (offset2 + nameLen) in
                    let next vs ns us :=
                      Some (Returns (Continue {| offset := endOffset;
                                                 geo_vertices := vs;
                                                 geo_normals := ns;
                                                 geo_uvs := us |})) in
                    let array :=
                      match slice data offset3 endOffset with
                      | Panics p => Some (Panics p)
                      | Returns part => extractFloatArray part
                      end in
                    if bool_decide (nodeName = list_byte_of_string "Vertices") then
                      match array with
                      | None => None
                      | Some (Panics p) => Some (Panics p)
                      | Some (Returns vs) => next vs (geo_normals st) (geo_uvs st)
                      end
                    else if bool_decide (nodeName = list_byte_of_string "Normals") then
                      match array with
                      | None => None
                      | Some (Panics p) => Some (Panics p)
                      | Some (Returns ns) => next (geo_vertices st) ns (geo_uvs st)
                      end
                    else if bool_decide (nodeName = list_byte_of_string "UV") then
                      match array with
                      | None => None
                      | Some (Panics p) => Some (Panics p)
                      | Some (Returns us) => next (geo_vertices st) (geo_normals st) us
                      end
                    else next (geo_vertices st) (geo_normals st) (geo_uvs st)
                end
          end
    end.

Fixpoint geometryLoop (fuel : nat) (data : bytes) (st : GeometryState)
  : option (outcome (list float64 * list float64 * list float64)) :=
  match fuel with
  | O => None
  | S fuel' =>
      match geometryBody data st with
      | None => None
      | Some (Panics p) => Some (Panics p)
      | Some (Returns (Return r)) => Some (Returns r)
      | Some (Returns (Continue st')) => geometryLoop fuel' data st'
      end
  end.

(** [extractGeometryData], given [fuel] turns of its loop: [None] when it
    has not returned by then. *)
Definition extractGeometryData (fuel : nat) (data : bytes)
  : option (outcome (list float64 * list float64 * list float64)) :=
  geometryLoop fuel data
    {| offset := 0; geo_vertices := []; geo_normals := []; geo_uvs := [] |}.

(** [parseFBXBinary]. The slice [data] may have capacity past its length,
    as the result of [io.ReadAll] has: [spare] is what lies in its array
    behind [data], and [data[23:27]] is checked against the capacity. *)
Definition parseFBXBinary (fuel : nat) (data spare : bytes)
  : option (outcome (result (list float64 * list float64 * list float64))) :=
  if ((len data <? len magic)%Z || negb (bool_decide (take (length magic) data = magic)))%bool
  then Some (Returns (Err (errorf "invalid FBX binary format")))
  else
    match slice (data ++ spare) 23 27 with
    | Panics p => Some (Panics p)
    | Returns v =>
        let version := le_uint v in
        if (version <? 7100)%Z then
          Some (Returns (Err (errorf ("unsupported FBX version: " +:+ pretty version))))
        else
          match slice data 27 (len data) with
          | Panics p => Some (Panics p)
          | Returns rest =>
              match extractGeometryData fuel rest with
              | None => None
              | Some (Panics p) => Some (Panics p)
              | Some (Returns g) => Some (Returns (Ok g))
              end
          end
    end.

(** The loop [for i := 0; i < len(vertices); i += 3] of [ImportFromFBX],
    with [n] turns left. *)
Fixpoint fbxLoop (n : nat) (i : Z) (fbx_vertices fbx_normals fbx_uvs : list float64)
    (vi : VertexImporter) : outcome VertexImporter :=
  match n with
  | O => Returns vi
  | S n' =>
      if (i <? len fbx_vertices)%Z then
        x ← at_index fbx_vertices i;
        y ← at_index fbx_vertices (i + 1);
        z ← at_index fbx_vertices (i + 2);
        normal ←
          (if (i <? len fbx_normals)%Z then
             nx ← at_index fbx_normals i;
             ny ← at_index fbx_normals (i + 1);
             nz ← at_index fbx_normals (i + 2);
             Returns (nx, ny, nz)
           else Returns zero3);
        tex ←
          (if (i / 3 * 2 <? len fbx_uvs)%Z then
             u ← at_index fbx_uvs (i / 3 * 2);
             v ← at_index fbx_uvs (i / 3 * 2 + 1);
             Returns (u, v)
           else Returns zero2);
        fbxLoop n' (i + 3) fbx_vertices fbx_normals fbx_uvs
          {| vertices := vertices vi ++
                         [{| Position := (x, y, z); Normal := normal; TexCoords := tex |}] |}
      else Returns vi
  end.

(** [ImportFromFBX]. [read] is what [io.ReadAll(reader)] returns: an
    error, or the data and the spare capacity of its slice. *)
Definition ImportFromFBX (fuel : nat) (read : result (bytes * bytes))
    (vi : VertexImporter) : option (outcome (option error * VertexImporter)) :=
  match read with
  | Err err => Some (Returns (Some (wrapf "failed to read FBX file" err), vi))
  | Ok (data, spare) =>
      match parseFBXBinary fuel data spare with
      | None => None
      | Some (Panics p) => Some (Panics p)
      | Some (Returns (Err err)) =>
          Some (Returns (Some (wrapf "failed to parse FBX binary" err), vi))
      | Some (Returns (Ok (vs, ns, us))) =>
          match fbxLoop (S (length vs)) 0 vs ns us vi with
          | Panics p => Some (Panics p)
          | Returns vi' => Some (Returns (None, vi'))
          end
      end
  end.

End importers.

(* ===================================================================== *)
(** * package blocks: from an upload to blocks (pkg/blocks/service.go)   *)
(* ===================================================================== *)

Module service.
Import Go blocks importers.

(** [encodeVertex]: the bits of the eight floats, little-endian. *)
Definition encodeVertex (vertex : Vertex) : bytes :=
  let '(p0, p1, p2) := Position vertex in
  let '(n0, n1, n2) := Normal vertex in
  let '(t0, t1) := TexCoords vertex in
  le_bytes 8 p0 ++ le_bytes 8 p1 ++ le_bytes 8 p2 ++
  le_bytes 8 n0 ++ le_bytes 8 n1 ++ le_bytes 8 n2 ++
  le_bytes 8 t0 ++ le_bytes 8 t1.

(** The [io.Reader] handed to [ProcessModelData], through what the
    importer that consumes it gets out of it: the lines and the final
    error of a [bufio.Scanner] over it, and the result of [io.ReadAll]. *)
Record Upload : Type := {
  scanned : list string;
  scan_err : option error;
  read_all : result (bytes * bytes)
}.

Section service.
Context (sha256_Sum256 : bytes → bytes)
        (strings_TrimSpace : string → string)
        (strings_Fields : string → list string)
        (strconv_ParseFloat : string → result float64).

(** The loop that stores one block per vertex. Nothing is removed when a
    later block cannot be stored. *)
Fixpoint storeLoop (s : Service) (vs : list Vertex) (d : Disk) (hashes : list string)
  : result (list string) * Disk :=
  match vs with
  | [] => (Ok hashes, d)
  | vertex :: rest =>
      let data := encodeVertex vertex in
      match StoreBlock sha256_Sum256 (store s) data d with
      | (Err err, d') => (Err err, d')
      | (Ok hash, d') => storeLoop s rest d' (hashes ++ [hash])
      end
  end.

(** The disk is ready for the blocks of the vertices [vs]: at their
    paths there is no directory and no fault, and no file with other
    content; and no two of the vertices have different encodings under
    one digest. *)
Definition ready_for_blocks (s : Service) (vs : list Vertex) (d : Disk) : Prop :=
  ∀ v, v ∈ vs →
    let path := getBlockPath (store s) (calculateHash sha256_Sum256 (encodeVertex v)) in
    (path ∉ dirs d) ∧
    write_fault (faults d) path = false ∧
    read_fault (faults d) path = false ∧
    (∀ D, files d !! path = Some D → D = encodeVertex v) ∧
    (∀ v', v' ∈ vs →
       calculateHash sha256_Sum256 (encodeVertex v')
       = calculateHash sha256_Sum256 (encodeVertex v) →
       encodeVertex v' = encodeVertex v).

Definition ProcessModelData (fuel : nat) (s : Service) (format : string)
    (reader : Upload) (d : Disk)
  : option (outcome (result (list string) * Disk)) :=
  let importer := NewVertexImporter in
  let imported :=
    if String.eqb format "obj" then
      Some (ImportFromOBJ strings_TrimSpace strings_Fields strconv_ParseFloat
              (scanned reader) (scan_err reader) importer)
    else if String.eqb format "fbx" then
      ImportFromFBX fuel (read_all reader) importer
    else Some (Returns (Some (errorf "unsupported format"), importer)) in
  match imported with
  | None => None
  | Some (Panics p) => Some (Panics p)
  | Some (Returns (Some err, _)) => Some (Returns (Err err, d))
  | Some (Returns (None, vi)) => Some (Returns (storeLoop s (GetVertices vi) d []))
  end.

End service.
End service.

(* ===================================================================== *)
(** * package core: objects made of blocks                               *)
(* ===================================================================== *)

Module objects.
Import Go.

Record Object : Type := {
  ID : string;
  Name : string;
  Format : string;
  Size : Z;
  BlockHashes : list string;
  Materials : list string;
  CreatedAt : Z;
  UpdatedAt : Z
}.

Record ObjectService : Type := {
  blockService : blocks.Service;
  storage : core.Storage
}.

Definition NewObjectService (blockService : blocks.Service) (storage : core.Storage)
  : ObjectService :=
  {| blockService := blockService; storage := storage |}.

Section objects.
(** [json.Unmarshal] into an [Object]. *)
Context (json_Unmarshal : bytes → result Object).

(** [Storage.GetObject]. The identifiers are the UUIDs [StoreObject]
    draws: one clean path element. *)
Definition Storage_GetObject (s : core.Storage) (id : string) (d : Disk)
  : result Object :=
  let objPath :=
    filepath_Join
      (filepath_Join (filepath_Join (core.basePath s) "objects") id) "metadata.json" in
  match os_ReadFile objPath d with
  | Err err =>
      if os_IsNotExist err then Err (errorf ("object not found: " +:+ id)) else Err err
  | Ok data =>
      match json_Unmarshal data with
      | Err err => Err err
      | Ok obj => Ok obj
      end
  end.

(** [Storage.DeleteObject]. *)
Definition Storage_DeleteObject (s : core.Storage) (id : string) (d : Disk)
  : option error * Disk :=
  os_RemoveAll (filepath_Join (filepath_Join (core.basePath s) "objects") id) d.

(** [ObjectService.GetObject]. *)
Definition GetObject (s : ObjectService) (id : string) (d : Disk) : result Object :=
  Storage_GetObject (storage s) id d.

(** The loop of [ObjectService.DeleteObject] over the block hashes. *)
Fixpoint deleteBlocksLoop (s : ObjectService) (hashes : list string) (d : Disk)
  : option error * Disk :=
  match hashes with
  | [] => (None, d)
  | hash :: rest =>
      match blocks.Service_DeleteBlock (blockService s) hash d with
      | (Some err, d') => (Some err, d')
      | (None, d') => deleteBlocksLoop s rest d'
      end
  end.

(** [ObjectService.DeleteObject]. *)
Definition DeleteObject (s : ObjectService) (id : string) (d : Disk)
  : option error * Disk :=
  match Storage_GetObject (storage s) id d with
  | Err err => (Some err, d)
  | Ok obj =>
      match deleteBlocksLoop s (BlockHashes obj) d with
      | (Some err, d') => (Some err, d')
      | (None, d') => Storage_DeleteObject (storage s) id d'
      end
  end.

End objects.
End objects.

(* ===================================================================== *)
(** * Concrete worlds and inputs for the runs below                      *)
(* ===================================================================== *)

Module Fixtures.
Import Go.

(** A stand-in for SHA-256 in concrete runs: the payload itself. Nothing
    proved in general depends on it. *)
Definition toy_sha (b : bytes) : bytes := b.

Definition uuids (n : nat) : string := "uuid-" +:+ pretty n.

(** An empty disk on which every call is carried out. *)
Definition world0 : World :=
  {| disk := empty_disk no_faults; uuid_src := uuids; uuid_ctr := 0; clock := 0 |}.

(** An empty disk on which no removal is carried out. *)
Definition world_no_remove : World :=
  {| disk := empty_disk
       {| mkdir_fault := λ _, false; write_fault := λ _, false;
          read_fault := λ _, false; remove_fault := λ _, true;
          stat_fault := λ _, false |};
     uuid_src := uuids; uuid_ctr := 0; clock := 0 |}.

Definition storage0 : core.Storage :=
  {| core.basePath := "/data"; core.metadata := ∅ |}.

Definition store0 : blocks.Store := {| blocks.basePath := "/blocks" |}.

Definition abc : bytes := ["a"; "b"; "c"]%byte.

(** A reader whose first [Read] returns the three bytes together with
    [io.EOF], which the contract of [io.Reader] allows (it is what
    [iotest.DataErrReader] does). *)
Definition data_with_EOF : ScriptReader :=
  {| script := [(abc, Some io_EOF)] |}.

(** A reader that returns one byte per [Read], as [iotest.OneByteReader]
    or a slow connection does. *)
Definition one_byte_reads : ScriptReader :=
  {| script := [(["a"%byte], None); (["b"%byte], None)] |}.

(** A reader whose second [Read] fails. *)
Definition failing_reader : ScriptReader :=
  {| script := [(abc, None); ([], Some (ReadError "connection reset"))] |}.

(** A block store in which a file sits under a name that is not the
    digest of its content. *)
Definition forged_disk : Disk :=
  {| files := {[ "/blocks/00" := abc ]}; dirs := {[ "/blocks" ]}; faults := no_faults |}.

(** The disk [NewStore] leaves: the directory of the store, empty. *)
Definition blocks_disk : Disk :=
  {| files := ∅; dirs := {[ "/blocks" ]}; faults := no_faults |}.

(** A system that answers [os.Stat] and reads, and refuses to create or
    write anything. *)
Definition no_writes : Faults :=
  {| mkdir_fault := λ _, true; write_fault := λ _, true;
     read_fault := λ _, false; remove_fault := λ _, false;
     stat_fault := λ _, false |}.

(** The disk [NewStorage] leaves: the storage directory, empty. *)
Definition data_disk : Disk :=
  {| files := ∅; dirs := {[ "/data" ]}; faults := no_faults |}.

Definition world_data : World :=
  {| disk := data_disk; uuid_src := uuids; uuid_ctr := 0; clock := 0 |}.

(** The same, on a system that refuses the file of the second chunk of the
    first model (a full disk). *)
Definition world_chunk1_refused : World :=
  {| disk :=
       {| files := ∅; dirs := {[ "/data" ]};
          faults :=
            {| mkdir_fault := λ _, false;
               write_fault := λ p, String.eqb p "/data/uuid-0/chunk_1";
               read_fault := λ _, false; remove_fault := λ _, false;
               stat_fault := λ _, false |} |};
     uuid_src := uuids; uuid_ctr := 0; clock := 0 |}.

(** A context found cancelled from its [c]-th poll on. *)
Definition cancelled_at (c : nat) : Context :=
  {| cancel_at := Some c; cancel_err := context_Canceled |}.

(** The state a successful store of [abc] from a [bytes.Reader] leaves. *)
Definition stored :=
  core.StoreModel toy_sha 3 context_Background "m.glb" "glb"
    {| unread := abc |} storage0 world0.

Definition storage1 : core.Storage :=
  match stored with
  | Some (_, s, _, _) => s
  | None => storage0
  end.

Definition world1 : World :=
  match stored with
  | Some (_, _, w, _) => w
  | None => world0
  end.

(** The same store in the directory [NewStorage] made. *)
Definition stored_in_data :=
  core.StoreModel toy_sha 3 context_Background "m.glb" "glb"
    {| unread := abc |} storage0 world_data.

Definition storage1_in_data : core.Storage :=
  match stored_in_data with
  | Some (_, s, _, _) => s
  | None => storage0
  end.

Definition world1_in_data : World :=
  match stored_in_data with
  | Some (_, _, w, _) => w
  | None => world_data
  end.

(** The state a successful store of two one-byte chunks leaves, and that
    state after the file of the second chunk was lost. *)
Definition stored2 :=
  core.StoreModel toy_sha 3 context_Background "n.glb" "glb"
    one_byte_reads storage0 world0.

Definition storage2 : core.Storage :=
  match stored2 with
  | Some (_, s, _, _) => s
  | None => storage0
  end.

Definition world2_lost : World :=
  match stored2 with
  | Some (_, _, w, _) => with_disk w (os_Remove "/data/uuid-0/chunk_1" (disk w)).2
  | None => world0
  end.

(** A network on which no peer answers, and one on which only [peerB]
    does. *)
Definition refused : error := ConnectError "connection refused".

Definition nobody_up : p2p.Net :=
  {| p2p.link := λ _ _, Some refused; p2p.dialled := [];
     p2p.slept := []; p2p.polls := 0 |}.

Definition only_B_up : p2p.Net :=
  {| p2p.link := λ p _, if decide (p = "peerB") then None else Some refused;
     p2p.dialled := []; p2p.slept := []; p2p.polls := 0 |}.

(** Stand-ins for [strings.TrimSpace] and [strings.Fields] on ASCII text,
    and for [strconv.ParseFloat]: the float whose bits are the number
    written. Nothing proved in general depends on them. *)
Definition is_space (c : ascii) : bool :=
  match nat_of_ascii c with
  | 9 | 10 | 11 | 12 | 13 | 32 => true
  | _ => false
  end.

Fixpoint trim_left (s : string) : string :=
  match s with
  | EmptyString => EmptyString
  | String c s' => if is_space c then trim_left s' else s
  end.

Fixpoint trim_right (s : string) : string :=
  match s with
  | EmptyString => EmptyString
  | String c s' =>
      match trim_right s' with
      | EmptyString => if is_space c then EmptyString else String c EmptyString
      | t => String c t
      end
  end.

Definition ascii_TrimSpace (s : string) : string := trim_right (trim_left s).

Fixpoint words (s : string) : string * list string :=
  match s with
  | EmptyString => (EmptyString, [])
  | String c s' =>
      let '(w, ws) := words s' in
      if is_space c then
        (EmptyString, if String.eqb w EmptyString then ws else w :: ws)
      else (String c w, ws)
  end.

Definition ascii_Fields (s : string) : list string :=
  let '(w, ws) := words s in
  if String.eqb w EmptyString then ws else w :: ws.

Definition toy_ParseFloat (s : string) : result importers.float64 :=
  importers.parseDigits s 0.

(** A triangle, its third corner named from the end. *)
Definition obj_triangle : list string :=
  ["# a triangle"; "v 1 2 3"; "v 4 5 6"; "  v 7 8 9"; "vt 1 2"; "vn 1 1 1";
   "f 1/1/1 2 -1"].

(** The 27 bytes that open a binary FBX file of version 7400. *)
Definition fbx_header : bytes :=
  importers.magic ++ [x1a; x00; x00] ++ importers.le_bytes 4 7400.

(** A file whose first node ends at offset 4 of the node area, where a
    node gives 4 as its own end. *)
Definition fbx_hang : bytes :=
  fbx_header ++ importers.le_bytes 4 4 ++ importers.le_bytes 4 4 ++ replicate 10 x00.

(** A file with one node, [Vertices], that holds a single float. *)
Definition fbx_one_float : bytes :=
  fbx_header ++ importers.le_bytes 4 34 ++ replicate 9 x00 ++ [x08] ++
  list_byte_of_string "Vertices" ++ importers.le_bytes 4 1 ++ importers.le_bytes 8 42.

(** An array that announces three floats and holds two and a byte. *)
Definition float_array : bytes :=
  importers.le_bytes 4 3 ++ importers.le_bytes 8 1 ++ importers.le_bytes 8 2 ++ [x00].

(** The three vertices of [obj_triangle]. *)
Definition corner1 : importers.Vertex :=
  {| importers.Position := (1, 2, 3)%Z; importers.Normal := (1, 1, 1)%Z;
     importers.TexCoords := (1, 2)%Z |}.
Definition corner2 : importers.Vertex :=
  {| importers.Position := (4, 5, 6)%Z; importers.Normal := importers.zero3;
     importers.TexCoords := importers.zero2 |}.
Definition corner3 : importers.Vertex :=
  {| importers.Position := (7, 8, 9)%Z; importers.Normal := importers.zero3;
     importers.TexCoords := importers.zero2 |}.

Definition triangle_upload : service.Upload :=
  {| service.scanned := obj_triangle; service.scan_err := None;
     service.read_all := Ok ([], []) |}.

(** The path of the block of a vertex in [store0], and a disk on which
    the block of [corner2] cannot be written. *)
Definition corner_path (v : importers.Vertex) : string :=
  blocks.getBlockPath store0 (blocks.calculateHash toy_sha (service.encodeVertex v)).

Definition disk_refusing_corner2 : Disk :=
  {| files := ∅; dirs := {[ "/blocks" ]};
     faults :=
       {| mkdir_fault := λ _, false;
          write_fault := λ p, String.eqb p (corner_path corner2);
          read_fault := λ _, false; remove_fault := λ _, false;
          stat_fault := λ _, false |} |}.

(** An object whose two corners share one block, as its metadata file
    gives it, and the disk that holds both. *)
Definition shared_corner_object : objects.Object :=
  {| objects.ID := "o1"; objects.Name := "m.obj"; objects.Format := "obj";
     objects.Size := 3; objects.BlockHashes := ["00"; "00"];
     objects.Materials := []; objects.CreatedAt := 0; objects.UpdatedAt := 0 |}.

Definition toy_Unmarshal (data : bytes) : result objects.Object :=
  Ok shared_corner_object.

Definition object_service : objects.ObjectService :=
  objects.NewObjectService (blocks.NewService store0) storage0.

Definition object_disk : Disk :=
  {| files := {[ "/blocks/00" := abc; "/data/objects/o1/metadata.json" := [] ]};
     dirs := {[ "/blocks"; "/data"; "/data/objects"; "/data/objects/o1" ]};
     faults := no_faults |}.

(** A network on which a peer answers from the third dial on. *)
Definition third_dial_answers : p2p.Net :=
  {| p2p.link := λ _ k, if (k <? 2)%nat then Some refused else None;
     p2p.dialled := []; p2p.slept := []; p2p.polls := 0 |}.

Definition parse_multiaddr (a : string) : result string :=
  if decide (a = "garbage") then Err (errorf "invalid multiaddr") else Ok a.

Definition parse_addrinfo (m : string) : result p2p.AddrInfo :=
  Ok {| p2p.peer_ID := m; p2p.Addrs := [m] |}.

Definition peerA : p2p.AddrInfo := {| p2p.peer_ID := "peerA"; p2p.Addrs := ["peerA"] |}.
Definition peerB : p2p.AddrInfo := {| p2p.peer_ID := "peerB"; p2p.Addrs := ["peerB"] |}.

Definition node0 : p2p.Network :=
  {| p2p.cfg := {| p2p.ListenAddress := "127.0.0.1"; p2p.Port := 4001;
                   p2p.BootstrapPeers := ["peerA"; "garbage"; "peerB"] |};
     p2p.host_ID := "self";
     p2p.peers := ∅ |}.

End Fixtures.

(* ===================================================================== *)
(** * Paths and the disk                                                 *)
(* ===================================================================== *)

Module DiskFacts.
Import Go.

Lemma append_cons (x : ascii) (a b : string) :
  String x a +:+ b = String x (a +:+ b).
Proof. reflexivity. Qed.

Lemma prefix_append (s t : string) : String.prefix s (s +:+ t) = true.
Proof.
  induction s as [|a s IH].
  - by destruct t.
  - rewrite append_cons. simpl.
    destruct (ascii_dec a a); [exact IH | congruence].
Qed.

Lemma append_assoc (a b c : string) : (a +:+ b) +:+ c = a +:+ (b +:+ c).
Proof.
  induction a as [|x a IH]; [done |].
  rewrite !append_cons. by f_equal.
Qed.

Lemma append_cancel_l (a b c : string) : a +:+ b = a +:+ c → b = c.
Proof. apply (inj (String.append a)). Qed.

Lemma below_Join (d e : string) : below d (filepath_Join d e) = true.
Proof.
  unfold below, filepath_Join.
  rewrite <- (append_assoc d "/" e). apply prefix_append.
Qed.

Lemma Join_inj (d e e' : string) :
  filepath_Join d e = filepath_Join d e' → e = e'.
Proof.
  unfold filepath_Join. intros H%append_cancel_l. by apply append_cancel_l in H.
Qed.

Lemma Join_not_base (d e : string) : filepath_Join d e ≠ d.
Proof.
  unfold filepath_Join. induction d as [|x d IH].
  - done.
  - rewrite append_cons. intros [= Heq]. by apply IH.
Qed.

Lemma chunk_name_inj (i j : nat) : chunk_name i = chunk_name j → i = j.
Proof.
  unfold chunk_name. intros H%append_cancel_l. by apply (inj pretty) in H.
Qed.

Lemma chunk_path_inj (d : string) (i j : nat) :
  filepath_Join d (chunk_name i) = filepath_Join d (chunk_name j) → i = j.
Proof. intros H%Join_inj. by apply chunk_name_inj. Qed.

(** After a [RemoveAll] that the system carried out, nothing is left. *)
Lemma RemoveAll_gone (p : string) (d d' : Disk) :
  os_RemoveAll p d = (None, d') → dir_gone p d'.
Proof.
  unfold os_RemoveAll. destruct (remove_fault _ _); [done |].
  intros [= <-]. unfold dir_gone; simpl. split_and!.
  - rewrite elem_of_filter. intros [[Hne _] _]. by apply Hne.
  - apply map_lookup_filter_None. right. intros x _ [Hne _]. by apply Hne.
  - intros q Hq. split.
    + apply map_lookup_filter_None. right. intros x _ [_ ?]. simpl in *. congruence.
    + rewrite elem_of_filter. intros [[_ ?] _]. congruence.
Qed.

Lemma RemoveAll_result (p : string) (d : Disk) :
  remove_fault (faults d) p = false → (os_RemoveAll p d).1 = None.
Proof. unfold os_RemoveAll. by intros ->. Qed.

Lemma RemoveAll_faults (p : string) (d : Disk) :
  faults (os_RemoveAll p d).2 = faults d.
Proof. unfold os_RemoveAll. by destruct (remove_fault _ _). Qed.

End DiskFacts.

(* ===================================================================== *)
(** * The block store                                                    *)
(* ===================================================================== *)

Module BlockStore.
Import Go blocks DiskFacts.

Section facts.
Context (sha256_Sum256 : bytes → bytes).

Abbreviation calculateHash := (calculateHash sha256_Sum256).
Abbreviation StoreBlock := (StoreBlock sha256_Sum256).
Abbreviation store_inv := (store_inv sha256_Sum256).


Lemma store_inv_StoreBlock (s : Store) (P : bytes) (d : Disk) :
  store_inv s d → store_inv s (StoreBlock s P d).2.
Proof.
  intros Hinv. unfold blocks.StoreBlock.
  destruct (os_Stat_ok _ _); [done |].
  unfold os_WriteFile.
  destruct (write_fault _ _); [done |].
  destruct (decide _); [done |].
  intros h D Hel Hfile. simpl in Hfile.
  apply lookup_insert_Some in Hfile as [[Heq <-] | [_ Hfile]]; [| by apply Hinv].
  unfold getBlockPath in Heq. by apply Join_inj in Heq.
Qed.


(** The first [StoreBlock(P)] on a disk that carries it out: the digest
    comes back, the block's file holds [P], and no other file, no directory
    and no fault has changed. *)
Lemma StoreBlock_first (s : Store) (P : bytes) (d : Disk) :
  let h := calculateHash P in
  let path := getBlockPath s h in
  stat_fault (faults d) path = false →
  write_fault (faults d) path = false →
  path ∉ dirs d →
  (∀ D, files d !! path = Some D → D = P) →
  ∃ d1,
    StoreBlock s P d = (Ok h, d1) ∧
    files d1 !! path = Some P ∧
    (∀ q, q ≠ path → files d1 !! q = files d !! q) ∧
    dirs d1 = dirs d ∧ faults d1 = faults d.
Proof.
  intros h path Hstat Hwrite Hnd Hsame.
  unfold blocks.StoreBlock. fold h path.
  destruct (os_Stat_ok path d) eqn:Hs.
  - exists d. split_and!; [done | | done | done | done].
    unfold os_Stat_ok in Hs. rewrite Hstat in Hs.
    apply bool_decide_eq_true in Hs as [[D HD] | Hdir]; [| done].
    by rewrite HD, (Hsame D HD).
  - unfold os_WriteFile. rewrite Hwrite.
    destruct (decide (path ∈ dirs d)) as [Hdir | _]; [done |].
    eexists. split_and!; [done | | | done | done]; simpl.
    + by rewrite lookup_insert_eq.
    + intros q Hq. by rewrite lookup_insert_ne.
Qed.

(** [StoreBlock(P)] on a disk where [os.Stat] finds the block's file:
    [os.WriteFile] is not called, whatever the system would answer it. *)
Lemma StoreBlock_found (s : Store) (P D : bytes) (d : Disk) :
  files d !! getBlockPath s (calculateHash P) = Some D →
  stat_fault (faults d) (getBlockPath s (calculateHash P)) = false →
  StoreBlock s P d = (Ok (calculateHash P), d).
Proof.
  intros Hfile Hstat. unfold blocks.StoreBlock, os_Stat_ok. rewrite Hstat.
  rewrite bool_decide_eq_true_2; [done |]. left. by eexists.
Qed.

(** C3. With the system carrying out the first call on the block's own
    path, no directory at that path and no other payload already filed
    under the digest of [P]: two calls of [StoreBlock(P)] both return the
    digest of [P]; the second call leaves the disk as it is, and it does so
    without calling [os.WriteFile]: it returns the digest on the unchanged
    disk even when, from the first call on, the system refuses every write
    ([f] is any fault table under which [os.Stat] of the block answers, the
    one that fails all writes included); the first call changes no file but
    the block's own; afterwards the block's file holds [P], and it is the
    only file holding [P] when no other file did before, and the only block
    file holding [P] in a store whose block files are named by the digests
    of their contents, which the store then still is. *)
Theorem StoreBlock_idempotent (s : Store) (P : bytes) (d : Disk) :
  let h := calculateHash P in
  let path := getBlockPath s h in
  stat_fault (faults d) path = false →
  write_fault (faults d) path = false →
  path ∉ dirs d →
  (∀ D, files d !! path = Some D → D = P) →
  ∃ d1,
    StoreBlock s P d = (Ok h, d1) ∧
    StoreBlock s P d1 = (Ok h, d1) ∧
    (∀ f, stat_fault f path = false →
          StoreBlock s P (with_faults d1 f) = (Ok h, with_faults d1 f)) ∧
    files d1 !! path = Some P ∧
    (∀ q, q ≠ path → files d1 !! q = files d !! q) ∧
    ((∀ q, q ≠ path → files d !! q ≠ Some P) →
     ∀ q, files d1 !! q = Some P ↔ q = path) ∧
    (store_inv s d →
     store_inv s d1 ∧
     ∀ h', path_element h' = true →
           files d1 !! getBlockPath s h' = Some P → h' = h).
Proof.
  intros h path Hstat Hwrite Hnd Hsame.
  destruct (StoreBlock_first s P d Hstat Hwrite Hnd Hsame)
    as (d1 & Hfirst & Hfile & Hrest & _ & Hfl).
  fold h path in Hfirst, Hfile, Hrest.
  exists d1. split_and!; [done | | | done | done | |].
  - apply (StoreBlock_found s P P d1); [done |]. fold h path. by rewrite Hfl.
  - intros f Hf. by apply (StoreBlock_found s P P (with_faults d1 f)).
  - intros Hnone q. split.
    + intros Hq. destruct (decide (q = path)) as [-> | Hne]; [done |].
      rewrite (Hrest q Hne) in Hq. by destruct (Hnone q Hne).
    + by intros ->.
  - intros Hinv.
    assert (store_inv s d1) as Hinv1.
    { pose proof (store_inv_StoreBlock s P d Hinv) as H1.
      by rewrite Hfirst in H1. }
    split; [done |]. intros h' Hel Hh'. by apply (Hinv1 h' P).
Qed.

(** C10. Whenever a file sits at the path of [h] and can be read,
    [GetBlock(h)] returns its bytes as the block of [h], with [Size] their
    length; the digest is not recomputed, so bytes that do not digest to
    [h] come back as a block whose data does not match its [Hash]. *)
Theorem GetBlock_trusts_the_path (s : Store) (h : string) (d : Disk) (data : bytes) :
  read_fault (faults d) (getBlockPath s h) = false →
  files d !! getBlockPath s h = Some data →
  GetBlock s h d = Ok {| Hash := h; Size := len data; Data := data |} ∧
  (calculateHash data ≠ h →
   ∃ b, GetBlock s h d = Ok b ∧ Hash b = h ∧ calculateHash (Data b) ≠ Hash b).
Proof.
  intros Hr Hf.
  assert (GetBlock s h d = Ok {| Hash := h; Size := len data; Data := data |}) as HG.
  { unfold GetBlock, os_ReadFile. by rewrite Hr, Hf. }
  split; [done |]. intros Hne. eexists. split; [exact HG |]. done.
Qed.

End facts.
End BlockStore.

(* ===================================================================== *)
(** * Chunked object storage: catalog, deletion, failure, cancellation   *)
(* ===================================================================== *)

Module Storage.
Import Go core DiskFacts.

(** The state [splitAndStoreChunks] starts its loop in. *)
Abbreviation start rd w :=
  {| reader := rd; chunks := []; totalSize := 0; chunkIndex := 0; world := w |}.

(** The identifier the next [StoreModel] draws, and its directory. *)
Abbreviation next_id w := (uuid_src w (uuid_ctr w)).
Abbreviation next_path s w := (filepath_Join (basePath s) (next_id w)).

Section facts.
Context (sha256_Sum : bytes → bytes).

Abbreviation CalculateHash := (CalculateHash sha256_Sum).
Abbreviation StoreModel := (StoreModel sha256_Sum).

(** ** [StoreModel], case by case *)

Lemma StoreModel_mkdir_fails {R} `{Reader R} fuel ctx name format (rd : R) s w e d :
  os_MkdirAll (next_path s w) (disk w) = (Some e, d) →
  StoreModel fuel ctx name format rd s w
  = Some (Err e, s, with_disk (generateUUID w).2 d, rd).
Proof. intros Hm. unfold core.StoreModel. simpl. by rewrite Hm. Qed.

Lemma StoreModel_split_fails {R} `{Reader R} fuel ctx name format (rd : R) s w d0 e w1 rd1 :
  os_MkdirAll (next_path s w) (disk w) = (None, d0) →
  splitAndStoreChunks fuel ctx (next_path s w) rd (with_disk (generateUUID w).2 d0)
  = Some (Err e, w1, rd1) →
  StoreModel fuel ctx name format rd s w
  = Some (Err e, s, with_disk w1 (os_RemoveAll (next_path s w) (disk w1)).2, rd1).
Proof.
  intros Hm Hs. unfold core.StoreModel. simpl. rewrite Hm. simpl in Hs. rewrite Hs.
  by destruct (os_RemoveAll _ _).
Qed.

Lemma StoreModel_split_ok {R} `{Reader R} fuel ctx name format (rd : R) s w d0 cs size w1 rd1 :
  os_MkdirAll (next_path s w) (disk w) = (None, d0) →
  splitAndStoreChunks fuel ctx (next_path s w) rd (with_disk (generateUUID w).2 d0)
  = Some (Ok (cs, size), w1, rd1) →
  let md := {| ID := next_id w; Name := name; Format := format; Size := size;
               Hash := hex_EncodeToString
                         (sha256_Sum (list_byte_of_string (next_id w +:+ name +:+ format)));
               Chunks := cs; CreatedAt := clock w; Owner := ""; Permissions := [] |} in
  StoreModel fuel ctx name format rd s w
  = Some (Ok md,
          {| basePath := basePath s; metadata := <[next_id w := md]> (metadata s) |},
          w1, rd1).
Proof.
  intros Hm Hs. unfold core.StoreModel. simpl. rewrite Hm. simpl in Hs. by rewrite Hs.
Qed.

(** A successful [StoreModel] is one whose directory was made and whose
    loop ran to the end of the stream. *)
Lemma StoreModel_Ok_inv {R} `{Reader R} fuel ctx name format (rd : R) s w md s' w' rd' :
  StoreModel fuel ctx name format rd s w = Some (Ok md, s', w', rd') →
  ∃ d0,
    os_MkdirAll (next_path s w) (disk w) = (None, d0) ∧
    splitAndStoreChunks fuel ctx (next_path s w) rd (with_disk (generateUUID w).2 d0)
    = Some (Ok (Chunks md, Size md), w', rd') ∧
    ID md = next_id w ∧ Name md = name ∧ Format md = format ∧
    Hash md = CalculateHash md ∧
    s' = {| basePath := basePath s; metadata := <[ID md := md]> (metadata s) |}.
Proof.
  intros HS.
  destruct (os_MkdirAll (next_path s w) (disk w)) as [[e|] d0] eqn:Hm.
  { rewrite (StoreModel_mkdir_fails _ _ _ _ _ _ _ _ _ Hm) in HS. done. }
  destruct (splitAndStoreChunks fuel ctx (next_path s w) rd
              (with_disk (generateUUID w).2 d0)) as [[[[[cs size]|e] w1] rd1]|] eqn:Hs.
  - rewrite (StoreModel_split_ok _ _ _ _ _ _ _ _ _ _ _ _ Hm Hs) in HS.
    injection HS as <- <- <- <-. exists d0. by split_and!.
  - rewrite (StoreModel_split_fails _ _ _ _ _ _ _ _ _ _ _ Hm Hs) in HS. done.
  - unfold core.StoreModel in HS. simpl in HS, Hs. rewrite Hm, Hs in HS. done.
Qed.

(** ** The disk keeps its fault table *)

Lemma MkdirAll_faults p d : faults (os_MkdirAll p d).2 = faults d.
Proof. unfold os_MkdirAll. by repeat case_match. Qed.

Lemma WriteFile_faults p data d : faults (os_WriteFile p data d).2 = faults d.
Proof. unfold os_WriteFile. by repeat case_match. Qed.

Lemma splitBody_faults {R} `{Reader R} ctx mp (st : SplitState R) :
  match splitBody ctx mp st with
  | Continue st' => faults (disk (world st')) = faults (disk (world st))
  | Return (_, w, _) => faults (disk w) = faults (disk (world st))
  end.
Proof.
  unfold splitBody. destruct (ctx_Done _ _); [done |].
  destruct (Read _ _) as [[data [e|]] rd']; [by destruct (is_EOF e) |].
  simpl. unfold storeChunk. simpl.
  pose proof (WriteFile_faults
    (filepath_Join mp (chunk_name (chunkIndex st))) data (disk (world st))) as Hf.
  destruct (os_WriteFile _ _ _) as [[e|] d']; simpl in *; done.
Qed.

Lemma splitLoop_faults {R} `{Reader R} fuel ctx mp (st : SplitState R) res w rd :
  splitLoop fuel ctx mp st = Some (res, w, rd) →
  faults (disk w) = faults (disk (world st)).
Proof.
  revert st. induction fuel as [|fuel IH]; intros st; simpl; [done |].
  pose proof (splitBody_faults ctx mp st) as Hb.
  destruct (splitBody ctx mp st) as [st' | [[res' w''] rd'']].
  - intros Hl. rewrite (IH _ Hl). done.
  - intros [= <- <- <-]. done.
Qed.

(** ** The metadata hash *)

(** C9. [CalculateHash] reads the identifier, the name and the format and
    nothing else; so the hash [StoreModel] records is the digest of those
    three, and two stores that draw the same identifier under the same name
    and format record the same hash whatever their readers deliver. *)
Theorem Hash_is_of_id_name_format :
  (∀ m1 m2, ID m1 = ID m2 → Name m1 = Name m2 → Format m1 = Format m2 →
            CalculateHash m1 = CalculateHash m2) ∧
  (∀ (R1 R2 : Type) (H1 : Reader R1) (H2 : Reader R2)
     fuel1 fuel2 ctx1 ctx2 name format (rd1 : R1) (rd2 : R2)
     s1 s2 w1 w2 md1 md2 s1' s2' w1' w2' rd1' rd2',
     next_id w1 = next_id w2 →
     StoreModel fuel1 ctx1 name format rd1 s1 w1 = Some (Ok md1, s1', w1', rd1') →
     StoreModel fuel2 ctx2 name format rd2 s2 w2 = Some (Ok md2, s2', w2', rd2') →
     ID md1 = ID md2 ∧ Name md1 = Name md2 ∧ Format md1 = Format md2 ∧
     Hash md1 = Hash md2 ∧
     Hash md1 = hex_EncodeToString
                  (sha256_Sum (list_byte_of_string (ID md1 +:+ name +:+ format)))).
Proof.
  split.
  - intros m1 m2 Hi Hn Hf. unfold core.CalculateHash. by rewrite Hi, Hn, Hf.
  - intros R1 R2 H1 H2 fuel1 fuel2 ctx1 ctx2 name format rd1 rd2
      s1 s2 w1 w2 md1 md2 s1' s2' w1' w2' rd1' rd2' Hid HS1 HS2.
    apply StoreModel_Ok_inv in HS1 as (_ & _ & _ & Hi1 & Hn1 & Hf1 & Hh1 & _).
    apply StoreModel_Ok_inv in HS2 as (_ & _ & _ & Hi2 & Hn2 & Hf2 & Hh2 & _).
    rewrite Hh1, Hh2. unfold core.CalculateHash.
    rewrite Hi1, Hi2, Hn1, Hn2, Hf1, Hf2, Hid. done.
Qed.

(** ** Deletion *)

(** C5. When [DeleteModel(id)] returns nil, the catalog it leaves has no
    entry for [id], so [GetModel(id)] reports that the model is not found
    (and, reading the catalog only, keeps doing so until a store puts the
    identifier back), and the object's directory is gone from the disk with
    everything in it. When [id] is not in the catalog, [DeleteModel(id)]
    reports that the model is not found and changes neither the catalog
    nor the disk. *)
Theorem DeleteModel_is_final (s : Storage) (id : string) (w : World) :
  (∀ s' w', DeleteModel s id w = (None, s', w') →
            GetModel s' id = Err (NotFound id) ∧
            metadata s' = delete id (metadata s) ∧
            dir_gone (filepath_Join (basePath s) id) (disk w')) ∧
  (metadata s !! id = None →
   DeleteModel s id w = (Some (NotFound id), s, w)).
Proof.
  unfold DeleteModel. split.
  - intros s' w'. destruct (metadata s !! id) as [md|]; [| done].
    destruct (os_RemoveAll _ _) as [[e|] d] eqn:Hr; [done |].
    intros [= <- <-]. split_and!; [| done |].
    + unfold GetModel, getMetadata. simpl. by rewrite lookup_delete_eq.
    + simpl. by apply RemoveAll_gone in Hr.
  - by intros ->.
Qed.

(** An identifier that is not in the catalog stays out of it through any
    later [DeleteModel] and through any later [StoreModel] that draws
    another identifier: [GetModel] keeps reporting it as not found. *)
Lemma GetModel_NotFound_iff (s : Storage) (id : string) :
  GetModel s id = Err (NotFound id) ↔ metadata s !! id = None.
Proof.
  unfold GetModel, getMetadata. destruct (metadata s !! id); split; done.
Qed.

Lemma absent_after_DeleteModel (s : Storage) (id id' : string) (w : World) :
  metadata s !! id = None → metadata (DeleteModel s id' w).1.2 !! id = None.
Proof.
  intros Hid. unfold DeleteModel.
  destruct (metadata s !! id') eqn:Hid'; [| done].
  destruct (os_RemoveAll _ _). simpl.
  apply lookup_delete_None. by right.
Qed.

Lemma absent_after_StoreModel {R} `{Reader R} fuel ctx name format (rd : R)
    s w (id : string) r s' w' rd' :
  metadata s !! id = None →
  next_id w ≠ id →
  StoreModel fuel ctx name format rd s w = Some (r, s', w', rd') →
  metadata s' !! id = None.
Proof.
  intros Hid Hne HS. destruct r as [md | e].
  - apply StoreModel_Ok_inv in HS as (_ & _ & _ & Hmd & _ & _ & _ & ->).
    simpl. rewrite lookup_insert_ne by congruence. done.
  - destruct (os_MkdirAll (next_path s w) (disk w)) as [[e0|] d0] eqn:Hm.
    { rewrite (StoreModel_mkdir_fails _ _ _ _ _ _ _ _ _ Hm) in HS. congruence. }
    destruct (splitAndStoreChunks fuel ctx (next_path s w) rd
                (with_disk (generateUUID w).2 d0)) as [[[[[cs size]|e1] w1] rd1]|] eqn:Hs.
    + rewrite (StoreModel_split_ok _ _ _ _ _ _ _ _ _ _ _ _ Hm Hs) in HS. done.
    + rewrite (StoreModel_split_fails _ _ _ _ _ _ _ _ _ _ _ Hm Hs) in HS. congruence.
    + unfold core.StoreModel in HS. simpl in HS, Hs. rewrite Hm, Hs in HS. done.
Qed.

(** ** A failed store *)

(** Whatever error the chunk loop comes back with, once the directory
    exists: [StoreModel] returns it with the catalog as it was and the disk
    as [os.RemoveAll] leaves it. *)
Lemma StoreModel_loop_error {R} `{Reader R}
    fuel ctx name format (rd : R) s w d0 e w1 rd1 :
  os_MkdirAll (next_path s w) (disk w) = (None, d0) →
  splitAndStoreChunks fuel ctx (next_path s w) rd (with_disk (generateUUID w).2 d0)
  = Some (Err e, w1, rd1) →
  ∃ w',
    StoreModel fuel ctx name format rd s w = Some (Err e, s, w', rd1) ∧
    disk w' = (os_RemoveAll (next_path s w) (disk w1)).2 ∧
    (remove_fault (faults (disk w)) (next_path s w) = false →
     dir_gone (next_path s w) (disk w')).
Proof.
  intros Hm Hs. eexists. split_and!.
  - exact (StoreModel_split_fails _ _ _ _ _ _ _ _ _ _ _ Hm Hs).
  - done.
  - intros Hrm. simpl.
    assert (faults (disk w1) = faults (disk w)) as Hfl.
    { apply splitLoop_faults in Hs. simpl in Hs. rewrite Hs.
      pose proof (MkdirAll_faults (next_path s w) (disk w)) as Hmf.
      by rewrite Hm in Hmf. }
    pose proof (RemoveAll_result (next_path s w) (disk w1)) as Hres.
    rewrite Hfl in Hres. specialize (Hres Hrm).
    destruct (os_RemoveAll (next_path s w) (disk w1)) as [r d'] eqn:Hr.
    simpl in *. subst r. by apply RemoveAll_gone in Hr.
Qed.

(** The turns of the chunk loop while the reader hands over payloads and
    the system writes their files: none of them returns, and each leaves
    its payload in the next chunk file. *)
Lemma splitTurns_hands_over {R} `{Reader R} (ds : list bytes) :
  ∀ ctx mp (st : SplitState R),
    cancel_at ctx = None →
    hands_over (reader st) ds →
    (∀ j, j < length ds →
          write_fault (faults (disk (world st)))
            (filepath_Join mp (chunk_name (chunkIndex st + j))) = false ∧
          filepath_Join mp (chunk_name (chunkIndex st + j)) ∉ dirs (disk (world st))) →
    ∃ st',
      splitTurns (length ds) ctx mp st = Some st' ∧
      reader st' = after_reads (length ds) (reader st) ∧
      chunkIndex st' = chunkIndex st + length ds ∧
      files (disk (world st'))
      = put_chunks mp (chunkIndex st) ds (files (disk (world st))) ∧
      dirs (disk (world st')) = dirs (disk (world st)) ∧
      faults (disk (world st')) = faults (disk (world st)).
Proof.
  induction ds as [|data ds IH]; intros ctx mp st Hctx Hh Hw.
  - exists st. simpl. split_and!; (done || lia).
  - simpl in Hh. destruct Hh as [Hread Hh].
    destruct (Hw 0) as [Hwf Hnd]; [simpl; lia |].
    rewrite Nat.add_0_r in Hwf, Hnd.
    simpl. unfold splitBody, ctx_Done. rewrite Hctx.
    destruct (Read (reader st) ChunkSize) as [[data' e] rd'] eqn:HR.
    simpl in Hread, Hh. injection Hread as -> ->.
    simpl. unfold storeChunk, os_WriteFile. simpl. rewrite Hwf.
    destruct (decide _) as [Hin | _]; [done |].
    match goal with
    | |- context [splitTurns _ ctx mp ?s1] =>
        destruct (IH ctx mp s1) as (st' & Ht & Hrd & Hi & Hfiles & Hdirs & Hfl)
    end; simpl; try done.
    { intros j Hj. rewrite <- Nat.add_succ_r. apply Hw. simpl. lia. }
    exists st'. simpl in *. split_and!; (done || lia).
Qed.

Lemma splitLoop_after_turns {R} `{Reader R} k :
  ∀ fuel ctx mp (st st' : SplitState R),
    splitTurns k ctx mp st = Some st' →
    splitLoop (k + fuel) ctx mp st = splitLoop fuel ctx mp st'.
Proof.
  induction k as [|k IH]; intros fuel ctx mp st st' Ht; simpl in *.
  - by injection Ht as <-.
  - destruct (splitBody ctx mp st) as [st1|]; [| done]. by apply IH.
Qed.

(** The turn on which [Read] fails returns the error of the reader. *)
Lemma splitBody_read_error {R} `{Reader R} ctx mp (st : SplitState R) data e :
  cancel_at ctx = None →
  (Read (reader st) ChunkSize).1 = (data, Some e) →
  is_EOF e = false →
  splitBody ctx mp st = Return (Err e, world st, (Read (reader st) ChunkSize).2).
Proof.
  intros Hctx Hread He. unfold splitBody, ctx_Done. rewrite Hctx.
  destruct (Read (reader st) ChunkSize) as [[data' e'] rd'].
  simpl in Hread. injection Hread as -> ->. by rewrite He.
Qed.

(** The turn on which [os.WriteFile] fails returns its error. *)
Lemma splitBody_write_error {R} `{Reader R} ctx mp (st : SplitState R) data e :
  cancel_at ctx = None →
  (Read (reader st) ChunkSize).1 = (data, None) →
  (os_WriteFile (filepath_Join mp (chunk_name (chunkIndex st))) data
     (disk (world st))).1 = Some e →
  ∃ w2,
    splitBody ctx mp st = Return (Err e, w2, (Read (reader st) ChunkSize).2).
Proof.
  intros Hctx Hread Hwf. unfold splitBody, ctx_Done. rewrite Hctx.
  destruct (Read (reader st) ChunkSize) as [[data' e'] rd'].
  simpl in Hread. injection Hread as -> ->.
  simpl. unfold storeChunk. simpl.
  destruct (os_WriteFile _ data _) as [[e'|] d']; simpl in Hwf; [| done].
  injection Hwf as ->. by eexists.
Qed.

(** The chunk loop of [StoreModel] up to the turn that will fail: the
    directory is made and [length ds] turns carry their payloads out. *)
Lemma StoreModel_reaches_turn {R} `{Reader R} ctx (rd : R) s w (ds : list bytes) :
  cancel_at ctx = None →
  mkdir_fault (faults (disk w)) (next_path s w) = false →
  files (disk w) !! next_path s w = None →
  hands_over rd ds →
  (∀ j, j < length ds →
        write_fault (faults (disk w))
          (filepath_Join (next_path s w) (chunk_name j)) = false ∧
        filepath_Join (next_path s w) (chunk_name j) ∉ dirs (disk w)) →
  ∃ d0 st,
    os_MkdirAll (next_path s w) (disk w) = (None, d0) ∧
    splitTurns (length ds) ctx (next_path s w)
      (start rd (with_disk (generateUUID w).2 d0)) = Some st ∧
    reader st = after_reads (length ds) rd ∧
    chunkIndex st = length ds ∧
    dirs (disk (world st)) = {[next_path s w]} ∪ dirs (disk w) ∧
    faults (disk (world st)) = faults (disk w).
Proof.
  intros Hctx Hmk Hfree Hh Hw.
  assert (os_MkdirAll (next_path s w) (disk w)
          = (None, {| files := files (disk w);
                      dirs := {[next_path s w]} ∪ dirs (disk w);
                      faults := faults (disk w) |})) as Hm.
  { unfold os_MkdirAll. rewrite Hmk.
    destruct (decide _) as [[D HD] | _]; [congruence | done]. }
  destruct (splitTurns_hands_over ds ctx (next_path s w)
              (start rd (with_disk (generateUUID w).2
                 {| files := files (disk w);
                    dirs := {[next_path s w]} ∪ dirs (disk w);
                    faults := faults (disk w) |})))
    as (st & Ht & Hrd & Hi & _ & Hdirs & Hfl); [done | done | |].
  { intros j Hj. simpl. destruct (Hw j Hj) as [Hwf Hnd]. split; [done |].
    intros [Heq%elem_of_singleton | Hin]%elem_of_union; [| done].
    by apply Join_not_base in Heq. }
  eexists _, st. split_and!; [exact Hm | exact Ht | done | done | done | done].
Qed.

(** C4. [StoreModel] under a context that is not cancelled, once the
    object's directory is made and while the reader hands over the
    payloads [ds] and the system writes their chunk files. If the next
    [Read] fails with an error other than [io.EOF], [StoreModel] returns
    that error; if the next [Read] brings a payload and its chunk file
    cannot be written (the system refuses it, or a directory sits at its
    path), [StoreModel] returns the error of [os.WriteFile]. Each time it
    returns no metadata, the catalog it leaves is the very one it was
    given, and whenever the system carries the removal out the object's
    directory and every chunk written so far are gone. *)
Theorem StoreModel_failure_is_clean {R} `{Reader R}
    fuel ctx name format (rd : R) s w (ds : list bytes) :
  let dir := next_path s w in
  let chunk_file i := filepath_Join dir (chunk_name i) in
  let rd_k := after_reads (length ds) rd in
  cancel_at ctx = None →
  mkdir_fault (faults (disk w)) dir = false →
  files (disk w) !! dir = None →
  hands_over rd ds →
  (∀ j, j < length ds →
        write_fault (faults (disk w)) (chunk_file j) = false ∧
        chunk_file j ∉ dirs (disk w)) →
  length ds < fuel →
  (∀ data e,
     (Read rd_k ChunkSize).1 = (data, Some e) →
     is_EOF e = false →
     ∃ w',
       StoreModel fuel ctx name format rd s w
       = Some (Err e, s, w', (Read rd_k ChunkSize).2) ∧
       (remove_fault (faults (disk w)) dir = false → dir_gone dir (disk w'))) ∧
  (∀ data,
     (Read rd_k ChunkSize).1 = (data, None) →
     write_fault (faults (disk w)) (chunk_file (length ds)) = true ∨
     chunk_file (length ds) ∈ dirs (disk w) →
     ∃ w',
       StoreModel fuel ctx name format rd s w
       = Some (Err (PathError "open" (chunk_file (length ds))
                      (if write_fault (faults (disk w)) (chunk_file (length ds))
                       then EIO else EISDIR)),
               s, w', (Read rd_k ChunkSize).2) ∧
       (remove_fault (faults (disk w)) dir = false → dir_gone dir (disk w'))).
Proof.
  intros dir chunk_file rd_k. subst dir chunk_file rd_k. cbv beta.
  intros Hctx Hmk Hfree Hh Hw Hfuel.
  destruct (StoreModel_reaches_turn ctx rd s w ds Hctx Hmk Hfree Hh Hw)
    as (d0 & st & Hm & Ht & Hrd & Hi & Hdirs & Hfl).
  assert (∀ r, splitBody ctx (next_path s w) st = Return r →
               splitAndStoreChunks fuel ctx (next_path s w) rd
                 (with_disk (generateUUID w).2 d0)
               = Some r) as Hloop.
  { intros r Hb. unfold splitAndStoreChunks.
    replace fuel with (length ds + S (fuel - S (length ds))) by lia.
    rewrite (splitLoop_after_turns _ _ _ _ _ _ Ht). cbn [splitLoop]. by rewrite Hb. }
  rewrite <- Hrd. split.
  - intros data e Hread He.
    pose proof (splitBody_read_error ctx (next_path s w) st data e Hctx Hread He) as Hb.
    destruct (StoreModel_loop_error fuel ctx name format rd s w d0 e _ _ Hm
                (Hloop _ Hb)) as (w' & HS & _ & Hgone).
    by exists w'.
  - intros data Hread Hrefused.
    destruct (splitBody_write_error ctx (next_path s w) st data
                (PathError "open" (filepath_Join (next_path s w) (chunk_name (length ds)))
                   (if write_fault (faults (disk w))
                         (filepath_Join (next_path s w) (chunk_name (length ds)))
                    then EIO else EISDIR)) Hctx Hread)
      as (w2 & Hb).
    { rewrite Hi. unfold os_WriteFile. rewrite Hfl, Hdirs.
      destruct (write_fault _ _); [done |].
      destruct Hrefused as [? | Hdir]; [done |].
      destruct (decide _) as [_ | Hn]; [done |].
      destruct Hn. apply elem_of_union. by right. }
    destruct (StoreModel_loop_error fuel ctx name format rd s w d0 _ _ _ Hm
                (Hloop _ Hb)) as (w' & HS & _ & Hgone).
    by exists w'.
Qed.

(** ** Cancellation *)

Lemma ctx_Done_before ctx c k : cancel_at ctx = Some c → k < c → ctx_Done ctx k = false.
Proof. unfold ctx_Done. intros -> ?. apply Nat.leb_gt. lia. Qed.

Lemma ctx_Done_from ctx c k : cancel_at ctx = Some c → c ≤ k → ctx_Done ctx k = true.
Proof. unfold ctx_Done. intros -> ?. apply Nat.leb_le. lia. Qed.

(** The poll comes first: a turn that finds the context done reads nothing,
    writes nothing, and returns the context's error. *)
Lemma splitBody_cancelled {R} `{Reader R} ctx mp (st : SplitState R) :
  ctx_Done ctx (chunkIndex st) = true →
  splitBody ctx mp st = Return (Err (ctx_Err ctx), world st, reader st).
Proof. unfold splitBody. by intros ->. Qed.

(** A turn that finds the context open does not depend on it. *)
Lemma splitBody_open {R} `{Reader R} ctx mp (st : SplitState R) :
  ctx_Done ctx (chunkIndex st) = false →
  splitBody ctx mp st = splitBody context_Background mp st.
Proof. unfold splitBody. by intros ->. Qed.

Lemma splitBody_index {R} `{Reader R} ctx mp (st st' : SplitState R) :
  splitBody ctx mp st = Continue st' → chunkIndex st' = S (chunkIndex st).
Proof.
  unfold splitBody. destruct (ctx_Done _ _); [done |].
  destruct (Read _ _) as [[data [e|]] rd']; [by destruct (is_EOF e) |].
  simpl. destruct (storeChunk _ _ _) as [[e|] w2]; [done |].
  by intros [= <-].
Qed.

Lemma splitTurns_index {R} `{Reader R} k ctx mp (st st' : SplitState R) :
  splitTurns k ctx mp st = Some st' → chunkIndex st' = chunkIndex st + k.
Proof.
  revert st. induction k as [|k IH]; intros st; simpl.
  - intros [= <-]. lia.
  - destruct (splitBody ctx mp st) as [st1|] eqn:Hb; [| done].
    intros Ht. rewrite (IH _ Ht), (splitBody_index _ _ _ _ Hb). lia.
Qed.

Lemma splitLoop_cancelled_after {R} `{Reader R} k :
  ∀ fuel ctx c mp (st st_k : SplitState R),
    cancel_at ctx = Some c →
    chunkIndex st + k = c →
    k < fuel →
    splitTurns k context_Background mp st = Some st_k →
    splitLoop fuel ctx mp st = Some (Err (ctx_Err ctx), world st_k, reader st_k).
Proof.
  induction k as [|k IH]; intros fuel ctx c mp st st_k Hc Hi Hfuel Ht;
    (destruct fuel as [|fuel]; [lia |]); simpl in *.
  - injection Ht as <-.
    rewrite splitBody_cancelled; [done |]. apply (ctx_Done_from _ c); [done | lia].
  - rewrite splitBody_open by (apply (ctx_Done_before _ c); [done | lia]).
    destruct (splitBody context_Background mp st) as [st1|] eqn:Hb; [| done].
    apply (IH _ _ c); [done | | lia | done].
    rewrite (splitBody_index _ _ _ _ Hb). lia.
Qed.

Lemma streamLoop_cancelled_after {W} `{Writer W} k :
  ∀ n ctx c mp i d (wr wr_k : W),
    cancel_at ctx = Some c →
    i + k = c →
    k < n →
    streamLoop k context_Background mp i d wr = (None, wr_k) →
    streamLoop n ctx mp i d wr = (Some (ctx_Err ctx), wr_k).
Proof.
  induction k as [|k IH]; intros n ctx c mp i d wr wr_k Hc Hi Hn Hk;
    (destruct n as [|n]; [lia |]); simpl in *.
  - injection Hk as <-.
    rewrite (ctx_Done_from _ c); [done | done | lia].
  - rewrite (ctx_Done_before _ c) by (done || lia).
    destruct (os_ReadFile _ d) as [data | e]; [| done].
    destruct (Write wr data) as [[e|] wr1]; [done |].
    apply (IH _ _ c); [done | lia | lia | done].
Qed.

(** C8. [StoreModel] and [StreamModel] poll the context at the top of every
    turn of their chunk loop, before the read and the write of that turn.
    With a context that is found done at its [c]-th poll, and [c] turns
    that run as they would under a context never cancelled: [StoreModel]
    returns the context's error and no metadata, with the catalog untouched,
    the reader where those [c] reads left it, and the disk as the cleanup
    leaves the state those [c] turns produced; [StreamModel] returns the
    context's error with exactly what those [c] turns wrote in the
    writer. *)
Theorem cancellation_is_polled_first :
  (∀ (R : Type) (HR : Reader R) fuel ctx c name format (rd : R) s w d0 st_c,
     cancel_at ctx = Some c →
     c < fuel →
     os_MkdirAll (next_path s w) (disk w) = (None, d0) →
     splitTurns c context_Background (next_path s w)
       (start rd (with_disk (generateUUID w).2 d0)) = Some st_c →
     chunkIndex st_c = c ∧
     StoreModel fuel ctx name format rd s w
     = Some (Err (ctx_Err ctx), s,
             with_disk (world st_c)
               (os_RemoveAll (next_path s w) (disk (world st_c))).2,
             reader st_c)) ∧
  (∀ (W : Type) (HW : Writer W) ctx c s id md (wr wr_c : W) w,
     cancel_at ctx = Some c →
     metadata s !! id = Some md →
     c < length (Chunks md) →
     streamLoop c context_Background (filepath_Join (basePath s) id) 0 (disk w) wr
     = (None, wr_c) →
     StreamModel ctx s id wr w = (Some (ctx_Err ctx), wr_c)).
Proof.
  split.
  - intros R HR fuel ctx c name format rd s w d0 st_c Hc Hfuel Hm Ht.
    split; [by rewrite (splitTurns_index _ _ _ _ _ Ht) |].
    apply (StoreModel_split_fails _ _ _ _ _ _ _ d0); [done |].
    unfold splitAndStoreChunks. by apply (splitLoop_cancelled_after c _ _ c).
  - intros W HW ctx c s id md wr wr_c w Hc Hmd Hlen Hk.
    unfold StreamModel, getMetadata. rewrite Hmd.
    by apply (streamLoop_cancelled_after c _ _ c).
Qed.

End facts.
End Storage.

(* ===================================================================== *)
(** * Chunked object storage: storing and streaming back                 *)
(* ===================================================================== *)

Module RoundTrip.
Import Go core DiskFacts Storage.

Lemma takeN_take {A} (n : N) (l : list A) : takeN n l = take (N.to_nat n) l.
Proof.
  revert n. induction l as [|x l IH]; intros n; simpl.
  - by destruct (N.to_nat n).
  - destruct (N.eqb_spec n 0) as [-> | Hn]; [done |].
    rewrite IH. replace (N.to_nat n) with (S (N.to_nat (N.pred n))) by lia. done.
Qed.

Lemma dropN_drop {A} (n : N) (l : list A) : dropN n l = drop (N.to_nat n) l.
Proof.
  revert n. induction l as [|x l IH]; intros n; simpl.
  - by destruct (N.to_nat n).
  - destruct (N.eqb_spec n 0) as [-> | Hn]; [done |].
    rewrite IH. replace (N.to_nat n) with (S (N.to_nat (N.pred n))) by lia. done.
Qed.

Lemma wrap64_small (z : Z) : (- 2 ^ 63 ≤ z < 2 ^ 63)%Z → wrap64 z = z.
Proof. intros Hz. unfold wrap64. rewrite Z.mod_small; lia. Qed.

Lemma len_app {A} (l k : list A) : len (l ++ k) = (len l + len k)%Z.
Proof. unfold len. rewrite length_app. lia. Qed.

Lemma len_nonneg {A} (l : list A) : (0 ≤ len l)%Z.
Proof. unfold len. lia. Qed.

(** ** The chunk files after the loop *)

Lemma put_chunks_below mp i ds m j :
  j < i →
  put_chunks mp i ds m !! filepath_Join mp (chunk_name j)
  = m !! filepath_Join mp (chunk_name j).
Proof.
  revert i m. induction ds as [|data ds IH]; intros i m Hj; simpl; [done |].
  rewrite IH by lia. apply lookup_insert_ne.
  intros Heq%chunk_path_inj. lia.
Qed.

Lemma put_chunks_lookup mp i ds m j data :
  ds !! j = Some data →
  put_chunks mp i ds m !! filepath_Join mp (chunk_name (i + j)) = Some data.
Proof.
  revert i m j. induction ds as [|d ds IH]; intros i m j Hj; [done |].
  destruct j as [|j]; simpl in *.
  - injection Hj as ->. rewrite Nat.add_0_r, put_chunks_below by lia.
    apply lookup_insert_eq.
  - replace (i + S j) with (S i + j) by lia. by apply IH.
Qed.

(** With a reader that delivers [ds] and a disk that takes the writes, the
    loop returns at [io.EOF], having written one chunk file per payload
    that came with a nil error; what came with [io.EOF] is not written. *)
Lemma splitLoop_delivers {R} `{Reader R} (ds : list bytes) (tail : bytes) :
  ∀ fuel ctx mp (st : SplitState R),
    cancel_at ctx = None →
    delivers (reader st) ds tail →
    (∀ p, write_fault (faults (disk (world st))) p = false) →
    (∀ i, filepath_Join mp (chunk_name i) ∉ dirs (disk (world st))) →
    (0 ≤ totalSize st)%Z →
    (totalSize st + len (concat ds) < 2 ^ 63)%Z →
    length ds < fuel →
    ∃ ids w' rd',
      splitLoop fuel ctx mp st
      = Some (Ok (chunks st ++ ids, (totalSize st + len (concat ds))%Z), w', rd') ∧
      length ids = length ds ∧
      files (disk w') = put_chunks mp (chunkIndex st) ds (files (disk (world st))) ∧
      dirs (disk w') = dirs (disk (world st)) ∧
      faults (disk w') = faults (disk (world st)).
Proof.
  induction ds as [|data ds IH]; intros fuel ctx mp st Hctx Hdel Hwf Hnd H0 Hsz Hfuel;
    (destruct fuel as [|fuel]; [simpl in Hfuel; lia |]); simpl in Hdel.
  - exists [], (world st), (Read (reader st) ChunkSize).2.
    simpl. unfold splitBody, ctx_Done. rewrite Hctx.
    destruct (Read (reader st) ChunkSize) as [[data e] rd']. simpl in Hdel.
    injection Hdel as _ ->. simpl.
    rewrite app_nil_r, Z.add_0_r. done.
  - destruct Hdel as [Hread Hdel].
    simpl. unfold splitBody, ctx_Done. rewrite Hctx.
    destruct (Read (reader st) ChunkSize) as [[data' e] rd'] eqn:HR.
    simpl in Hread, Hdel. injection Hread as -> ->.
    simpl. unfold storeChunk, os_WriteFile. simpl. rewrite Hwf.
    destruct (decide _) as [Hin | _]; [by destruct (Hnd (chunkIndex st)) |].
    simpl in Hsz. rewrite len_app in Hsz.
    pose proof (len_nonneg data) as Hd0. pose proof (len_nonneg (concat ds)) as Hc0.
    assert (add64 (totalSize st) (len data) = (totalSize st + len data)%Z) as Hadd.
    { unfold add64. rewrite wrap64_small; lia. }
    simpl in Hfuel.
    match goal with
    | |- context [splitLoop fuel ctx mp ?s] =>
        destruct (IH fuel ctx mp s)
          as (ids & w' & rd'' & Hloop & Hlen & Hfiles & Hdirs & Hfl)
    end; simpl; try done; try (rewrite Hadd; lia); try lia.
    rewrite Hloop. simpl in *.
    eexists (_ :: ids), w', rd''. split_and!; try done.
    + rewrite <- app_assoc, Hadd, len_app, Z.add_assoc. reflexivity.
    + simpl. by rewrite Hlen.
Qed.

(** With the chunk files in place and readable, the loop of [StreamModel]
    appends them to the buffer in index order. *)
Lemma streamLoop_reads_back (ds : list bytes) :
  ∀ ctx mp i d out,
    cancel_at ctx = None →
    (∀ p, read_fault (faults d) p = false) →
    (∀ j data, ds !! j = Some data →
               files d !! filepath_Join mp (chunk_name (i + j)) = Some data) →
    streamLoop (length ds) ctx mp i d {| written := out |}
    = (None, {| written := out ++ concat ds |}).
Proof.
  induction ds as [|data ds IH]; intros ctx mp i d out Hctx Hrf Hfiles; simpl.
  - by rewrite app_nil_r.
  - unfold ctx_Done. rewrite Hctx. unfold os_ReadFile. rewrite Hrf.
    pose proof (Hfiles 0 data eq_refl) as H0. rewrite Nat.add_0_r in H0. rewrite H0.
    unfold Write, Buffer_Write. simpl.
    rewrite IH; [by rewrite <- app_assoc | done | done |].
    intros j dj Hj. replace (S i + j) with (i + S j) by lia. by apply Hfiles.
Qed.

Section store_then_stream.
Context (sha256_Sum : bytes → bytes).

(** With a disk that carries out every call, [StoreModel] succeeds with one
    chunk per payload read with a nil error and records their total size,
    and [StreamModel] of the new identifier writes those payloads back, byte
    for byte and in order. That is the whole stream exactly when nothing
    came with [io.EOF] ([tail = []]). *)
Lemma store_then_stream {R} `{Reader R} (rd : R) (ds : list bytes) (tail : bytes)
    fuel name format s w :
  delivers rd ds tail →
  (∀ p, mkdir_fault (faults (disk w)) p = false) →
  (∀ p, write_fault (faults (disk w)) p = false) →
  (∀ p, read_fault (faults (disk w)) p = false) →
  files (disk w) !! next_path s w = None →
  (∀ i, filepath_Join (next_path s w) (chunk_name i) ∉ dirs (disk w)) →
  (len (concat ds) < 2 ^ 63)%Z →
  length ds < fuel →
  ∃ md s' w' rd',
    StoreModel sha256_Sum fuel context_Background name format rd s w
    = Some (Ok md, s', w', rd') ∧
    ID md = next_id w ∧
    length (Chunks md) = length ds ∧
    Size md = len (concat ds) ∧
    (∀ j data, ds !! j = Some data →
       files (disk w') !! filepath_Join (next_path s w) (chunk_name j) = Some data) ∧
    (∀ out, StreamModel context_Background s' (ID md) {| written := out |} w'
            = (None, {| written := out ++ concat ds |})).
Proof.
  intros Hdel Hmk Hwf Hrf Hfile Hnd Hsz Hfuel.
  set (mp := next_path s w) in *.
  assert (os_MkdirAll mp (disk w)
          = (None, {| files := files (disk w); dirs := {[mp]} ∪ dirs (disk w);
                      faults := faults (disk w) |})) as Hm.
  { unfold os_MkdirAll. rewrite Hmk.
    destruct (decide _) as [[x Hx] | _]; [congruence | done]. }
  destruct (splitLoop_delivers ds tail fuel context_Background mp
              (start rd (with_disk (generateUUID w).2
                 {| files := files (disk w); dirs := {[mp]} ∪ dirs (disk w);
                    faults := faults (disk w) |})))
    as (ids & w' & rd' & Hloop & Hlen & Hfiles & Hdirs & Hfl); simpl; try done.
  { intros i [Heq%elem_of_singleton | Hin]%elem_of_union.
    - by apply Join_not_base in Heq.
    - by apply (Hnd i). }
  simpl in *.
  pose proof (StoreModel_split_ok sha256_Sum fuel context_Background name format
                rd s w _ _ _ _ _ Hm Hloop) as HS.
  simpl in HS. eexists _, _, w', rd'. split; [exact HS |]. simpl.
  assert (∀ j data, ds !! j = Some data →
            files (disk w') !! filepath_Join mp (chunk_name j) = Some data) as Hback.
  { intros j data Hj. rewrite Hfiles. by apply (put_chunks_lookup mp 0). }
  split_and!; try done.
  intros out. unfold StreamModel, getMetadata. simpl. rewrite lookup_insert_eq. simpl.
  rewrite Hlen. apply streamLoop_reads_back; [done | by rewrite Hfl | done].
Qed.

End store_then_stream.

(** What [StreamModel] writes back is the stream read exactly when no
    byte came with [io.EOF]. *)
Lemma exact_iff_EOF_alone (out : bytes) (ds : list bytes) (tail : bytes) :
  out ++ concat ds = out ++ (concat ds ++ tail) ↔ tail = [].
Proof.
  split.
  - intros Heq. apply app_inv_head in Heq.
    rewrite <- (app_nil_r (concat ds)) in Heq at 1. by apply app_inv_head in Heq.
  - intros ->. by rewrite app_nil_r.
Qed.

(** ** Readers seen through their reads *)

Lemma takeN_all {A} (n : N) (l : list A) : (len l ≤ Z.of_N n)%Z → takeN n l = l.
Proof. intros Hl. rewrite takeN_take. apply take_ge. unfold len in Hl. lia. Qed.

(** A reader whose reads return the payloads [ds], none longer than the
    buffer, and then [tail] with [io.EOF]. *)
Lemma ScriptReader_delivers (ds : list bytes) (tail : bytes) :
  Forall (λ d, (len d ≤ Z.of_N ChunkSize)%Z) (tail :: ds) →
  delivers {| script := ((λ d, (d, None)) <$> ds) ++ [(tail, Some io_EOF)] |} ds tail.
Proof.
  intros Hall. apply Forall_cons in Hall as [Ht Hall].
  induction Hall as [|d ds Hd Hall IH]; simpl.
  - unfold Read, ScriptReader_Read. simpl. by rewrite takeN_all.
  - rewrite takeN_all by done. split; [done |]. exact IH.
Qed.

(** ** Readers that fill the buffer: [bytes.Reader] *)

Lemma cut_nil fuel n : cut fuel n [] = [].
Proof. by destruct fuel. Qed.

Lemma length_dropN {A} (n : N) (l : list A) :
  length (dropN n l) = length l - N.to_nat n.
Proof. rewrite dropN_drop. apply length_drop. Qed.

Lemma length_takeN {A} (n : N) (l : list A) :
  length (takeN n l) = N.to_nat n `min` length l.
Proof. rewrite takeN_take. apply length_take. Qed.

Lemma cut_delivers fuel (l : bytes) :
  length l ≤ fuel → delivers {| unread := l |} (cut fuel ChunkSize l) [].
Proof.
  revert l. induction fuel as [|fuel IH]; intros l Hl.
  - destruct l; [done | simpl in Hl; lia].
  - destruct l as [|x l]; [done |].
    simpl. split; [done |]. apply IH.
    replace (if (ChunkSize =? 0)%N then x :: l else dropN (N.pred ChunkSize) l)
      with (dropN ChunkSize (x :: l)) by done.
    rewrite length_dropN. simpl in *. unfold ChunkSize. lia.
Qed.

(** A [bytes.Reader] over [S] delivers [S] in pieces of [ChunkSize] and
    reports [io.EOF] on a call of its own. *)
Lemma BytesReader_delivers (S : bytes) :
  delivers {| unread := S |} (pieces ChunkSize S) [].
Proof. by apply cut_delivers. Qed.

Lemma concat_cut fuel (n : N) (l : bytes) :
  (0 < n)%N → length l ≤ fuel → concat (cut fuel n l) = l.
Proof.
  intros Hn. revert l. induction fuel as [|fuel IH]; intros l Hl.
  - destruct l; [done | simpl in Hl; lia].
  - destruct l as [|x l]; [done |].
    change (cut (S fuel) n (x :: l))
      with (takeN n (x :: l) :: cut fuel n (dropN n (x :: l))).
    rewrite concat_cons, IH.
    + rewrite takeN_take, dropN_drop. apply take_drop.
    + rewrite length_dropN. simpl in *. lia.
Qed.

Lemma concat_pieces (n : N) (S : bytes) : (0 < n)%N → concat (pieces n S) = S.
Proof. intros Hn. by apply concat_cut. Qed.

(** The number of pieces is [ceil(len / n)]. *)
Lemma length_cut fuel (n : N) (l : bytes) :
  (0 < n)%N → length l ≤ fuel →
  Z.of_nat (length (cut fuel n l)) = ceil_div (len l) (Z.of_N n).
Proof.
  intros Hn. revert l. induction fuel as [|fuel IH]; intros l Hl.
  - destruct l; [| simpl in Hl; lia]. unfold ceil_div, len. simpl.
    rewrite Z.div_small; lia.
  - destruct l as [|x l].
    { unfold ceil_div, len. simpl. rewrite Z.div_small; lia. }
    change (cut (S fuel) n (x :: l))
      with (takeN n (x :: l) :: cut fuel n (dropN n (x :: l))).
    rewrite length_cons, Nat2Z.inj_succ, IH
      by (rewrite length_dropN; simpl in *; lia).
    unfold ceil_div, len. rewrite length_dropN.
    set (k := length (x :: l)) in *. assert (0 < k) by (subst k; simpl; lia).
    destruct (decide (k ≤ N.to_nat n)) as [Hle | Hgt].
    + replace (Z.of_nat (k - N.to_nat n)) with 0%Z by lia.
      rewrite Z.div_small by lia.
      change (Z.succ 0) with 1%Z.
      apply (Z.div_unique _ _ 1 (Z.of_nat k - 1)); lia.
    + replace (Z.of_nat k + Z.of_N n - 1)%Z
        with ((Z.of_nat (k - N.to_nat n) + Z.of_N n - 1) + 1 * Z.of_N n)%Z by lia.
      rewrite Z.div_add by lia. lia.
Qed.

Lemma length_pieces (n : N) (S : bytes) :
  (0 < n)%N → Z.of_nat (length (pieces n S)) = ceil_div (len S) (Z.of_N n).
Proof. intros Hn. by apply length_cut. Qed.

(** Piece [j] holds [n] bytes, or what is left of the slice if that is
    less: every piece is full but possibly the last. *)
Lemma len_cut fuel (n : N) (l : bytes) j c :
  (0 < n)%N → length l ≤ fuel →
  cut fuel n l !! j = Some c →
  len c = Z.min (Z.of_N n) (len l - Z.of_nat j * Z.of_N n).
Proof.
  intros Hn. revert l j. induction fuel as [|fuel IH]; intros l j Hl Hj; [done |].
  destruct l as [|x l]; [done |].
  change (cut (S fuel) n (x :: l))
    with (takeN n (x :: l) :: cut fuel n (dropN n (x :: l))) in Hj.
  destruct j as [|j].
  - assert (c = takeN n (x :: l)) as -> by (by injection Hj).
    unfold len. rewrite length_takeN. lia.
  - simpl in Hj.
    replace (if (n =? 0)%N then x :: l else dropN (N.pred n) l)
      with (dropN n (x :: l)) in Hj by done.
    destruct (decide (length (x :: l) ≤ N.to_nat n)) as [Hle | Hgt].
    + assert (dropN n (x :: l) = []) as Hnil.
      { apply length_zero_iff_nil. rewrite length_dropN. lia. }
      rewrite Hnil, cut_nil in Hj. done.
    + apply IH in Hj; [| rewrite length_dropN; simpl in *; lia].
      rewrite Hj. unfold len. rewrite length_dropN. lia.
Qed.

Lemma len_pieces (n : N) (S : bytes) j c :
  (0 < n)%N → pieces n S !! j = Some c →
  len c = Z.min (Z.of_N n) (len S - Z.of_nat j * Z.of_N n).
Proof. intros Hn. by apply len_cut. Qed.

Lemma length_cut_le fuel (n : N) (l : bytes) :
  (0 < n)%N → length (cut fuel n l) ≤ length l.
Proof.
  intros Hn. revert l. induction fuel as [|fuel IH]; intros l; [simpl; lia |].
  destruct l as [|x l]; [done |].
  change (cut (S fuel) n (x :: l))
    with (takeN n (x :: l) :: cut fuel n (dropN n (x :: l))).
  rewrite length_cons. specialize (IH (dropN n (x :: l))).
  rewrite length_dropN in IH. simpl in *. lia.
Qed.

(** A 12 MiB slice is cut into pieces of 5, 5 and 2 MiB. *)
Lemma pieces_12MiB (S : bytes) :
  len S = (12 * MiB)%Z →
  len <$> pieces ChunkSize S = [(5 * MiB)%Z; (5 * MiB)%Z; (2 * MiB)%Z].
Proof.
  intros HS.
  assert (0 < ChunkSize)%N as Hn by done.
  pose proof (length_pieces ChunkSize S Hn) as Hlen. rewrite HS in Hlen.
  change (ceil_div (12 * MiB) (Z.of_N ChunkSize)) with 3%Z in Hlen.
  destruct (pieces ChunkSize S) as [|c0 [|c1 [|c2 [|c3 r]]]] eqn:Hp;
    simpl in Hlen; try lia.
  pose proof (len_pieces ChunkSize S 0 c0 Hn) as H0.
  pose proof (len_pieces ChunkSize S 1 c1 Hn) as H1.
  pose proof (len_pieces ChunkSize S 2 c2 Hn) as H2.
  rewrite Hp, HS in H0, H1, H2.
  simpl. rewrite H0, H1, H2 by done. done.
Qed.

Section bytes_reader.
Context (sha256_Sum : bytes → bytes).

(** X2. Storing from a [bytes.Reader] (or [strings.Reader]) over [S], on a disk
    that carries out every call: the stream comes back exactly, the chunk
    list has [ceil(size / ChunkSize)] entries, and the size recorded is the
    length of [S], the sum of the chunk payloads. *)
Lemma BytesReader_store_then_stream (S : bytes) fuel name format s w :
  (∀ p, mkdir_fault (faults (disk w)) p = false) →
  (∀ p, write_fault (faults (disk w)) p = false) →
  (∀ p, read_fault (faults (disk w)) p = false) →
  files (disk w) !! next_path s w = None →
  (∀ i, filepath_Join (next_path s w) (chunk_name i) ∉ dirs (disk w)) →
  (len S < 2 ^ 63)%Z →
  length S < fuel →
  ∃ md s' w' rd',
    StoreModel sha256_Sum fuel context_Background name format {| unread := S |} s w
    = Some (Ok md, s', w', rd') ∧
    Z.of_nat (length (Chunks md)) = ceil_div (Size md) (Z.of_N ChunkSize) ∧
    Size md = len S ∧
    (∀ out, StreamModel context_Background s' (ID md) {| written := out |} w'
            = (None, {| written := out ++ S |})).
Proof.
  intros Hmk Hwf Hrf Hfile Hnd Hsz Hfuel.
  assert (0 < ChunkSize)%N as Hn by done.
  destruct (store_then_stream sha256_Sum {| unread := S |} (pieces ChunkSize S) []
              fuel name format s w)
    as (md & s' & w' & rd' & HS & Hid & Hlen & Hsize & _ & Hstream);
    try done.
  - apply BytesReader_delivers.
  - by rewrite concat_pieces.
  - pose proof (length_cut_le (length S) ChunkSize S Hn). unfold pieces. lia.
  - rewrite concat_pieces in Hsize, Hstream by done.
    exists md, s', w', rd'. split_and!; try done.
    by rewrite Hlen, Hsize, length_pieces.
Qed.

End bytes_reader.

(** ** Readers that do not fill the buffer, or bring data with [io.EOF] *)

Import Fixtures.

(** C1 fails on the code. [io.Reader] lets [Read] return the last bytes
    together with [io.EOF]; [splitAndStoreChunks] tests the error before it
    looks at the bytes and returns. Here the reader carries the three bytes
    [abc]: [StoreModel] succeeds with no chunk and size 0, nothing is on
    disk, and [StreamModel] of the new identifier writes nothing. *)
Theorem StoreModel_drops_data_read_with_EOF :
  carried_by (script data_with_EOF) = abc ∧
  ∃ md s' w' rd',
    StoreModel toy_sha 2 context_Background "m.glb" "glb" data_with_EOF storage0 world0
    = Some (Ok md, s', w', rd') ∧
    Chunks md = [] ∧ Size md = 0%Z ∧
    files (disk w') !! filepath_Join "/data/uuid-0" (chunk_name 0) = None ∧
    StreamModel context_Background s' (ID md) {| written := [] |} w'
    = (None, {| written := [] |}).
Proof.
  split; [done |]. eexists _, _, _, _. split; [vm_compute; reflexivity |].
  split_and!; try done.
Qed.

(** C2 fails on the code. [Read] may return fewer bytes than the buffer
    holds, and the loop makes one chunk of every [Read]. Here a two-byte
    stream arrives one byte per call: the metadata has two chunks and size
    2, where [ceil(2 / ChunkSize)] is 1, and each chunk file holds one
    byte, not the 5 MiB (or the whole rest) a size-driven cut gives. *)
Theorem StoreModel_one_chunk_per_Read :
  carried_by (script one_byte_reads) = ["a"; "b"]%byte ∧
  ∃ md s' w' rd',
    StoreModel toy_sha 3 context_Background "m.glb" "glb" one_byte_reads storage0 world0
    = Some (Ok md, s', w', rd') ∧
    length (Chunks md) = 2 ∧ Size md = 2%Z ∧
    ceil_div (Size md) (Z.of_N ChunkSize) = 1%Z ∧
    files (disk w') !! filepath_Join "/data/uuid-0" (chunk_name 0) = Some ["a"%byte] ∧
    files (disk w') !! filepath_Join "/data/uuid-0" (chunk_name 1) = Some ["b"%byte] ∧
    pieces ChunkSize ["a"; "b"]%byte = [["a"; "b"]%byte].
Proof.
  split; [done |]. eexists _, _, _, _. split; [vm_compute; reflexivity |].
  split_and!; try done.
Qed.

End RoundTrip.

(* ===================================================================== *)
(** * The overlay: backoff, bootstrap, the receive loop                  *)
(* ===================================================================== *)

Module Overlay.
Import Go p2p.

(** ** One turn of the backoff loop *)

Lemma backoffBody_Continue ctx pi st st' :
  backoffBody ctx pi st = Continue st' →
  (backoff st ≤ maxBackoff)%Z ∧
  backoff st' = mul64 (backoff st) 2 ∧
  link (net st') = link (net st) ∧
  dialled (net st') = dialled (net st) ++ [peer_ID pi] ∧
  slept (net st') = slept (net st) ++ [backoff st].
Proof.
  unfold backoffBody, poll, connectToPeer, host_Connect. simpl.
  destruct (ctx_Done _ _); [done |]. simpl.
  destruct (link _ _ _); [| done].
  destruct (Z.gtb_spec (backoff st) maxBackoff); [done |].
  intros [= <-]. simpl. split_and!; done || lia.
Qed.

Lemma backoffBody_Return ctx pi st r n' e' :
  backoffBody ctx pi st = Return (r, n', e') →
  link e' = link (net st) ∧
  (dialled e' = dialled (net st) ∨ dialled e' = dialled (net st) ++ [peer_ID pi]) ∧
  (cancel_at ctx = None → dialled e' = dialled (net st) ++ [peer_ID pi]).
Proof.
  unfold backoffBody, poll, connectToPeer, host_Connect, ctx_Done. simpl.
  destruct (cancel_at ctx) as [c|] eqn:Hc.
  - destruct (c <=? polls (net st)); simpl.
    { intros [= <- <- <-]. simpl. split_and!; [done | by left | done]. }
    destruct (link _ _ _).
    + destruct (_ >? _)%Z; [| done].
      intros [= <- <- <-]. simpl. split_and!; [done | by right | done].
    + intros [= <- <- <-]. simpl. split_and!; [done | by right | done].
  - simpl. destruct (link _ _ _).
    + destruct (_ >? _)%Z; [| done].
      intros [= <- <- <-]. simpl. split_and!; [done | by right | done].
    + intros [= <- <- <-]. simpl. split_and!; [done | by right | done].
Qed.

(** A turn whose dial fails, under a context that stays open: sleep,
    double and go round again, or give up once the delay is past the
    ceiling. *)
Lemma backoffLoop_fail_again fuel ctx pi st err :
  cancel_at ctx = None →
  link (net st) (peer_ID pi) (length (dialled (net st))) = Some err →
  (backoff st ≤ maxBackoff)%Z →
  backoffLoop (S fuel) ctx pi st =
  backoffLoop fuel ctx pi
    {| backoff := mul64 (backoff st) 2; network := network st;
       net := {| link := link (net st);
                 dialled := dialled (net st) ++ [peer_ID pi];
                 slept := slept (net st) ++ [backoff st];
                 polls := S (polls (net st)) |} |}.
Proof.
  intros Hc Hl Hle. simpl.
  unfold backoffBody, poll, connectToPeer, host_Connect, ctx_Done.
  rewrite Hc. simpl. rewrite Hl.
  destruct (Z.gtb_spec (backoff st) maxBackoff); [lia | done].
Qed.

Lemma backoffLoop_fail_last fuel ctx pi st err :
  cancel_at ctx = None →
  link (net st) (peer_ID pi) (length (dialled (net st))) = Some err →
  (backoff st > maxBackoff)%Z →
  backoffLoop (S fuel) ctx pi st =
  Some (Some (wrapf "max backoff reached" err), network st,
        {| link := link (net st);
           dialled := dialled (net st) ++ [peer_ID pi];
           slept := slept (net st);
           polls := S (polls (net st)) |}).
Proof.
  intros Hc Hl Hgt. simpl.
  unfold backoffBody, poll, connectToPeer, host_Connect, ctx_Done.
  rewrite Hc. simpl. rewrite Hl.
  destruct (Z.gtb_spec (backoff st) maxBackoff); [done | lia].
Qed.

(** ** The loop returns within seven turns *)

Lemma backoffLoop_terminates (m : nat) :
  ∀ (z : Z) st fuel ctx pi,
    (0 ≤ z ≤ 6)%Z → m = Z.to_nat (7 - z) →
    backoff st = (2 ^ z * time_Second)%Z →
    m ≤ fuel →
    ∃ r n' e',
      backoffLoop fuel ctx pi st = Some (r, n', e') ∧
      link e' = link (net st) ∧
      dialled (net st) `prefix_of` dialled e' ∧
      length (dialled e') ≤ length (dialled (net st)) + m ∧
      (cancel_at ctx = None → peer_ID pi ∈ dialled e').
Proof.
  induction m as [|m IH]; intros z st fuel ctx pi Hz Hm Hb Hfuel; [lia |].
  destruct fuel as [|fuel]; [lia |]. simpl.
  destruct (backoffBody ctx pi st) as [st' | [[r n'] e']] eqn:Hbody.
  - apply backoffBody_Continue in Hbody as (Hle & Hb' & Hlink & Hd & _).
    assert (z ≠ 6)%Z as Hz6.
    { intros ->. rewrite Hb in Hle. vm_compute in Hle. by apply Hle. }
    destruct (IH (z + 1)%Z st' fuel ctx pi) as (r & n' & e' & Hloop & Hl & Hp & Hlen & Hin);
      [lia | lia | | lia |].
    { rewrite Hb', Hb.
      assert (z = 0 ∨ z = 1 ∨ z = 2 ∨ z = 3 ∨ z = 4 ∨ z = 5)%Z
        as [-> | [-> | [-> | [-> | [-> | ->]]]]] by lia; reflexivity. }
    exists r, n', e'. rewrite Hd in Hp, Hlen. rewrite length_app in Hlen. simpl in Hlen.
    split_and!; [done | congruence | | lia | done].
    etrans; [| exact Hp]. by apply prefix_app_r.
  - apply backoffBody_Return in Hbody as (Hl & Hd & Hin).
    exists r, n', e'. split_and!; [done | done | | |].
    + destruct Hd as [-> | ->]; [done | by apply prefix_app_r].
    + destruct Hd as [-> | ->]; [lia | rewrite length_app; simpl; lia].
    + intros Hc. rewrite (Hin Hc). apply elem_of_app. right. by left.
Qed.

Lemma connectToPeerWithBackoff_terminates fuel ctx pi n e :
  7 ≤ fuel →
  ∃ r n' e',
    connectToPeerWithBackoff fuel ctx pi n e = Some (r, n', e') ∧
    link e' = link e ∧
    dialled e `prefix_of` dialled e' ∧
    length (dialled e') ≤ length (dialled e) + 7 ∧
    (cancel_at ctx = None → peer_ID pi ∈ dialled e').
Proof.
  intros Hfuel. unfold connectToPeerWithBackoff.
  by apply (backoffLoop_terminates 7 0).
Qed.

(** ** A peer that cannot be reached *)

Lemma backoff_unreachable fuel ctx pi n e (errs : nat → error) :
  cancel_at ctx = None →
  (∀ k, link e (peer_ID pi) k = Some (errs k)) →
  7 ≤ fuel →
  connectToPeerWithBackoff fuel ctx pi n e
  = Some (Some (wrapf "max backoff reached" (errs (length (dialled e) + 6))), n,
          {| link := link e;
             dialled := dialled e ++ replicate 7 (peer_ID pi);
             slept := slept e ++ [1 * time_Second; 2 * time_Second; 4 * time_Second;
                                  8 * time_Second; 16 * time_Second; 32 * time_Second]%Z;
             polls := polls e + 7 |}).
Proof.
  intros Hc Hl Hfuel.
  do 7 (destruct fuel as [|fuel]; [lia |]).
  unfold connectToPeerWithBackoff.
  do 6 (rewrite (backoffLoop_fail_again _ _ _ _ (errs _))
          by (done || (cbn; apply Hl) || (vm_compute; discriminate));
        cbn [backoff network net link dialled slept polls]).
  rewrite (backoffLoop_fail_last _ _ _ _ (errs _))
    by (done || (cbn; apply Hl) || (vm_compute; reflexivity)).
  cbn [backoff network net link dialled slept polls].
  rewrite <- !app_assoc, !length_app. simpl.
  rewrite (Nat.add_comm (polls e) 7). reflexivity.
Qed.

(** ** The bootstrap loop *)

Section bootstrap.
Context (multiaddr_NewMultiaddr : string → result string)
        (peer_AddrInfoFromP2pAddr : string → result AddrInfo).

Abbreviation bootstrapLoop :=
  (bootstrapLoop multiaddr_NewMultiaddr peer_AddrInfoFromP2pAddr).
Abbreviation connectToBootstrapPeers :=
  (connectToBootstrapPeers multiaddr_NewMultiaddr peer_AddrInfoFromP2pAddr).

Lemma bootstrapLoop_attempts_all fuel ctx (addrs : list string) :
  ∀ n e,
    7 ≤ fuel →
    ∃ n' e',
      bootstrapLoop fuel ctx addrs n e = Some (n', e') ∧
      link e' = link e ∧
      dialled e `prefix_of` dialled e' ∧
      (cancel_at ctx = None →
       ∀ addr maddr q,
         addr ∈ addrs →
         multiaddr_NewMultiaddr addr = Ok maddr →
         peer_AddrInfoFromP2pAddr maddr = Ok q →
         peer_ID q ∈ dialled e').
Proof.
  induction addrs as [|a addrs IH]; intros n e Hfuel.
  - exists n, e. split_and!; [done | done | done |].
    intros _ addr maddr q Hin. by apply elem_of_nil in Hin.
  - simpl.
    assert (∀ n1 e1,
      link e1 = link e → dialled e `prefix_of` dialled e1 →
      (cancel_at ctx = None →
       ∀ maddr q, multiaddr_NewMultiaddr a = Ok maddr →
                  peer_AddrInfoFromP2pAddr maddr = Ok q → peer_ID q ∈ dialled e1) →
      ∃ n' e',
        bootstrapLoop fuel ctx addrs n1 e1 = Some (n', e') ∧
        link e' = link e ∧ dialled e `prefix_of` dialled e' ∧
        (cancel_at ctx = None →
         ∀ addr maddr q, addr ∈ a :: addrs →
           multiaddr_NewMultiaddr addr = Ok maddr →
           peer_AddrInfoFromP2pAddr maddr = Ok q → peer_ID q ∈ dialled e')) as Hrest.
    { intros n1 e1 Hl1 Hp1 Ha.
      destruct (IH n1 e1 Hfuel) as (n' & e' & Hloop & Hl & Hp & Hall).
      exists n', e'. split_and!; [done | congruence | by etrans |].
      intros Hc addr maddr q [-> | Hin]%elem_of_cons Hma Hq.
      - destruct Hp as [k ->]. apply elem_of_app. left. by eapply Ha.
      - by eapply Hall. }
    destruct (multiaddr_NewMultiaddr a) as [maddr|] eqn:Hma.
    2: { apply Hrest; [done | done |]. intros _ maddr q [=]. }
    destruct (peer_AddrInfoFromP2pAddr maddr) as [q|] eqn:Hq.
    2: { apply Hrest; [done | done |]. intros _ maddr' q [= <-]. congruence. }
    destruct (connectToPeerWithBackoff_terminates fuel ctx q n e Hfuel)
      as (r & n1 & e1 & Hcall & Hl1 & Hp1 & _ & Hdial).
    rewrite Hcall.
    assert (∃ n' e', bootstrapLoop fuel ctx addrs n1 e1 = Some (n', e') ∧
      link e' = link e ∧ dialled e `prefix_of` dialled e' ∧
      (cancel_at ctx = None →
       ∀ addr maddr q, addr ∈ a :: addrs →
         multiaddr_NewMultiaddr addr = Ok maddr →
         peer_AddrInfoFromP2pAddr maddr = Ok q → peer_ID q ∈ dialled e')) as Hgoal.
    { apply Hrest; [done | done |].
      intros Hc maddr' q' [= <-] Hq'. rewrite Hq in Hq'. injection Hq' as <-. auto. }
    by destruct r.
Qed.

End bootstrap.

(** C6. (1) When every dial of a peer fails and the context stays open,
    [connectToPeerWithBackoff] dials seven times, sleeps 1, 2, 4, 8, 16 and
    32 seconds in between, and, the delay having reached 64 seconds, past
    the one-minute ceiling, returns "max backoff reached" around the last
    dial's error. (2) Whatever the peer and the context do, the call
    returns within seven dials. (3) [connectToBootstrapPeers] always
    returns nil, and under a context that stays open every bootstrap
    address that parses has its peer dialled, whatever became of the peers
    before it. *)
Theorem backoff_gives_up_and_bootstrap_goes_on :
  (∀ fuel ctx pi n e (errs : nat → error),
     cancel_at ctx = None →
     (∀ k, link e (peer_ID pi) k = Some (errs k)) →
     7 ≤ fuel →
     connectToPeerWithBackoff fuel ctx pi n e
     = Some (Some (wrapf "max backoff reached" (errs (length (dialled e) + 6))), n,
             {| link := link e;
                dialled := dialled e ++ replicate 7 (peer_ID pi);
                slept := slept e ++ [1 * time_Second; 2 * time_Second; 4 * time_Second;
                                     8 * time_Second; 16 * time_Second; 32 * time_Second]%Z;
                polls := polls e + 7 |})) ∧
  (∀ fuel ctx pi n e,
     7 ≤ fuel →
     ∃ r n' e',
       connectToPeerWithBackoff fuel ctx pi n e = Some (r, n', e') ∧
       length (dialled e') ≤ length (dialled e) + 7) ∧
  (∀ (NewMultiaddr : string → result string)
     (AddrInfoFromP2pAddr : string → result AddrInfo) fuel ctx n e,
     7 ≤ fuel →
     ∃ n' e',
       connectToBootstrapPeers NewMultiaddr AddrInfoFromP2pAddr fuel ctx n e
       = Some (None, n', e') ∧
       (cancel_at ctx = None →
        ∀ addr maddr q,
          addr ∈ BootstrapPeers (cfg n) →
          NewMultiaddr addr = Ok maddr →
          AddrInfoFromP2pAddr maddr = Ok q →
          peer_ID q ∈ dialled e')).
Proof.
  split_and!.
  - intros. by apply backoff_unreachable.
  - intros fuel ctx pi n e Hfuel.
    destruct (connectToPeerWithBackoff_terminates fuel ctx pi n e Hfuel)
      as (r & n' & e' & Hcall & _ & _ & Hlen & _).
    by exists r, n', e'.
  - intros NewMa FromMa fuel ctx n e Hfuel.
    destruct (bootstrapLoop_attempts_all NewMa FromMa fuel ctx
                (BootstrapPeers (cfg n)) n e Hfuel)
      as (n' & e' & Hloop & _ & _ & Hall).
    exists n', e'. unfold p2p.connectToBootstrapPeers. by rewrite Hloop.
Qed.

(** ** The receive loop *)

Lemma handleMessages_spec ctx n (sub : list NextResult) :
  ∀ k spawned0,
    ∃ pulled rest spawned status,
      handleMessages ctx n k sub spawned0 = (spawned, rest, status) ∧
      sub = pulled ++ rest ∧
      spawned = spawned0 ++ filter (λ m, ReceivedFrom m ≠ host_ID n) (delivered pulled) ∧
      (cancel_at ctx = None → pulled = sub ∧ status = Waiting).
Proof.
  induction sub as [|r sub IH]; intros k spawned0.
  - exists [], [], spawned0, Waiting. simpl. by rewrite app_nil_r.
  - destruct r as [msg | err]; simpl.
    + destruct (decide (ReceivedFrom msg = host_ID n)) as [Heq | Hne].
      * destruct (IH (S k) spawned0)
          as (pulled & rest & spawned & status & Hrun & Hsub & Hsp & Hc).
        exists (Next_msg msg :: pulled), rest, spawned, status.
        split_and!; [done | by rewrite Hsub | |].
        -- unfold delivered. simpl.
           rewrite filter_cons_False by (intros Hne; by apply Hne). done.
        -- intros Hn. destruct (Hc Hn) as [-> ->]. done.
      * destruct (IH (S k) (spawned0 ++ [msg]))
          as (pulled & rest & spawned & status & Hrun & Hsub & Hsp & Hc).
        exists (Next_msg msg :: pulled), rest, spawned, status.
        split_and!; [done | by rewrite Hsub | |].
        -- unfold delivered. simpl. rewrite filter_cons_True by done.
           by rewrite Hsp, <- app_assoc.
        -- intros Hn. destruct (Hc Hn) as [-> ->]. done.
    + destruct (ctx_Done ctx k) eqn:Hd.
      * exists [Next_err err], sub, spawned0, Returned.
        split_and!; [done | done | by rewrite app_nil_r |].
        intros Hn. unfold ctx_Done in Hd. by rewrite Hn in Hd.
      * destruct (IH (S k) spawned0)
          as (pulled & rest & spawned & status & Hrun & Hsub & Hsp & Hc).
        exists (Next_err err :: pulled), rest, spawned, status.
        split_and!; [done | by rewrite Hsub | done |].
        intros Hn. destruct (Hc Hn) as [-> ->]. done.
Qed.

(** C7. Of the messages the subscription hands to the receive loop, the
    loop starts a handler for exactly those whose [ReceivedFrom] is not the
    node's own identity, in the order received: none for a message from
    the node itself, one for every other. Under a context that is never
    cancelled the loop pulls everything the subscription delivers. *)
Theorem own_messages_are_skipped ctx n (sub : list NextResult) :
  ∃ pulled rest spawned status,
    handleMessages ctx n 0 sub [] = (spawned, rest, status) ∧
    sub = pulled ++ rest ∧
    spawned = filter (λ m, ReceivedFrom m ≠ host_ID n) (delivered pulled) ∧
    (∀ m, m ∈ delivered pulled → ReceivedFrom m = host_ID n → m ∉ spawned) ∧
    (∀ m, m ∈ delivered pulled → ReceivedFrom m ≠ host_ID n → m ∈ spawned) ∧
    (cancel_at ctx = None → pulled = sub ∧ status = Waiting).
Proof.
  destruct (handleMessages_spec ctx n sub 0 [])
    as (pulled & rest & spawned & status & Hrun & Hsub & Hsp & Hc).
  exists pulled, rest, spawned, status. simpl in Hsp.
  split_and!; [done | done | done | | | done].
  - intros m _ Heq. rewrite Hsp. intros [Hne _]%list_elem_of_filter. by apply Hne.
  - intros m Hin Hne. rewrite Hsp. apply list_elem_of_filter. done.
Qed.

End Overlay.

(* ===================================================================== *)
(** * The statements above at concrete inputs                            *)
(* ===================================================================== *)

Module Runs.
Import Go Fixtures.

(** [StoreBlock] twice on an empty store. *)
Lemma StoreBlock_idempotent_run :
  ∃ d1,
    blocks.StoreBlock toy_sha store0 abc blocks_disk = (Ok "616263", d1) ∧
    blocks.StoreBlock toy_sha store0 abc d1 = (Ok "616263", d1) ∧
    blocks.StoreBlock toy_sha store0 abc (with_faults d1 no_writes)
    = (Ok "616263", with_faults d1 no_writes) ∧
    files d1 !! "/blocks/616263" = Some abc ∧
    (∀ q, files d1 !! q = Some abc ↔ q = "/blocks/616263") ∧
    blocks.store_inv toy_sha store0 d1.
Proof.
  destruct (BlockStore.StoreBlock_idempotent toy_sha store0 abc blocks_disk)
    as (d1 & H1 & H2 & H3 & Hfile & _ & Hone & Hinv).
  - reflexivity.
  - reflexivity.
  - by vm_compute.
  - intros D H. simpl in H. rewrite lookup_empty in H. discriminate.
  - exists d1. split_and!; [exact H1 | exact H2 | | exact Hfile | |].
    + apply (H3 no_writes). reflexivity.
    + apply Hone. intros q _ H. simpl in H. rewrite lookup_empty in H. discriminate.
    + apply Hinv. intros h D _ H. simpl in H. rewrite lookup_empty in H. discriminate.
Defined.

(** [GetBlock] on a file whose content does not digest to its name. *)
Lemma GetBlock_trusts_the_path_run :
  blocks.calculateHash toy_sha abc ≠ "00" ∧
  blocks.GetBlock store0 "00" forged_disk
  = Ok {| blocks.Hash := "00"; blocks.Size := 3; blocks.Data := abc |} ∧
  ∃ b, blocks.GetBlock store0 "00" forged_disk = Ok b ∧ blocks.Hash b = "00" ∧
       blocks.calculateHash toy_sha (blocks.Data b) ≠ blocks.Hash b.
Proof.
  assert (blocks.calculateHash toy_sha abc ≠ "00") as Hne by discriminate.
  destruct (BlockStore.GetBlock_trusts_the_path toy_sha store0 "00" forged_disk abc)
    as [H1 H2]; [reflexivity | reflexivity |].
  split; [exact Hne |]. split; [exact H1 | exact (H2 Hne)].
Defined.

(** Two stores under the same identifier, name and format, one of three
    bytes in one chunk, one of two bytes in two chunks. *)
Lemma Hash_is_of_id_name_format_run :
  ∃ md1 md2 s1 s2 w1 w2 r1 r2,
    core.StoreModel toy_sha 3 context_Background "m.glb" "glb"
      {| unread := abc |} storage0 world0 = Some (Ok md1, s1, w1, r1) ∧
    core.StoreModel toy_sha 3 context_Background "m.glb" "glb"
      one_byte_reads storage0 world0 = Some (Ok md2, s2, w2, r2) ∧
    core.Size md1 ≠ core.Size md2 ∧
    core.Hash md1 = core.Hash md2.
Proof.
  eexists _, _, _, _, _, _, _, _.
  split; [vm_compute; reflexivity |]. split; [vm_compute; reflexivity |].
  split; [discriminate |].
  eapply (proj2 (Storage.Hash_is_of_id_name_format toy_sha)
            BytesReader ScriptReader _ _ 3 3 context_Background context_Background
            "m.glb" "glb" {| unread := abc |} one_byte_reads
            storage0 storage0 world0 world0);
    vm_compute; reflexivity.
Defined.

(** Deleting the model stored in [storage1], and an identifier that was
    never stored. *)
Lemma DeleteModel_is_final_run :
  (∃ s' w',
     core.DeleteModel storage1 "uuid-0" world1 = (None, s', w') ∧
     core.GetModel s' "uuid-0" = Err (core.NotFound "uuid-0") ∧
     dir_gone "/data/uuid-0" (disk w')) ∧
  core.DeleteModel storage0 "uuid-9" world0
  = (Some (core.NotFound "uuid-9"), storage0, world0).
Proof.
  split.
  - assert (∃ s' w', core.DeleteModel storage1 "uuid-0" world1 = (None, s', w'))
      as (s' & w' & HD) by (eexists _, _; vm_compute; reflexivity).
    exists s', w'. split; [exact HD |].
    destruct (proj1 (Storage.DeleteModel_is_final storage1 "uuid-0" world1) s' w' HD)
      as (HG & _ & Hgone).
    split; [exact HG | exact Hgone].
  - apply (proj2 (Storage.DeleteModel_is_final storage0 "uuid-9" world0)).
    vm_compute. reflexivity.
Defined.

(** A store whose reader fails on its second read, after one chunk was
    written. *)
Lemma StoreModel_failure_is_clean_run :
  (∃ w',
     core.StoreModel toy_sha 3 context_Background "m.glb" "glb"
       failing_reader storage0 world_data
     = Some (Err (ReadError "connection reset"), storage0, w', {| script := [] |}) ∧
     dir_gone "/data/uuid-0" (disk w')) ∧
  (∃ w',
     core.StoreModel toy_sha 3 context_Background "n.glb" "glb"
       one_byte_reads storage0 world_chunk1_refused
     = Some (Err (PathError "open" "/data/uuid-0/chunk_1" EIO), storage0, w',
             {| script := [] |}) ∧
     dir_gone "/data/uuid-0" (disk w')).
Proof.
  split.
  - destruct (Storage.StoreModel_failure_is_clean toy_sha 3 context_Background
                "m.glb" "glb" failing_reader storage0 world_data [abc])
      as [Hread _].
    + reflexivity.
    + reflexivity.
    + reflexivity.
    + split; [reflexivity | exact I].
    + intros j Hj. simpl in Hj. assert (j = 0) as -> by lia.
      split; [reflexivity | by vm_compute].
    + simpl. lia.
    + destruct (Hread [] (ReadError "connection reset")) as (w' & HS & Hgone);
        [reflexivity | reflexivity |].
      exists w'. split; [exact HS | apply Hgone; reflexivity].
  - destruct (Storage.StoreModel_failure_is_clean toy_sha 3 context_Background
                "n.glb" "glb" one_byte_reads storage0 world_chunk1_refused
                [["a"%byte]])
      as [_ Hwrite].
    + reflexivity.
    + reflexivity.
    + reflexivity.
    + split; [reflexivity | exact I].
    + intros j Hj. simpl in Hj. assert (j = 0) as -> by lia.
      split; [reflexivity | by vm_compute].
    + simpl. lia.
    + destruct (Hwrite ["b"%byte]) as (w' & HS & Hgone);
        [reflexivity | left; reflexivity |].
      exists w'. split; [exact HS | apply Hgone; reflexivity].
Defined.

(** A store and a stream under a context cancelled at its second poll:
    one chunk goes through, the second is never touched. *)
Lemma cancellation_is_polled_first_run :
  (∃ st_c : core.SplitState ScriptReader,
     core.StoreModel toy_sha 3 (cancelled_at 1) "m.glb" "glb"
       one_byte_reads storage0 world0
     = Some (Err context_Canceled, storage0,
             with_disk (core.world st_c)
               (os_RemoveAll "/data/uuid-0" (disk (core.world st_c))).2,
             {| script := [(["b"%byte], None)] |}) ∧
     core.chunkIndex st_c = 1) ∧
  (∃ md s' w' r,
     core.StoreModel toy_sha 3 context_Background "m.glb" "glb"
       one_byte_reads storage0 world0 = Some (Ok md, s', w', r) ∧
     core.StreamModel (cancelled_at 1) s' (core.ID md) {| written := [] |} w'
     = (Some context_Canceled, {| written := ["a"%byte] |})).
Proof.
  destruct (Storage.cancellation_is_polled_first toy_sha) as [Hstore Hstream].
  split.
  - edestruct (Hstore ScriptReader _ 3 (cancelled_at 1) 1 "m.glb" "glb"
                 one_byte_reads storage0 world0) as [Hidx HS];
      [reflexivity | lia | vm_compute; reflexivity | vm_compute; reflexivity |].
    eexists. split; [exact HS | exact Hidx].
  - eexists _, _, _, _. split; [vm_compute; reflexivity |].
    eapply (Hstream Buffer _ (cancelled_at 1) 1);
      [reflexivity | vm_compute; reflexivity | vm_compute; lia | vm_compute; reflexivity].
Defined.

(** A peer that never answers, and a bootstrap list whose first peer never
    answers, whose second entry does not parse, and whose third answers. *)
Lemma backoff_gives_up_and_bootstrap_goes_on_run :
  p2p.connectToPeerWithBackoff 7 context_Background peerA node0 nobody_up
  = Some (Some (wrapf "max backoff reached" refused), node0,
          {| p2p.link := p2p.link nobody_up;
             p2p.dialled := replicate 7 "peerA";
             p2p.slept := [1000000000; 2000000000; 4000000000; 8000000000;
                           16000000000; 32000000000]%Z;
             p2p.polls := 7 |}) ∧
  ∃ n' e',
    p2p.connectToBootstrapPeers parse_multiaddr parse_addrinfo 7
      context_Background node0 only_B_up = Some (None, n', e') ∧
    "peerA" ∈ p2p.dialled e' ∧ "peerB" ∈ p2p.dialled e'.
Proof.
  destruct Overlay.backoff_gives_up_and_bootstrap_goes_on as (H1 & _ & H3).
  split.
  - apply (H1 7 context_Background peerA node0 nobody_up (λ _, refused));
      [reflexivity | reflexivity | lia].
  - destruct (H3 parse_multiaddr parse_addrinfo 7 context_Background node0 only_B_up)
      as (n' & e' & Hrun & Hall); [lia |].
    exists n', e'. split; [exact Hrun |]. split.
    + apply (Hall eq_refl "peerA" "peerA" peerA); [| reflexivity | reflexivity].
      simpl. apply elem_of_cons. by left.
    + apply (Hall eq_refl "peerB" "peerB" peerB); [| reflexivity | reflexivity].
      simpl. do 2 (apply elem_of_cons; right). apply elem_of_cons. by left.
Defined.

(** Storing [abc] from a [bytes.Reader] and streaming it back. *)
Lemma BytesReader_store_then_stream_run :
  ∃ md s' w' rd',
    core.StoreModel toy_sha 4 context_Background "m.glb" "glb"
      {| unread := abc |} storage0 world0 = Some (Ok md, s', w', rd') ∧
    Z.of_nat (length (core.Chunks md))
    = core.ceil_div (core.Size md) (Z.of_N core.ChunkSize) ∧
    core.Size md = 3%Z ∧
    ∀ out, core.StreamModel context_Background s' (core.ID md) {| written := out |} w'
           = (None, {| written := out ++ abc |}).
Proof.
  apply (RoundTrip.BytesReader_store_then_stream toy_sha abc 4 "m.glb" "glb"
           storage0 world0).
  - reflexivity.
  - reflexivity.
  - reflexivity.
  - reflexivity.
  - intros i Hin. simpl in Hin. by apply not_elem_of_empty in Hin.
  - reflexivity.
  - simpl. lia.
Defined.

(** The cleanup of a failed store is best effort: when the system refuses
    the removal, [StoreModel] still returns the read error and leaves the
    catalog alone, and the directory stays with the chunk already
    written. *)
Lemma cleanup_is_best_effort :
  ∃ w',
    core.StoreModel toy_sha 3 context_Background "m.glb" "glb"
      failing_reader storage0 world_no_remove
    = Some (Err (ReadError "connection reset"), storage0, w', {| script := [] |}) ∧
    "/data/uuid-0" ∈ dirs (disk w') ∧
    files (disk w') !! "/data/uuid-0/chunk_0" = Some abc.
Proof.
  eexists. split; [vm_compute; reflexivity |].
  split; vm_compute; reflexivity.
Qed.

(** [StreamModel] into a writer that breaks after one write tells which
    chunk it could not write. *)
Lemma StreamModel_names_the_chunk :
  ∃ md s' w' r,
    core.StoreModel toy_sha 3 context_Background "m.glb" "glb"
      one_byte_reads storage0 world0 = Some (Ok md, s', w', r) ∧
    core.StreamModel context_Background s' (core.ID md)
      {| accepted := []; budget := 1 |} w'
    = (Some (wrapf "failed to write chunk 1" (WriteError "broken pipe")),
       {| accepted := ["a"%byte]; budget := 0 |}).
Proof.
  eexists _, _, _, _. split; vm_compute; reflexivity.
Qed.

End Runs.

(* ===================================================================== *)
(** * Chunked object storage: more of the catalog and the disk           *)
(* ===================================================================== *)

Module StorageMore.
Import Go core DiskFacts Storage RoundTrip Fixtures.

Lemma ready_world0 : ready_for_store storage0 world0.
Proof.
  unfold ready_for_store. simpl. split_and!; done.
Qed.

Lemma carried_by_script (ds : list bytes) (tail : bytes) :
  carried_by (((λ d, (d, None)) <$> ds) ++ [(tail, Some io_EOF)]) = concat ds ++ tail.
Proof.
  induction ds as [|d ds IH]; [done |].
  rewrite fmap_cons, <- app_comm_cons. cbn [carried_by].
  rewrite IH. simpl concat. by rewrite app_assoc.
Qed.

Section more.
Context (sha256_Sum : bytes → bytes).

Abbreviation StoreModel := (StoreModel sha256_Sum).

(** X1. For a reader seen through its reads (payloads [ds] with a nil
    error, then [tail] together with [io.EOF], none longer than the
    buffer) and a disk that carries out every call: [StoreModel] succeeds
    with one chunk per payload of [ds] and the size of [concat ds], and
    [StreamModel] of the new identifier writes [concat ds]. The reader
    carried [concat ds ++ tail]: the stream comes back whole exactly when
    [tail] is empty. *)
Theorem stored_is_what_came_before_EOF (ds : list bytes) (tail : bytes)
    fuel name format s w :
  Forall (λ d, (len d ≤ Z.of_N ChunkSize)%Z) (tail :: ds) →
  ready_for_store s w →
  (len (concat ds) < 2 ^ 63)%Z →
  length ds < fuel →
  let rd := {| script := ((λ d, (d, None)) <$> ds) ++ [(tail, Some io_EOF)] |} in
  carried_by (script rd) = concat ds ++ tail ∧
  ∃ md s' w' rd',
    StoreModel fuel context_Background name format rd s w = Some (Ok md, s', w', rd') ∧
    length (Chunks md) = length ds ∧
    Size md = len (concat ds) ∧
    (∀ out, StreamModel context_Background s' (ID md) {| written := out |} w'
            = (None, {| written := out ++ concat ds |})) ∧
    (concat ds = concat ds ++ tail ↔ tail = []).
Proof.
  intros Hall (Hmk & Hwf & Hrf & Hfile & Hnd) Hsz Hfuel rd.
  split; [apply carried_by_script |].
  destruct (store_then_stream sha256_Sum rd ds tail fuel name format s w)
    as (md & s' & w' & rd' & HS & _ & Hlen & Hsize & _ & Hstream); try done.
  { by apply ScriptReader_delivers. }
  exists md, s', w', rd'. split_and!; try done.
  pose proof (exact_iff_EOF_alone [] ds tail) as Hex. by simpl in Hex.
Qed.

End more.

Lemma stored_is_what_came_before_EOF_run :
  ∃ md s' w' rd',
    core.StoreModel toy_sha 3 context_Background "m.glb" "glb"
      {| script := [(["a"%byte], None); (["b"%byte], None);
                    (["c"%byte], Some io_EOF)] |} storage0 world0
    = Some (Ok md, s', w', rd') ∧
    length (Chunks md) = 2 ∧
    ∀ out, StreamModel context_Background s' (ID md) {| written := out |} w'
           = (None, {| written := out ++ ["a"; "b"]%byte |}).
Proof.
  destruct (stored_is_what_came_before_EOF toy_sha
              [["a"%byte]; ["b"%byte]] ["c"%byte] 3 "m.glb" "glb" storage0 world0)
    as (_ & md & s' & w' & rd' & HS & Hlen & _ & Hstream & _).
  - repeat constructor; by vm_compute.
  - exact ready_world0.
  - by vm_compute.
  - simpl. lia.
  - exists md, s', w', rd'. split; [exact HS |]. split; [exact Hlen | exact Hstream].
Defined.

Section chunks.
Context (sha256_Sum : bytes → bytes).

Abbreviation StoreModel := (StoreModel sha256_Sum).

(** X3. Storing a slice [S] from a [bytes.Reader] on a disk that carries
    out every call leaves, for every index [j] of the chunk list, a chunk
    file [chunk_j] that is not empty and holds [ChunkSize] bytes, or what is
    left of [S] after [j] full chunks if that is less: every chunk is
    5 MiB but possibly the last. *)
Theorem BytesReader_chunk_files (S : bytes) fuel name format s w :
  ready_for_store s w →
  (len S < 2 ^ 63)%Z →
  length S < fuel →
  ∃ md s' w' rd',
    StoreModel fuel context_Background name format {| unread := S |} s w
    = Some (Ok md, s', w', rd') ∧
    ∀ j, j < length (Chunks md) →
      ∃ c, files (disk w') !! filepath_Join (next_path s w) (chunk_name j) = Some c ∧
           len c = Z.min (Z.of_N ChunkSize) (len S - Z.of_nat j * Z.of_N ChunkSize) ∧
           (0 < len c ≤ Z.of_N ChunkSize)%Z.
Proof.
  intros (Hmk & Hwf & Hrf & Hfile & Hnd) Hsz Hfuel.
  assert (0 < ChunkSize)%N as Hn by done.
  destruct (store_then_stream sha256_Sum {| unread := S |} (pieces ChunkSize S) []
              fuel name format s w)
    as (md & s' & w' & rd' & HS & _ & Hlen & _ & Hfiles & _); try done.
  - apply BytesReader_delivers.
  - by rewrite concat_pieces.
  - pose proof (length_cut_le (length S) ChunkSize S Hn). unfold pieces. lia.
  - exists md, s', w', rd'. split; [exact HS |]. intros j Hj.
    rewrite Hlen in Hj.
    destruct (lookup_lt_is_Some_2 (pieces ChunkSize S) j Hj) as [c Hc].
    exists c. split; [by apply Hfiles |].
    pose proof (len_pieces ChunkSize S j c Hn Hc) as Hlc.
    split; [exact Hlc |].
    pose proof (length_pieces ChunkSize S Hn) as Hcount. unfold ceil_div in Hcount.
    set (n := Z.of_N ChunkSize) in *. assert (0 < n)%Z by (subst n; lia).
    assert (Z.of_nat j + 1 ≤ (len S + n - 1) `div` n)%Z as Hj' by lia.
    pose proof (Z.mul_div_le (len S + n - 1) n ltac:(lia)) as Hdiv.
    nia.
Qed.

(** ** What a store leaves alone *)

Lemma splitBody_outside {R} `{Reader R} ctx mp (st : SplitState R) q :
  below mp q = false →
  match splitBody ctx mp st with
  | Continue st' =>
      files (disk (world st')) !! q = files (disk (world st)) !! q ∧
      dirs (disk (world st')) = dirs (disk (world st))
  | Return (_, w, _) =>
      files (disk w) !! q = files (disk (world st)) !! q ∧
      dirs (disk w) = dirs (disk (world st))
  end.
Proof.
  intros Hq. unfold splitBody. destruct (ctx_Done _ _); [done |].
  destruct (Read _ _) as [[data [e|]] rd']; [by destruct (is_EOF e) |].
  simpl. unfold storeChunk, os_WriteFile. simpl.
  destruct (write_fault _ _); [done |].
  destruct (decide _); [done |]. simpl. split; [| done].
  apply lookup_insert_ne. intros <-. by rewrite below_Join in Hq.
Qed.

Lemma splitLoop_outside {R} `{Reader R} fuel ctx mp (st : SplitState R) q res w rd :
  below mp q = false →
  splitLoop fuel ctx mp st = Some (res, w, rd) →
  files (disk w) !! q = files (disk (world st)) !! q ∧
  dirs (disk w) = dirs (disk (world st)).
Proof.
  intros Hq. revert st. induction fuel as [|fuel IH]; intros st; simpl; [done |].
  pose proof (splitBody_outside ctx mp st q Hq) as Hb.
  destruct (splitBody ctx mp st) as [st' | [[res' w''] rd'']].
  - intros Hl. destruct (IH _ Hl) as [-> ->]. done.
  - intros [= <- <- <-]. done.
Qed.

Lemma RemoveAll_outside (p q : string) (d : Disk) :
  q ≠ p → below p q = false →
  files (os_RemoveAll p d).2 !! q = files d !! q ∧
  (q ∈ dirs (os_RemoveAll p d).2 ↔ q ∈ dirs d).
Proof.
  intros Hne Hq. unfold os_RemoveAll. destruct (remove_fault _ _); [done |].
  simpl. split.
  - destruct (files d !! q) as [x|] eqn:Hx.
    + by apply map_lookup_filter_Some.
    + apply map_lookup_filter_None. by left.
  - rewrite elem_of_filter. tauto.
Qed.

(** X4. In a storage whose directory exists, as [NewStorage] leaves it,
    and with an identifier that is one path element, as a UUID is: whatever
    [StoreModel] returns, it touches nothing outside the directory of the
    identifier it drew: every path that is neither that directory nor
    below it holds the same file, or none, as before, and is a directory
    exactly if it was one. *)
Theorem StoreModel_keeps_to_its_directory {R} `{Reader R}
    fuel ctx name format (rd : R) s w r s' w' rd' (q : string) :
  basePath s ∈ dirs (disk w) →
  path_element (next_id w) = true →
  StoreModel fuel ctx name format rd s w = Some (r, s', w', rd') →
  q ≠ next_path s w →
  below (next_path s w) q = false →
  files (disk w') !! q = files (disk w) !! q ∧
  (q ∈ dirs (disk w') ↔ q ∈ dirs (disk w)).
Proof.
  intros _ _ HS Hne Hq.
  destruct (os_MkdirAll (next_path s w) (disk w)) as [[e0|] d0] eqn:Hm.
  { rewrite (StoreModel_mkdir_fails _ _ _ _ _ _ _ _ _ _ Hm) in HS.
    injection HS as _ _ <- _. simpl.
    unfold os_MkdirAll in Hm. destruct (mkdir_fault _ _); [by injection Hm as _ <- |].
    destruct (decide _); [by injection Hm as _ <- | done]. }
  assert (files d0 = files (disk w) ∧ dirs d0 = {[next_path s w]} ∪ dirs (disk w))
    as [Hf0 Hd0].
  { unfold os_MkdirAll in Hm. destruct (mkdir_fault _ _); [done |].
    destruct (decide _); [done |]. by injection Hm as <-. }
  assert (q ∈ dirs d0 ↔ q ∈ dirs (disk w)) as Hq0.
  { rewrite Hd0, elem_of_union, elem_of_singleton. tauto. }
  destruct (splitAndStoreChunks fuel ctx (next_path s w) rd
              (with_disk (generateUUID w).2 d0)) as [[[res w1] rd1]|] eqn:Hs.
  2: { unfold core.StoreModel in HS. simpl in HS, Hs. rewrite Hm, Hs in HS. done. }
  pose proof (splitLoop_outside _ _ _ _ q _ _ _ Hq Hs) as [Hf1 Hd1]. simpl in Hf1, Hd1.
  destruct res as [[cs size] | e1].
  - rewrite (StoreModel_split_ok _ _ _ _ _ _ _ _ _ _ _ _ _ Hm Hs) in HS.
    injection HS as _ _ <- _. rewrite Hf1, Hd1, Hf0. done.
  - rewrite (StoreModel_split_fails _ _ _ _ _ _ _ _ _ _ _ _ Hm Hs) in HS.
    injection HS as _ _ <- _. simpl.
    destruct (RemoveAll_outside (next_path s w) q (disk w1) Hne Hq) as [-> ->].
    rewrite Hf1, Hd1, Hf0. done.
Qed.

End chunks.

Lemma BytesReader_chunk_files_run :
  ∃ md s' w' rd',
    core.StoreModel toy_sha 4 context_Background "m.glb" "glb"
      {| unread := abc |} storage0 world0 = Some (Ok md, s', w', rd') ∧
    ∀ j, j < length (Chunks md) →
      ∃ c, files (disk w') !! filepath_Join "/data/uuid-0" (chunk_name j) = Some c ∧
           len c = Z.min (Z.of_N ChunkSize) (len abc - Z.of_nat j * Z.of_N ChunkSize) ∧
           (0 < len c ≤ Z.of_N ChunkSize)%Z.
Proof.
  apply (BytesReader_chunk_files toy_sha abc 4 "m.glb" "glb" storage0 world0).
  - exact ready_world0.
  - by vm_compute.
  - simpl. lia.
Defined.

(** A second store on the state the first one left: the first model's
    chunk is still where it was. *)
Lemma StoreModel_keeps_to_its_directory_run :
  ∃ r s' w' rd',
    core.StoreModel toy_sha 3 context_Background "n.glb" "glb"
      one_byte_reads storage1_in_data world1_in_data = Some (r, s', w', rd') ∧
    files (disk w') !! "/data/uuid-0/chunk_0" = Some abc ∧
    ("/data" ∈ dirs (disk w') ↔ "/data" ∈ dirs (disk world1_in_data)).
Proof.
  assert (∃ r s' w' rd',
            core.StoreModel toy_sha 3 context_Background "n.glb" "glb"
              one_byte_reads storage1_in_data world1_in_data = Some (r, s', w', rd'))
    as (r & s' & w' & rd' & HS) by (eexists _, _, _, _; vm_compute; reflexivity).
  assert (core.basePath storage1_in_data ∈ dirs (disk world1_in_data)) as Hbase
    by (by vm_compute).
  assert (path_element (uuid_src world1_in_data (uuid_ctr world1_in_data)) = true)
    as Hel by (vm_compute; reflexivity).
  exists r, s', w', rd'. split; [exact HS |]. split.
  - destruct (StoreModel_keeps_to_its_directory toy_sha _ _ _ _ _ _ _ _ _ _ _
                "/data/uuid-0/chunk_0" Hbase Hel HS) as [Hf _].
    + by vm_compute.
    + by vm_compute.
    + rewrite Hf. by vm_compute.
  - destruct (StoreModel_keeps_to_its_directory toy_sha _ _ _ _ _ _ _ _ _ _ _
                "/data" Hbase Hel HS) as [_ Hd].
    + by vm_compute.
    + by vm_compute.
    + exact Hd.
Defined.

(** ** The catalog seen through [ListModels] and [GetStatus] *)

Lemma ListModels_range (s : Storage) : ListModels s = range_metadata s.
Proof.
  unfold ListModels. generalize (range_metadata s). intros l.
  assert (∀ acc, foldl (λ models model, models ++ [model]) acc l = acc ++ l) as Hf.
  { induction l as [|x l IH]; intros acc; simpl; [by rewrite app_nil_r |].
    by rewrite IH, <- app_assoc. }
  apply Hf.
Qed.

Lemma wrap64_idemp_l (a b : Z) : wrap64 (wrap64 a + b) = wrap64 (a + b).
Proof.
  unfold wrap64. f_equal.
  replace ((a + 2 ^ 63) `mod` 2 ^ 64 - 2 ^ 63 + b + 2 ^ 63)%Z
    with ((a + 2 ^ 63) `mod` 2 ^ 64 + b)%Z by lia.
  rewrite Zplus_mod_idemp_l. f_equal. lia.
Qed.

Lemma sum_sizes_Permutation (l k : list ModelMetadata) :
  l ≡ₚ k → sum_sizes l = sum_sizes k.
Proof.
  induction 1 as [| x l k _ IH | x y l | l k m _ IH1 _ IH2]; simpl; lia.
Qed.

Lemma foldl_statusTurn (ms : list ModelMetadata) (st : StorageStatus) :
  let r := foldl statusTurn st ms in
  TotalModels r = TotalModels st ∧
  BasePath r = BasePath st ∧
  Models r = Models st ++
             ((λ m, {| sum_ID := ID m; sum_Name := Name m;
                       sum_Size := Size m; sum_CreatedAt := CreatedAt m |}) <$> ms) ∧
  wrap64 (TotalSize r) = wrap64 (TotalSize st + sum_sizes ms) ∧
  (TotalSize st = wrap64 (TotalSize st) → TotalSize r = wrap64 (TotalSize r)).
Proof.
  revert st. induction ms as [|m ms IH]; intros st; simpl.
  - split_and!; try done.
    + by rewrite app_nil_r.
    + by rewrite Z.add_0_r.
  - destruct (IH (statusTurn st m)) as (H1 & H2 & H3 & H4 & H5).
    split_and!; try done.
    + rewrite H3. simpl. by rewrite <- app_assoc.
    + rewrite H4. simpl. unfold add64. rewrite wrap64_idemp_l. f_equal. lia.
    + intros _. apply H5. simpl. unfold add64.
      rewrite <- (Z.add_0_r (wrap64 (TotalSize st + Size m))) at 2.
      by rewrite wrap64_idemp_l, Z.add_0_r.
Qed.

(** X6. [GetStatus], whatever the order in which [range] yields the
    catalog: [TotalModels] is the number of summaries in [Models], the
    summaries are those of the models in the order yielded, and
    [TotalSize] is the sum of the sizes of the models [ListModels] returns,
    wrapped to 64 bits; so it does not depend on the order, and it is the
    exact sum when no size is negative and the sum is below [2^63]. *)
Theorem GetStatus_totals (s : Storage) (ms : list ModelMetadata) :
  ms ≡ₚ range_metadata s →
  let st := GetStatusOver s ms in
  TotalModels st = Z.of_nat (length (Models st)) ∧
  Models st = (λ m, {| sum_ID := ID m; sum_Name := Name m;
                       sum_Size := Size m; sum_CreatedAt := CreatedAt m |}) <$> ms ∧
  BasePath st = basePath s ∧
  TotalSize st = wrap64 (sum_sizes (ListModels s)) ∧
  TotalSize st = TotalSize (GetStatus s) ∧
  (Forall (λ m, (0 ≤ Size m)%Z) ms → (sum_sizes ms < 2 ^ 63)%Z →
   TotalSize st = sum_sizes ms).
Proof.
  intros Hperm st.
  assert (∀ l, TotalSize (GetStatusOver s l) = wrap64 (sum_sizes l)) as Htot.
  { intros l. unfold GetStatusOver.
    destruct (foldl_statusTurn l
                {| TotalModels := Z.of_nat (size (metadata s)); TotalSize := 0;
                   BasePath := basePath s; Models := [] |}) as (_ & _ & _ & H4 & H5).
    rewrite H5 by done. by rewrite H4. }
  destruct (foldl_statusTurn ms
              {| TotalModels := Z.of_nat (size (metadata s)); TotalSize := 0;
                 BasePath := basePath s; Models := [] |}) as (H1 & H2 & H3 & _).
  fold (GetStatusOver s ms) in H1, H2, H3. fold st in H1, H2, H3. simpl in H1, H2, H3.
  split_and!.
  - rewrite H1, H3, length_fmap, Hperm. unfold range_metadata.
    by rewrite length_fmap, length_map_to_list.
  - done.
  - done.
  - unfold st. rewrite Htot, ListModels_range. f_equal. by apply sum_sizes_Permutation.
  - unfold st, GetStatus. rewrite !Htot. f_equal. by apply sum_sizes_Permutation.
  - intros Hpos Hsmall. unfold st. rewrite Htot. apply wrap64_small.
    split; [| done].
    assert (0 ≤ sum_sizes ms)%Z; [| lia].
    clear -Hpos. induction Hpos as [|m l Hm _ IH]; simpl; lia.
Qed.

Lemma below_empty (p : string) : below p "" = false.
Proof. unfold below. destruct p; [reflexivity |]. by rewrite append_cons. Qed.

Lemma Disk_eq (d d' : Disk) :
  files d = files d' → dirs d = dirs d' → faults d = faults d' → d = d'.
Proof. destruct d, d'. simpl. by intros -> -> ->. Qed.

Section catalog.
Context (sha256_Sum : bytes → bytes).

Abbreviation StoreModel := (StoreModel sha256_Sum).



(** X7. In a storage whose directory exists, as [NewStorage] leaves it: a
    successful [StoreModel] under an identifier that is new and one path
    element, as a UUID is, and whose directory did not exist, followed by
    [DeleteModel] of that identifier, with the system carrying the removal
    out: [DeleteModel] returns nil, the catalog is the one before the
    store, and so is the disk, with every file and directory of it. *)
Theorem StoreModel_then_DeleteModel {R} `{Reader R}
    fuel ctx name format (rd : R) s w md s' w' rd' :
  basePath s ∈ dirs (disk w) →
  path_element (next_id w) = true →
  StoreModel fuel ctx name format rd s w = Some (Ok md, s', w', rd') →
  metadata s !! ID md = None →
  dir_gone (next_path s w) (disk w) →
  remove_fault (faults (disk w)) (next_path s w) = false →
  ∃ w'',
    DeleteModel s' (ID md) w' = (None, s, w'') ∧
    disk w'' = disk w ∧
    GetModel s (ID md) = Err (NotFound (ID md)).
Proof.
  intros _ _ HS Hfresh (Hnd & Hnf & Hbelow) Hrm.
  apply StoreModel_Ok_inv in HS as (d0 & Hm & Hs & Hid & _ & _ & _ & ->).
  assert (files d0 = files (disk w) ∧ dirs d0 = {[next_path s w]} ∪ dirs (disk w) ∧
          faults d0 = faults (disk w)) as (Hf0 & Hd0 & Hfl0).
  { unfold os_MkdirAll in Hm. destruct (mkdir_fault _ _); [done |].
    destruct (decide _); [done |]. by injection Hm as <-. }
  pose proof (splitLoop_faults _ _ _ _ _ _ _ Hs) as Hfl. simpl in Hfl.
  unfold DeleteModel. simpl. rewrite lookup_insert_eq. rewrite Hid.
  unfold os_RemoveAll. rewrite Hfl, Hfl0, Hrm.
  eexists. split_and!.
  - f_equal. f_equal. destruct s as [bp m]. simpl in *. f_equal.
    rewrite <- Hid. by apply delete_insert_id.
  - simpl. apply Disk_eq; simpl.
    + apply map_eq. intros q.
      destruct (decide (q = next_path s w ∨ below (next_path s w) q = true)) as [Hin | Hout].
      * transitivity (@None bytes).
        -- apply map_lookup_filter_None. right. intros x _ [Hne Hb]. simpl in *.
           destruct Hin; congruence.
        -- destruct Hin as [-> | Hb]; [done |]. symmetry. by apply Hbelow.
      * assert (q ≠ next_path s w) as Hne by tauto.
        assert (below (next_path s w) q = false) as Hb.
        { destruct (below (next_path s w) q); tauto. }
        pose proof (splitLoop_outside _ _ _ _ q _ _ _ Hb Hs) as [Hf1 _].
        simpl in Hf1. rewrite Hf0 in Hf1. rewrite <- Hf1.
        destruct (files (disk w') !! q) as [x|] eqn:Hx.
        -- by apply map_lookup_filter_Some.
        -- apply map_lookup_filter_None. by left.
    + apply set_eq. intros q. rewrite elem_of_filter.
      assert (dirs (disk w') = {[next_path s w]} ∪ dirs (disk w)) as ->.
      { destruct (splitLoop_outside _ _ _ _ "" _ _ _
                    (below_empty (next_path s w)) Hs) as [_ Hd1].
        simpl in Hd1. by rewrite Hd1, Hd0. }
      rewrite elem_of_union, elem_of_singleton. split.
      * intros [[Hne Hb] [? | ?]]; done.
      * intros Hq. split; [| by right].
        split; [by intros -> |].
        destruct (below (next_path s w) q) eqn:Hb; [| done].
        by destruct (Hbelow q Hb).
    + done.
  - apply GetModel_NotFound_iff. by rewrite <- Hid.
Qed.

End catalog.

(** The loop of [StreamModel] up to a chunk that cannot be read. *)
Lemma streamLoop_stops (ds : list bytes) :
  ∀ n ctx mp i d out e,
    cancel_at ctx = None →
    length ds < n →
    (∀ j data, ds !! j = Some data →
               os_ReadFile (filepath_Join mp (chunk_name (i + j))) d = Ok data) →
    os_ReadFile (filepath_Join mp (chunk_name (i + length ds))) d = Err e →
    streamLoop n ctx mp i d {| written := out |}
    = (Some (wrapf ("failed to read chunk " +:+ pretty (i + length ds)) e),
       {| written := out ++ concat ds |}).
Proof.
  induction ds as [|data ds IH]; intros n ctx mp i d out e Hctx Hn Hok Herr;
    (destruct n as [|n]; [simpl in Hn; lia |]); simpl.
  - unfold ctx_Done. rewrite Hctx. rewrite Nat.add_0_r in *. rewrite Herr.
    by rewrite app_nil_r.
  - unfold ctx_Done. rewrite Hctx.
    pose proof (Hok 0 data eq_refl) as H0. rewrite Nat.add_0_r in H0. rewrite H0.
    change (Write {| written := out |} data)
      with (@None error, {| written := out ++ data |}). cbv iota beta.
    rewrite (IH n ctx mp (S i) d (out ++ data) e); [| done | simpl in Hn; lia | |].
    + replace (S i + length ds) with (i + S (length ds)) by lia.
      by rewrite <- app_assoc.
    + intros j dj Hj. replace (S i + j) with (i + S j) by lia. by apply Hok.
    + replace (S i + length ds) with (i + S (length ds)) by lia. exact Herr.
Qed.

(** X8. [StreamModel] is not all or nothing: when the chunk files
    [chunk_0 .. chunk_(k-1)] can be read and [chunk_k] cannot, the writer
    has received the first [k] chunks by the time the error comes back,
    and the error names chunk [k] and wraps what [os.ReadFile] reported. *)
Theorem StreamModel_stops_at_the_unreadable_chunk
    (s : Storage) (id : string) (md : ModelMetadata) (w : World)
    (ds : list bytes) (e : error) (out : bytes) :
  metadata s !! id = Some md →
  length ds < length (Chunks md) →
  (∀ j data, ds !! j = Some data →
     os_ReadFile (filepath_Join (filepath_Join (basePath s) id) (chunk_name j)) (disk w)
     = Ok data) →
  os_ReadFile (filepath_Join (filepath_Join (basePath s) id) (chunk_name (length ds)))
    (disk w) = Err e →
  StreamModel context_Background s id {| written := out |} w
  = (Some (wrapf ("failed to read chunk " +:+ pretty (length ds)) e),
     {| written := out ++ concat ds |}).
Proof.
  intros Hmd Hlen Hok Herr. unfold StreamModel, getMetadata. rewrite Hmd.
  by apply (streamLoop_stops ds _ context_Background _ 0).
Qed.

Lemma GetStatus_totals_run :
  TotalModels (GetStatus storage1) = 1%Z ∧ TotalSize (GetStatus storage1) = 3%Z.
Proof.
  pose proof (GetStatus_totals storage1 (range_metadata storage1)
                (reflexivity (range_metadata storage1))) as Ht.
  cbv zeta in Ht. destruct Ht as (Hn & _ & _ & Hs & _).
  unfold GetStatus. split.
  - etransitivity; [exact Hn |]. vm_compute. reflexivity.
  - etransitivity; [exact Hs |]. vm_compute. reflexivity.
Defined.


Lemma StoreModel_then_DeleteModel_run :
  ∃ md s' w' rd' w'',
    core.StoreModel toy_sha 3 context_Background "m.glb" "glb"
      {| unread := abc |} storage0 world_data = Some (Ok md, s', w', rd') ∧
    DeleteModel s' (ID md) w' = (None, storage0, w'') ∧
    disk w'' = data_disk.
Proof.
  assert (∃ md s' w' rd',
            core.StoreModel toy_sha 3 context_Background "m.glb" "glb"
              {| unread := abc |} storage0 world_data = Some (Ok md, s', w', rd'))
    as (md & s' & w' & rd' & HS) by (eexists _, _, _, _; vm_compute; reflexivity).
  assert (core.basePath storage0 ∈ dirs (disk world_data)) as Hbase
    by (by vm_compute).
  assert (path_element (uuid_src world_data (uuid_ctr world_data)) = true)
    as Hel by (vm_compute; reflexivity).
  destruct (StoreModel_then_DeleteModel toy_sha _ _ _ _ _ _ _ _ _ _ _ Hbase Hel HS)
    as (w'' & HD & Hdisk & _).
  - apply StoreModel_Ok_inv in HS as (_ & _ & _ & -> & _). reflexivity.
  - split_and!; [by vm_compute | done |].
    intros q Hq. split; [done |]. simpl.
    intros Hin%elem_of_singleton. subst q. by vm_compute in Hq.
  - reflexivity.
  - by exists md, s', w', rd', w''.
Defined.

Lemma StreamModel_stops_at_the_unreadable_chunk_run :
  StreamModel context_Background storage2 "uuid-0" {| written := [] |} world2_lost
  = (Some (wrapf "failed to read chunk 1"
             (PathError "open" "/data/uuid-0/chunk_1" ENOENT)),
     {| written := ["a"%byte] |}).
Proof.
  assert (∃ md, metadata storage2 !! "uuid-0" = Some md ∧ length (Chunks md) = 2)
    as (md & Hmd & Hlen)
    by (eexists; split; [vm_compute; reflexivity | vm_compute; reflexivity]).
  apply (StreamModel_stops_at_the_unreadable_chunk storage2 "uuid-0" md world2_lost
           [["a"%byte]] (PathError "open" "/data/uuid-0/chunk_1" ENOENT) [] Hmd).
  - rewrite Hlen. simpl. lia.
  - intros [|j] data Hj; [| by destruct j].
    injection Hj as <-. by vm_compute.
  - by vm_compute.
Defined.

End StorageMore.

(* ===================================================================== *)
(** * The block store through its calls, and the block service           *)
(* ===================================================================== *)

Module BlockService.
Import Go blocks DiskFacts BlockStore.

Section facts.
Context (sha256_Sum256 : bytes → bytes).

Abbreviation calculateHash := (calculateHash sha256_Sum256).
Abbreviation StoreBlock := (StoreBlock sha256_Sum256).
Abbreviation store_inv := (store_inv sha256_Sum256).
Abbreviation calls := (calls sha256_Sum256).


Lemma GetBlock_Ok_inv (s : Store) (h : string) (d : Disk) (b : Block) :
  GetBlock s h d = Ok b →
  files d !! getBlockPath s h = Some (Data b) ∧ Hash b = h ∧ Size b = len (Data b).
Proof.
  unfold GetBlock, os_ReadFile. destruct (read_fault _ _); [done |].
  destruct (files d !! getBlockPath s h) as [data|].
  - by intros [= <-].
  - by destruct (decide _).
Qed.


(** X10. [StoreBlock(P)] on a store where no directory sits at the block's
    path, no other payload is already filed under the digest of [P], and
    the block's file can be written and read: it returns the digest [h] of
    [P] whether or not [os.Stat] finds the block, [GetBlock(h)] then
    returns [P], and [GetBlock] of every hash that names another file
    returns what it did before; another path element always names another
    file. *)
Theorem StoreBlock_then_GetBlock (s : Store) (P : bytes) (d : Disk) :
  let h := calculateHash P in
  let path := getBlockPath s h in
  path ∉ dirs d →
  (∀ D, files d !! path = Some D → D = P) →
  write_fault (faults d) path = false →
  read_fault (faults d) path = false →
  ∃ d',
    StoreBlock s P d = (Ok h, d') ∧
    GetBlock s h d' = Ok {| Hash := h; Size := len P; Data := P |} ∧
    (∀ h', getBlockPath s h' ≠ path → GetBlock s h' d' = GetBlock s h' d) ∧
    (∀ h', path_element h = true → path_element h' = true → h' ≠ h →
           GetBlock s h' d' = GetBlock s h' d).
Proof.
  intros h path Hnd Hsame Hwf Hrf.
  assert (∃ d',
            StoreBlock s P d = (Ok h, d') ∧
            GetBlock s h d' = Ok {| Hash := h; Size := len P; Data := P |} ∧
            (∀ h', getBlockPath s h' ≠ path → GetBlock s h' d' = GetBlock s h' d))
    as (d' & HS & HG & Hframe).
  { unfold blocks.StoreBlock. fold h path.
    destruct (os_Stat_ok path d) eqn:Hstat.
    - exists d. split_and!; [done | | done].
      unfold os_Stat_ok in Hstat. destruct (stat_fault _ _); [done |].
      apply bool_decide_eq_true in Hstat as [[D HD] | Hdir]; [| done].
      unfold GetBlock, os_ReadFile. fold path. rewrite Hrf, HD.
      by rewrite (Hsame D HD).
    - unfold os_WriteFile. rewrite Hwf.
      destruct (decide (path ∈ dirs d)) as [Hdir | _]; [done |].
      eexists. split_and!; [done | |].
      + unfold GetBlock, os_ReadFile. fold path. simpl.
        by rewrite Hrf, lookup_insert_eq.
      + intros h' Hne. unfold GetBlock, os_ReadFile. simpl.
        by rewrite lookup_insert_ne. }
  exists d'. split_and!; [done | done | done |].
  intros h' _ _ Hne. apply Hframe.
  unfold path, getBlockPath. by intros Heq%Join_inj.
Qed.

(** X11. [StoreBlock] does not look at what the file it finds holds: when
    [os.Stat] finds a file at the path of the digest of [P], [StoreBlock(P)]
    returns that digest and writes nothing, so a block whose file holds
    other bytes stays as it is and [GetBlock] keeps returning those
    bytes. *)
Theorem StoreBlock_does_not_repair (s : Store) (P D : bytes) (d : Disk) :
  let h := calculateHash P in
  files d !! getBlockPath s h = Some D →
  stat_fault (faults d) (getBlockPath s h) = false →
  StoreBlock s P d = (Ok h, d) ∧
  (read_fault (faults d) (getBlockPath s h) = false →
   GetBlock s h (StoreBlock s P d).2 = Ok {| Hash := h; Size := len D; Data := D |}) ∧
  (D ≠ P → ∀ b, GetBlock s h (StoreBlock s P d).2 = Ok b → Data b ≠ P).
Proof.
  intros h Hfile Hstat.
  assert (StoreBlock s P d = (Ok h, d)) as HS.
  { unfold blocks.StoreBlock, os_Stat_ok. fold h. rewrite Hstat.
    rewrite bool_decide_eq_true_2; [done |]. left. by eexists. }
  rewrite HS. simpl. split_and!; [done | |].
  - intros Hrf. unfold GetBlock, os_ReadFile. by rewrite Hrf, Hfile.
  - intros Hne b HG. apply GetBlock_Ok_inv in HG as (Hb & _).
    rewrite Hfile in Hb. by injection Hb as <-.
Qed.

(** X12. [DeleteBlock(h)] of a block whose file is there, with the system
    carrying the removal out: it returns nil; [GetBlock(h)] then reports
    [block not found]; a second [DeleteBlock(h)] returns the error of
    [os.Remove] for a missing file and changes nothing; and [GetBlock] of
    every hash that names another file returns what it did before; another
    path element always names another file. *)
Theorem DeleteBlock_then_GetBlock (s : Store) (h : string) (D : bytes) (d : Disk) :
  files d !! getBlockPath s h = Some D →
  getBlockPath s h ∉ dirs d →
  remove_fault (faults d) (getBlockPath s h) = false →
  read_fault (faults d) (getBlockPath s h) = false →
  ∃ d',
    DeleteBlock s h d = (None, d') ∧
    GetBlock s h d' = Err (errorf "block not found") ∧
    DeleteBlock s h d' = (Some (PathError "remove" (getBlockPath s h) ENOENT), d') ∧
    (∀ h', getBlockPath s h' ≠ getBlockPath s h →
           GetBlock s h' d' = GetBlock s h' d) ∧
    (∀ h', path_element h = true → path_element h' = true → h' ≠ h →
           GetBlock s h' d' = GetBlock s h' d).
Proof.
  intros Hfile Hnd Hrm Hrf. unfold DeleteBlock, os_Remove. rewrite Hrm, Hfile.
  assert (∀ h', getBlockPath s h' ≠ getBlockPath s h →
            GetBlock s h'
              {| files := delete (getBlockPath s h) (files d);
                 dirs := dirs d; faults := faults d |}
            = GetBlock s h' d) as Hframe.
  { intros h' Hne. unfold GetBlock, os_ReadFile. simpl.
    by rewrite lookup_delete_ne. }
  eexists. split_and!; [done | | | done |].
  - unfold GetBlock, os_ReadFile. simpl. rewrite Hrf, lookup_delete_eq.
    by destruct (decide _).
  - simpl. by rewrite Hrm, lookup_delete_eq.
  - intros h' _ _ Hne. apply Hframe. unfold getBlockPath. by intros Heq%Join_inj.
Qed.

(** ** [GetModelBlocks] *)

Lemma getBlocksLoop_Ok (s : Service) (d : Disk) (hashes : list string) :
  ∀ acc bs,
    getBlocksLoop s d hashes acc = Ok bs ↔
    ∃ new, bs = acc ++ new ∧
           Forall2 (λ h b, GetBlock (store s) h d = Ok b) hashes new.
Proof.
  induction hashes as [|h hashes IH]; intros acc bs; simpl.
  - split.
    + intros [= <-]. exists []. by rewrite app_nil_r.
    + intros (new & -> & Hall). apply Forall2_nil_inv_l in Hall as ->.
      by rewrite app_nil_r.
  - destruct (GetBlock (store s) h d) as [b | e] eqn:HG.
    + rewrite IH. split.
      * intros (new & -> & Hall). exists (b :: new). rewrite <- app_assoc.
        split; [done |]. by constructor.
      * intros (new & -> & Hall).
        apply Forall2_cons_inv_l in Hall as (b' & new' & Hb & Hall & ->).
        assert (b' = b) as -> by congruence.
        exists new'. by rewrite <- app_assoc.
    + split; [done |]. intros (new & _ & Hall).
      apply Forall2_cons_inv_l in Hall as (b' & new' & Hb & _). congruence.
Qed.

Lemma getBlocksLoop_Err (s : Service) (d : Disk) (pre : list string) :
  ∀ acc h post e,
    Forall (λ h', ∃ b, GetBlock (store s) h' d = Ok b) pre →
    GetBlock (store s) h d = Err e →
    getBlocksLoop s d (pre ++ h :: post) acc = Err e.
Proof.
  induction pre as [|p pre IH]; intros acc h post e Hpre Herr; simpl.
  - by rewrite Herr.
  - apply Forall_cons in Hpre as [[b Hb] Hpre]. rewrite Hb. by apply IH.
Qed.

Lemma GetModelBlocks_Forall2 (s : Service) (d : Disk) (hashes : list string)
    (bs : list Block) :
  Forall2 (λ h b, GetBlock (store s) h d = Ok b) hashes bs →
  GetModelBlocks s hashes d = Ok bs.
Proof.
  intros Hall. unfold GetModelBlocks. apply getBlocksLoop_Ok. by exists bs.
Qed.

(** X13. [GetModelBlocks] is all or nothing and keeps the order: it returns
    a list of blocks exactly when [GetBlock] succeeds on every hash, and
    then the list is, position by position, what [GetBlock] returns for the
    hashes given (as often as a hash is repeated); otherwise it returns no
    block at all but the error of the first hash on which [GetBlock]
    fails. *)
Theorem GetModelBlocks_all_or_nothing (s : Service) (d : Disk) (hashes : list string) :
  (∀ bs, GetModelBlocks s hashes d = Ok bs ↔
         Forall2 (λ h b, GetBlock (store s) h d = Ok b) hashes bs) ∧
  (∀ bs, GetModelBlocks s hashes d = Ok bs → Hash <$> bs = hashes) ∧
  (∀ pre h post e,
     hashes = pre ++ h :: post →
     Forall (λ h', ∃ b, GetBlock (store s) h' d = Ok b) pre →
     GetBlock (store s) h d = Err e →
     GetModelBlocks s hashes d = Err e).
Proof.
  assert (∀ bs, GetModelBlocks s hashes d = Ok bs ↔
                Forall2 (λ h b, GetBlock (store s) h d = Ok b) hashes bs) as Hiff.
  { intros bs. unfold GetModelBlocks. rewrite getBlocksLoop_Ok. split.
    - by intros (new & -> & Hall).
    - intros Hall. by exists bs. }
  split_and!; [done | |].
  - intros bs Hall%Hiff. clear Hiff.
    induction Hall as [|h b hs bs HG _ IH]; [done |].
    apply GetBlock_Ok_inv in HG as (_ & Hh & _). by rewrite fmap_cons, Hh, IH.
  - intros pre h post e -> Hpre Herr. by apply getBlocksLoop_Err.
Qed.

(** X14. Blocks are shared by content and not counted: once
    [Service.DeleteBlock(h)] has removed the file of [h], every
    [GetModelBlocks] over a list that names [h] fails, with
    [block not found] when the hashes before [h] can still be fetched,
    whoever stored the block and however often. *)
Theorem DeleteBlock_breaks_every_list_naming_it
    (s : Service) (h : string) (d d' : Disk) (pre post : list string) :
  Service_DeleteBlock s h d = (None, d') →
  getBlockPath (store s) h ∉ dirs d →
  read_fault (faults d) (getBlockPath (store s) h) = false →
  (∀ bs, GetModelBlocks s (pre ++ h :: post) d' ≠ Ok bs) ∧
  (Forall (λ h', ∃ b, GetBlock (store s) h' d' = Ok b) pre →
   GetModelBlocks s (pre ++ h :: post) d' = Err (errorf "block not found")).
Proof.
  unfold Service_DeleteBlock, DeleteBlock, os_Remove. intros HD Hnd Hrf.
  destruct (remove_fault _ _) eqn:Hrm; [done |].
  destruct (files d !! getBlockPath (store s) h) as [D|] eqn:Hfile; [| done].
  injection HD as <-.
  assert (GetBlock (store s) h
            {| files := delete (getBlockPath (store s) h) (files d);
               dirs := dirs d; faults := faults d |}
          = Err (errorf "block not found")) as Hgone.
  { unfold GetBlock, os_ReadFile. simpl. rewrite Hrf, lookup_delete_eq.
    by destruct (decide _). }
  split.
  - intros bs HG. unfold GetModelBlocks in HG. apply getBlocksLoop_Ok in HG as (new & _ & Hall).
    apply Forall2_app_inv_l in Hall as (b1 & b2 & _ & Hall & _).
    apply Forall2_cons_inv_l in Hall as (b & ? & Hb & _). congruence.
  - intros Hpre. by apply getBlocksLoop_Err.
Qed.

End facts.

Import Fixtures.


Lemma StoreBlock_then_GetBlock_run :
  ∃ d',
    blocks.StoreBlock toy_sha store0 abc blocks_disk = (Ok "616263", d') ∧
    GetBlock store0 "616263" d' = Ok {| Hash := "616263"; Size := 3; Data := abc |} ∧
    GetBlock store0 "00" d' = GetBlock store0 "00" blocks_disk.
Proof.
  destruct (StoreBlock_then_GetBlock toy_sha store0 abc blocks_disk)
    as (d' & HS & HG & _ & Hframe).
  - by vm_compute.
  - intros D HD. by vm_compute in HD.
  - reflexivity.
  - reflexivity.
  - exists d'. split; [exact HS |]. split; [exact HG |].
    by apply Hframe.
Defined.

Lemma StoreBlock_does_not_repair_run :
  blocks.StoreBlock toy_sha store0 [x00] forged_disk = (Ok "00", forged_disk) ∧
  GetBlock store0 "00" forged_disk = Ok {| Hash := "00"; Size := 3; Data := abc |}.
Proof.
  destruct (StoreBlock_does_not_repair toy_sha store0 [x00] abc forged_disk)
    as (HS & HG & _).
  - by vm_compute.
  - reflexivity.
  - split; [exact HS |]. rewrite HS in HG. by apply HG.
Defined.

Lemma DeleteBlock_then_GetBlock_run :
  ∃ d',
    DeleteBlock store0 "00" forged_disk = (None, d') ∧
    GetBlock store0 "00" d' = Err (errorf "block not found") ∧
    GetBlock store0 "616263" d' = GetBlock store0 "616263" forged_disk.
Proof.
  destruct (DeleteBlock_then_GetBlock store0 "00" abc forged_disk)
    as (d' & HD & HG & _ & _ & Hframe).
  - by vm_compute.
  - by vm_compute.
  - reflexivity.
  - reflexivity.
  - exists d'. split; [exact HD |]. split; [exact HG |]. by apply Hframe.
Defined.

Lemma DeleteBlock_breaks_every_list_naming_it_run :
  ∃ d',
    Service_DeleteBlock (NewService store0) "00" forged_disk = (None, d') ∧
    GetModelBlocks (NewService store0) ["00"] d' = Err (errorf "block not found").
Proof.
  assert (∃ d', Service_DeleteBlock (NewService store0) "00" forged_disk = (None, d'))
    as [d' HD] by (eexists; vm_compute; reflexivity).
  exists d'. split; [exact HD |].
  destruct (DeleteBlock_breaks_every_list_naming_it
              (NewService store0) "00" forged_disk d' [] [] HD) as [_ HG].
  - by vm_compute.
  - reflexivity.
  - by apply HG.
Defined.

End BlockService.

(* ===================================================================== *)
(** * The overlay: retries that succeed, cancellation, the peer table    *)
(* ===================================================================== *)

Module OverlayMore.
Import Go p2p Overlay.

(** The delays of the first [j] retries, starting from [2^z] seconds. *)
Abbreviation delays z j :=
  ((λ i : nat, (2 ^ (z + Z.of_nat i) * time_Second)%Z) <$> seq 0 j).

Lemma backoff_turn_fails fuel ctx pi st err :
  ctx_Done ctx (polls (net st)) = false →
  link (net st) (peer_ID pi) (length (dialled (net st))) = Some err →
  (backoff st ≤ maxBackoff)%Z →
  backoffLoop (S fuel) ctx pi st =
  backoffLoop fuel ctx pi
    {| backoff := mul64 (backoff st) 2; network := network st;
       net := {| link := link (net st);
                 dialled := dialled (net st) ++ [peer_ID pi];
                 slept := slept (net st) ++ [backoff st];
                 polls := S (polls (net st)) |} |}.
Proof.
  intros Hc Hl Hle. simpl.
  unfold backoffBody, poll, connectToPeer, host_Connect.
  rewrite Hc. simpl. rewrite Hl.
  destruct (Z.gtb_spec (backoff st) maxBackoff); [lia | done].
Qed.

(** [j] dials in a row fail while the context stays open: the loop has
    dialled [j] times, slept after each, and stands at the next turn. *)
Lemma backoffLoop_after_failures (j : nat) :
  ∀ (z : Z) st fuel ctx pi,
    (0 ≤ z)%Z → (z + Z.of_nat j ≤ 6)%Z →
    backoff st = (2 ^ z * time_Second)%Z →
    (∀ k, k < j → ctx_Done ctx (polls (net st) + k) = false) →
    (∀ k, k < j →
          is_Some (link (net st) (peer_ID pi) (length (dialled (net st)) + k))) →
    ∃ st',
      backoffLoop (j + fuel) ctx pi st = backoffLoop fuel ctx pi st' ∧
      backoff st' = (2 ^ (z + Z.of_nat j) * time_Second)%Z ∧
      network st' = network st ∧
      link (net st') = link (net st) ∧
      dialled (net st') = dialled (net st) ++ replicate j (peer_ID pi) ∧
      slept (net st') = slept (net st) ++ delays z j ∧
      polls (net st') = polls (net st) + j.
Proof.
  induction j as [|j IH]; intros z st fuel ctx pi Hz Hzj Hb Hctx Hlink.
  - exists st. simpl. rewrite !app_nil_r, Z.add_0_r, Nat.add_0_r. done.
  - destruct (Hlink 0 ltac:(lia)) as [err Herr]. rewrite Nat.add_0_r in Herr.
    pose proof (Hctx 0 ltac:(lia)) as Hc0. rewrite Nat.add_0_r in Hc0.
    assert (backoff st ≤ maxBackoff)%Z as Hle.
    { rewrite Hb.
      assert (z = 0 ∨ z = 1 ∨ z = 2 ∨ z = 3 ∨ z = 4 ∨ z = 5)%Z
        as [-> | [-> | [-> | [-> | [-> | ->]]]]] by lia; by vm_compute. }
    change (S j + fuel) with (S (j + fuel)).
    rewrite (backoff_turn_fails _ _ _ _ err Hc0 Herr Hle).
    match goal with |- context [backoffLoop _ _ _ ?s] => set (st1 := s) end.
    destruct (IH (z + 1)%Z st1 fuel ctx pi) as (st' & Hloop & Hb' & Hn' & Hl' & Hd' & Hs' & Hp').
    + lia.
    + lia.
    + unfold st1. simpl. rewrite Hb.
      assert (z = 0 ∨ z = 1 ∨ z = 2 ∨ z = 3 ∨ z = 4 ∨ z = 5)%Z
        as [-> | [-> | [-> | [-> | [-> | ->]]]]] by lia; reflexivity.
    + intros k Hk. unfold st1. simpl.
      replace (S (polls (net st) + k)) with (polls (net st) + S k) by lia.
      apply Hctx. lia.
    + intros k Hk. unfold st1. simpl. rewrite length_app. simpl.
      replace (length (dialled (net st)) + 1 + k)
        with (length (dialled (net st)) + S k) by lia.
      apply Hlink. lia.
    + exists st'. unfold st1 in *. simpl in *. split_and!.
      * done.
      * rewrite Hb'. f_equal. f_equal. lia.
      * done.
      * done.
      * rewrite Hd', <- app_assoc. done.
      * rewrite Hs', <- app_assoc, Hb. f_equal. simpl. rewrite Z.add_0_r. f_equal.
        rewrite <- fmap_S_seq, <- list_fmap_compose.
        apply list_fmap_ext. intros i x _. simpl. f_equal. f_equal. lia.
      * lia.
Qed.

(** X15. A peer that answers the [(j+1)]-th dial, [j] at most six, under a
    context that stays open: [connectToPeerWithBackoff] returns nil after
    [j+1] dials (so also on the seventh, made once the delay has passed
    the ceiling), having slept 1, 2, ..., [2^(j-1)] seconds after the
    failed ones, and the peer table holds the peer under its identifier,
    in place of any earlier entry. *)
Theorem backoff_connects_after_failures fuel ctx pi n e (j : nat) :
  cancel_at ctx = None →
  j ≤ 6 →
  j < fuel →
  (∀ k, k < j → is_Some (link e (peer_ID pi) (length (dialled e) + k))) →
  link e (peer_ID pi) (length (dialled e) + j) = None →
  ∃ n' e',
    connectToPeerWithBackoff fuel ctx pi n e = Some (None, n', e') ∧
    peers n' = <[peer_ID pi := pi]> (peers n) ∧
    peers n' !! peer_ID pi = Some pi ∧
    dialled e' = dialled e ++ replicate (S j) (peer_ID pi) ∧
    slept e' = slept e ++ delays 0 j ∧
    length (slept e') = length (slept e) + j.
Proof.
  intros Hctx Hj Hfuel Hfail Hok. unfold connectToPeerWithBackoff.
  replace fuel with (j + S (fuel - S j)) by lia.
  destruct (backoffLoop_after_failures j 0
              {| backoff := time_Second; network := n; net := e |}
              (S (fuel - S j)) ctx pi)
    as (st' & -> & Hb' & Hn' & Hl' & Hd' & Hs' & Hp'); simpl.
  - lia.
  - lia.
  - reflexivity.
  - intros k _. unfold ctx_Done. by rewrite Hctx.
  - done.
  - simpl in *. unfold backoffBody, poll, connectToPeer, host_Connect, ctx_Done.
    rewrite Hctx. simpl. rewrite Hl', Hd', length_app, length_replicate, Hok, Hn'.
    eexists _, _. split; [done |]. simpl. split_and!.
    + done.
    + by rewrite lookup_insert_eq.
    + by rewrite <- app_assoc, replicate_cons_app.
    + rewrite Hs'. done.
    + rewrite Hs', length_app, length_fmap, length_seq. done.
Qed.

(** X16. Cancellation is looked for once per turn, before the dial: when
    the first [j] dials fail ([j] at most six) and the context is first
    found done at the poll after them, [connectToPeerWithBackoff] returns
    the context's error after exactly [j] dials and [j] sleeps, and leaves
    the peer table as it was. With [j = 0], a context already cancelled,
    nothing is dialled. *)
Theorem backoff_stops_when_cancelled fuel ctx pi n e (j : nat) :
  cancel_at ctx = Some (polls e + j) →
  j ≤ 6 →
  j < fuel →
  (∀ k, k < j → is_Some (link e (peer_ID pi) (length (dialled e) + k))) →
  ∃ e',
    connectToPeerWithBackoff fuel ctx pi n e = Some (Some (ctx_Err ctx), n, e') ∧
    dialled e' = dialled e ++ replicate j (peer_ID pi) ∧
    slept e' = slept e ++ delays 0 j ∧
    link e' = link e.
Proof.
  intros Hctx Hj Hfuel Hfail. unfold connectToPeerWithBackoff.
  replace fuel with (j + S (fuel - S j)) by lia.
  destruct (backoffLoop_after_failures j 0
              {| backoff := time_Second; network := n; net := e |}
              (S (fuel - S j)) ctx pi)
    as (st' & -> & Hb' & Hn' & Hl' & Hd' & Hs' & Hp'); simpl.
  - lia.
  - lia.
  - reflexivity.
  - intros k Hk. unfold ctx_Done. rewrite Hctx. apply Nat.leb_gt. lia.
  - done.
  - simpl in *. unfold backoffBody, poll, ctx_Done.
    rewrite Hctx, Hp', Nat.leb_refl. simpl.
    eexists. rewrite Hn'. split; [done |]. simpl. by split_and!.
Qed.

(** ** The peer table after the bootstrap *)

Lemma elem_of_GetPeers (n : Network) (id : string) :
  id ∈ GetPeers n ↔ is_Some (peers n !! id).
Proof.
  unfold GetPeers. rewrite list_elem_of_fmap. split.
  - intros ([k v] & -> & Hin). apply elem_of_map_to_list in Hin. by eexists.
  - intros [v Hv]. exists (id, v). split; [done |]. by apply elem_of_map_to_list.
Qed.

(** What a call of [connectToPeerWithBackoff] can have done to the peer
    table: put the peer in, after a dial that succeeded, or nothing. *)
Lemma backoffLoop_table fuel ctx pi :
  ∀ st r n' e',
    backoffLoop fuel ctx pi st = Some (r, n', e') →
    link e' = link (net st) ∧
    cfg n' = cfg (network st) ∧
    ((r = None ∧ peers n' = <[peer_ID pi := pi]> (peers (network st)) ∧
      ∃ k, link (net st) (peer_ID pi) k = None) ∨
     (is_Some r ∧ n' = network st)).
Proof.
  induction fuel as [|fuel IH]; intros st r n' e'; simpl; [done |].
  destruct (backoffBody ctx pi st) as [st1 | [[r1 n1] e1]] eqn:Hbody.
  - intros Hloop. apply IH in Hloop as (Hl & Hc & Hres).
    assert (link (net st1) = link (net st) ∧ network st1 = network st) as [Hl1 Hn1].
    { revert Hbody. unfold backoffBody, poll, connectToPeer, host_Connect. simpl.
      destruct (ctx_Done _ _); [done |]. simpl.
      destruct (link _ _ _); [| done].
      destruct (_ >? _)%Z; [done |]. by intros [= <-]. }
    rewrite Hl1, Hn1 in *. done.
  - intros [= <- <- <-]. revert Hbody.
    unfold backoffBody, poll, connectToPeer, host_Connect. simpl.
    destruct (ctx_Done _ _); simpl.
    { intros [= <- <- <-]. split_and!; [done | done |]. right. by split; [eexists |]. }
    destruct (link (net st) (peer_ID pi) (length (dialled (net st)))) as [err|] eqn:Hlk.
    + destruct (_ >? _)%Z; [| done].
      intros [= <- <- <-]. split_and!; [done | done |]. right. by split; [eexists |].
    + intros [= <- <- <-]. split_and!; [done | done |]. left.
      split_and!; [done | done |]. by eexists.
Qed.

Lemma backoff_reachable fuel ctx pi n e :
  cancel_at ctx = None →
  (∀ k, link e (peer_ID pi) k = None) →
  0 < fuel →
  ∃ n' e',
    connectToPeerWithBackoff fuel ctx pi n e = Some (None, n', e') ∧
    link e' = link e ∧
    cfg n' = cfg n ∧
    peers n' = <[peer_ID pi := pi]> (peers n).
Proof.
  intros Hctx Hup Hfuel. destruct fuel as [|fuel]; [lia |].
  unfold connectToPeerWithBackoff. simpl.
  unfold backoffBody, poll, connectToPeer, host_Connect, ctx_Done.
  rewrite Hctx. simpl. rewrite Hup. by eexists _, _.
Qed.

Section bootstrap.
Context (multiaddr_NewMultiaddr : string → result string)
        (peer_AddrInfoFromP2pAddr : string → result AddrInfo).

Abbreviation bootstrapLoop :=
  (bootstrapLoop multiaddr_NewMultiaddr peer_AddrInfoFromP2pAddr).
Abbreviation connectToBootstrapPeers :=
  (connectToBootstrapPeers multiaddr_NewMultiaddr peer_AddrInfoFromP2pAddr).

Lemma bootstrapLoop_table fuel ctx (addrs : list string) :
  ∀ n e n' e',
    bootstrapLoop fuel ctx addrs n e = Some (n', e') →
    link e' = link e ∧
    cfg n' = cfg n ∧
    (∀ id, is_Some (peers n !! id) → is_Some (peers n' !! id)) ∧
    (∀ id, (∀ k, is_Some (link e id k)) → peers n' !! id = peers n !! id) ∧
    (cancel_at ctx = None →
     ∀ addr maddr q,
       addr ∈ addrs →
       multiaddr_NewMultiaddr addr = Ok maddr →
       peer_AddrInfoFromP2pAddr maddr = Ok q →
       (∀ k, link e (peer_ID q) k = None) →
       is_Some (peers n' !! peer_ID q)).
Proof.
  induction addrs as [|a addrs IH]; intros n e n' e'; simpl.
  { intros [= <- <-]. split_and!; try done.
    intros _ addr maddr q Hin. by apply elem_of_nil in Hin. }
  assert (∀ n1 e1,
    link e1 = link e → cfg n1 = cfg n →
    (∀ id, is_Some (peers n !! id) → is_Some (peers n1 !! id)) →
    (∀ id, (∀ k, is_Some (link e id k)) → peers n1 !! id = peers n !! id) →
    (cancel_at ctx = None →
     ∀ maddr q, multiaddr_NewMultiaddr a = Ok maddr →
                peer_AddrInfoFromP2pAddr maddr = Ok q →
                (∀ k, link e (peer_ID q) k = None) →
                is_Some (peers n1 !! peer_ID q)) →
    bootstrapLoop fuel ctx addrs n1 e1 = Some (n', e') →
    link e' = link e ∧
    cfg n' = cfg n ∧
    (∀ id, is_Some (peers n !! id) → is_Some (peers n' !! id)) ∧
    (∀ id, (∀ k, is_Some (link e id k)) → peers n' !! id = peers n !! id) ∧
    (cancel_at ctx = None →
     ∀ addr maddr q,
       addr ∈ a :: addrs →
       multiaddr_NewMultiaddr addr = Ok maddr →
       peer_AddrInfoFromP2pAddr maddr = Ok q →
       (∀ k, link e (peer_ID q) k = None) →
       is_Some (peers n' !! peer_ID q))) as Hrest.
  { intros n1 e1 Hl1 Hc1 Hkeep1 Hdown1 Ha Hloop.
    apply IH in Hloop as (Hl & Hc & Hkeep & Hdown & Hall).
    split_and!.
    - congruence.
    - congruence.
    - intros id Hid. by apply Hkeep, Hkeep1.
    - intros id Hid. rewrite Hdown; [by apply Hdown1 |]. by rewrite Hl1.
    - intros Hctx addr maddr q [-> | Hin]%elem_of_cons Hma Hq Hup.
      + apply Hkeep. by eapply Ha.
      + eapply Hall; try done. by rewrite Hl1. }
  destruct (multiaddr_NewMultiaddr a) as [maddr|] eqn:Hma.
  2: { apply Hrest; try done. }
  destruct (peer_AddrInfoFromP2pAddr maddr) as [q|] eqn:Hq.
  2: { apply Hrest; try done. intros _ maddr' q [= <-]. congruence. }
  destruct (connectToPeerWithBackoff fuel ctx q n e) as [[[r n1] e1]|] eqn:Hcall; [| done].
  pose proof (backoffLoop_table _ _ _ _ _ _ _ Hcall) as (Hl1 & Hc1 & Hres). simpl in *.
  assert (bootstrapLoop fuel ctx addrs n1 e1 = Some (n', e') →
          link e' = link e ∧
          cfg n' = cfg n ∧
          (∀ id, is_Some (peers n !! id) → is_Some (peers n' !! id)) ∧
          (∀ id, (∀ k, is_Some (link e id k)) → peers n' !! id = peers n !! id) ∧
          (cancel_at ctx = None →
           ∀ addr maddr q,
             addr ∈ a :: addrs →
             multiaddr_NewMultiaddr addr = Ok maddr →
             peer_AddrInfoFromP2pAddr maddr = Ok q →
             (∀ k, link e (peer_ID q) k = None) →
             is_Some (peers n' !! peer_ID q))) as Hgoal.
  { apply Hrest; try done.
    - intros id Hid. destruct Hres as [(_ & -> & _) | [_ ->]]; [| done].
      destruct (decide (id = peer_ID q)) as [-> | Hne].
      + by rewrite lookup_insert_eq.
      + by rewrite lookup_insert_ne.
    - intros id Hid. destruct Hres as [(_ & -> & k & Hk) | [_ ->]]; [| done].
      apply lookup_insert_ne. intros <-.
      destruct (Hid k) as [x Hx]. congruence.
    - intros Hctx maddr' q' [= <-] Hq' Hup. rewrite Hq in Hq'. injection Hq' as <-.
      destruct fuel as [|fuel]; [done |].
      destruct (backoff_reachable (S fuel) ctx q n e Hctx Hup ltac:(lia))
        as (n2 & e2 & Hcall2 & _ & _ & Hp2).
      rewrite Hcall in Hcall2. injection Hcall2 as -> <- <-.
      by rewrite Hp2, lookup_insert_eq. }
  by destruct r.
Qed.

(** X17. The peer table after [connectToBootstrapPeers], when it returns
    (it does within seven turns per peer): no peer that was in the table
    has left it; a peer on which every dial fails has the entry it had,
    or none; and, under a context that stays open, every bootstrap address
    that parses to a peer answering its dials has that peer listed by
    [GetPeers]. *)
Theorem bootstrap_fills_the_peer_table fuel ctx n e :
  7 ≤ fuel →
  ∃ n' e',
    connectToBootstrapPeers fuel ctx n e = Some (None, n', e') ∧
    (∀ id, id ∈ GetPeers n → id ∈ GetPeers n') ∧
    (∀ id, (∀ k, is_Some (link e id k)) → peers n' !! id = peers n !! id) ∧
    (cancel_at ctx = None →
     ∀ addr maddr q,
       addr ∈ BootstrapPeers (cfg n) →
       multiaddr_NewMultiaddr addr = Ok maddr →
       peer_AddrInfoFromP2pAddr maddr = Ok q →
       (∀ k, link e (peer_ID q) k = None) →
       peer_ID q ∈ GetPeers n').
Proof.
  intros Hfuel.
  destruct (bootstrapLoop_attempts_all multiaddr_NewMultiaddr peer_AddrInfoFromP2pAddr
              fuel ctx (BootstrapPeers (cfg n)) n e Hfuel) as (n' & e' & Hloop & _).
  exists n', e'. unfold p2p.connectToBootstrapPeers. rewrite Hloop.
  apply bootstrapLoop_table in Hloop as (_ & _ & Hkeep & Hdown & Hall).
  split_and!; [done | | done |].
  - intros id. rewrite !elem_of_GetPeers. apply Hkeep.
  - intros Hctx addr maddr q Hin Hma Hq Hup. rewrite elem_of_GetPeers. by eapply Hall.
Qed.

(** X18. Under a context that is already cancelled, [connectToBootstrapPeers]
    still returns nil: it goes through the addresses, dials nobody, sleeps
    never, and leaves the peer table as it was. *)
Theorem bootstrap_under_a_cancelled_context fuel ctx n e (c : nat) :
  cancel_at ctx = Some c →
  c ≤ polls e →
  0 < fuel →
  ∃ e',
    connectToBootstrapPeers fuel ctx n e = Some (None, n, e') ∧
    dialled e' = dialled e ∧
    slept e' = slept e ∧
    link e' = link e.
Proof.
  intros Hctx Hc Hfuel. unfold p2p.connectToBootstrapPeers.
  assert (∀ addrs e0, c ≤ polls e0 →
            ∃ e', bootstrapLoop fuel ctx addrs n e0 = Some (n, e') ∧
                  dialled e' = dialled e0 ∧ slept e' = slept e0 ∧ link e' = link e0)
    as Hloop.
  { induction addrs as [|a addrs IH]; intros e0 Hc0; simpl; [by eexists |].
    destruct (multiaddr_NewMultiaddr a) as [maddr|]; [| by apply IH].
    destruct (peer_AddrInfoFromP2pAddr maddr) as [q|]; [| by apply IH].
    destruct fuel as [|fuel']; [lia |].
    unfold connectToPeerWithBackoff. simpl.
    unfold backoffBody, poll, ctx_Done. rewrite Hctx. simpl.
    rewrite (proj2 (Nat.leb_le c (polls e0)) Hc0).
    match goal with |- context [p2p.bootstrapLoop _ _ _ _ _ _ ?e1] =>
      destruct (IH e1) as (e' & -> & Hd & Hs & Hl) end.
    - simpl. lia.
    - by exists e'. }
  destruct (Hloop (BootstrapPeers (cfg n)) e Hc) as (e' & -> & Hd & Hs & Hl).
  by exists e'.
Qed.

End bootstrap.

Import Fixtures.

Lemma backoff_connects_after_failures_run :
  ∃ n' e',
    connectToPeerWithBackoff 7 context_Background peerA node0 third_dial_answers
    = Some (None, n', e') ∧
    peers n' !! "peerA" = Some peerA ∧
    dialled e' = ["peerA"; "peerA"; "peerA"] ∧
    slept e' = [1 * time_Second; 2 * time_Second]%Z.
Proof.
  destruct (backoff_connects_after_failures 7 context_Background peerA node0
              third_dial_answers 2)
    as (n' & e' & Hcall & _ & Hpeer & Hd & Hs & _).
  - reflexivity.
  - lia.
  - lia.
  - intros [|[|k]] Hk; [by eexists | by eexists | lia].
  - reflexivity.
  - exists n', e'. split_and!; [exact Hcall | exact Hpeer | exact Hd | exact Hs].
Defined.

Lemma backoff_stops_when_cancelled_run :
  ∃ e',
    connectToPeerWithBackoff 7 (cancelled_at 2) peerA node0 nobody_up
    = Some (Some context_Canceled, node0, e') ∧
    dialled e' = ["peerA"; "peerA"] ∧
    slept e' = [1 * time_Second; 2 * time_Second]%Z.
Proof.
  destruct (backoff_stops_when_cancelled 7 (cancelled_at 2) peerA node0 nobody_up 2)
    as (e' & Hcall & Hd & Hs & _).
  - reflexivity.
  - lia.
  - lia.
  - intros k _. by eexists.
  - exists e'. split_and!; [exact Hcall | exact Hd | exact Hs].
Defined.

Lemma bootstrap_fills_the_peer_table_run :
  ∃ n' e',
    p2p.connectToBootstrapPeers parse_multiaddr parse_addrinfo 7
      context_Background node0 only_B_up = Some (None, n', e') ∧
    "peerB" ∈ GetPeers n' ∧
    peers n' !! "peerA" = None.
Proof.
  destruct (bootstrap_fills_the_peer_table parse_multiaddr parse_addrinfo 7
              context_Background node0 only_B_up)
    as (n' & e' & Hcall & _ & Hdown & Hup).
  - lia.
  - exists n', e'. split_and!; [exact Hcall | |].
    + apply (Hup eq_refl "peerB" "peerB" peerB).
      * simpl. by repeat constructor.
      * reflexivity.
      * reflexivity.
      * intros k. reflexivity.
    + rewrite (Hdown "peerA"); [reflexivity |]. intros k. by eexists.
Defined.

Lemma bootstrap_under_a_cancelled_context_run :
  ∃ e',
    p2p.connectToBootstrapPeers parse_multiaddr parse_addrinfo 7
      (cancelled_at 0) node0 only_B_up = Some (None, node0, e') ∧
    dialled e' = [].
Proof.
  destruct (bootstrap_under_a_cancelled_context parse_multiaddr parse_addrinfo 7
              (cancelled_at 0) node0 only_B_up 0)
    as (e' & Hcall & Hd & _).
  - reflexivity.
  - simpl. lia.
  - lia.
  - exists e'. split; [exact Hcall | exact Hd].
Defined.

End OverlayMore.

(* ===================================================================== *)
(** * References and collections                                         *)
(* ===================================================================== *)

Module References.
Import Go referencer.

Lemma AddReferences_snoc (cs : list (string * string)) (c : string * string) r :
  AddReferences (cs ++ [c]) r = (AddReference (AddReferences cs r) c.1 c.2).2.
Proof. unfold AddReferences. by rewrite foldl_app. Qed.

(** X19. After any sequence of [AddReference] calls on a new referencer,
    [GetReferences(a)] is the list of the targets of the calls made from
    [a], in call order and with repetitions, and [GetBackReferences(b)] the
    list of the sources of the calls made to [b]; neither ever fails, and
    an identifier never used gets the empty list. So the two indexes
    agree: [b] occurs among the references of [a] as often as [a] among
    the back references of [b]. *)
Theorem references_and_back_references_agree
    (cs : list (string * string)) (a b : string) :
  let r := AddReferences cs NewReferencer in
  GetReferences r a = Ok (filter (λ c, c.1 = a) cs).*2 ∧
  GetBackReferences r b = Ok (filter (λ c, c.2 = b) cs).*1 ∧
  (∀ l k, GetReferences r a = Ok l → GetBackReferences r b = Ok k →
          length (filter (λ x, x = b) l) = length (filter (λ x, x = a) k)).
Proof.
  intros r.
  assert (∀ a b,
            default [] (refs r !! a) = (filter (λ c, c.1 = a) cs).*2 ∧
            default [] (backRefs r !! b) = (filter (λ c, c.2 = b) cs).*1) as Hboth.
  { clear a b. unfold r. clear r.
    induction cs as [|[f t] cs IH] using rev_ind; intros a b.
    - unfold AddReferences. simpl. by rewrite !lookup_empty.
    - rewrite AddReferences_snoc. simpl. rewrite !filter_app, !fmap_app.
      destruct (IH a b) as [IHa IHb]. split.
      + destruct (decide (f = a)) as [-> | Hne].
        * rewrite lookup_insert_eq. simpl. rewrite IHa.
          by rewrite filter_cons_True.
        * rewrite lookup_insert_ne by done. rewrite IHa.
          rewrite filter_cons_False by done. by rewrite filter_nil, app_nil_r.
      + destruct (decide (t = b)) as [-> | Hne].
        * rewrite lookup_insert_eq. simpl. rewrite IHb.
          by rewrite filter_cons_True.
        * rewrite lookup_insert_ne by done. rewrite IHb.
          rewrite filter_cons_False by done. by rewrite filter_nil, app_nil_r. }
  destruct (Hboth a b) as [Ha Hb]. unfold GetReferences, GetBackReferences.
  split_and!; [by rewrite Ha | by rewrite Hb |].
  intros l k [= <-] [= <-]. rewrite Ha, Hb. clear.
  induction cs as [|[f t] cs IH]; [done |].
  rewrite !(filter_cons _ (f, t)). cbn [fst snd].
  destruct (decide (f = a)) as [-> | Hfa]; destruct (decide (t = b)) as [-> | Htb];
    rewrite ?fmap_cons; cbn [fst snd].
  - rewrite !filter_cons_True by done. simpl. by rewrite IH.
  - by rewrite filter_cons_False by done.
  - by rewrite filter_cons_False by done.
  - done.
Qed.

(** ** Collections *)

Lemma calls_snoc (cs : list Call) (c : Call) (o : Organizer) :
  calls (cs ++ [c]) o = call (calls cs o) c.
Proof. unfold calls. by rewrite foldl_app. Qed.

(** X20. [CreateCollection] files every collection under the empty
    identifier. After any sequence of [CreateCollection] and
    [AddToCollection] calls on a new organizer: every collection created
    is still allocated, each with the empty [ID]; [GetCollection] fails
    for every identifier but the empty one, and for that one returns the
    collection created last (and fails if none was); the collections
    created before it can no more be reached through the organizer. *)
Theorem only_the_last_collection_is_kept (cs : list Call) (r : Referencer) :
  let o := calls cs (NewOrganizer r) in
  Name <$> heap o = created cs ∧
  Forall (λ c, ID c = EmptyString) (heap o) ∧
  (∀ id, id ≠ EmptyString → GetCollection id o = Err ErrCollectionNotFound) ∧
  (∀ id objectID, id ≠ EmptyString →
     AddToCollection id objectID o = (Some ErrCollectionNotFound, o)) ∧
  match created cs with
  | [] => GetCollection EmptyString o = Err ErrCollectionNotFound
  | _ :: _ =>
      ∃ ptr, GetCollection EmptyString o = Ok ptr ∧ S ptr = length (heap o) ∧
             Name <$> heap o !! ptr = last (created cs)
  end.
Proof.
  intros o.
  assert (Name <$> heap o = created cs ∧
          Forall (λ c, ID c = EmptyString) (heap o) ∧
          (∀ id, id ≠ EmptyString → collections o !! id = None) ∧
          collections o !! EmptyString =
            match length (heap o) with O => None | S n => Some n end)
    as (Hnames & Hids & Hother & Hlast).
  { unfold o. clear o. induction cs as [|c cs IH] using rev_ind.
    - unfold calls. simpl. split_and!; try done.
    - rewrite calls_snoc. destruct IH as (Hn & Hi & Ho & Hl).
      unfold created. rewrite omap_app. fold (created cs).
      destruct c as [name | cid oid]; simpl.
      + split_and!.
        * by rewrite fmap_app, Hn.
        * apply Forall_app. split; [done |]. by constructor.
        * intros id Hid. rewrite lookup_insert_ne by done. by apply Ho.
        * rewrite lookup_insert_eq, length_app. simpl.
          by rewrite Nat.add_1_r.
      + rewrite app_nil_r. unfold AddToCollection.
        destruct (collections (calls cs (NewOrganizer r)) !! cid) as [ptr|] eqn:Hc;
          simpl; [| done].
        split_and!.
        * rewrite <- Hn. apply list_eq. intros i.
          rewrite !list_lookup_fmap.
          destruct (decide (i = ptr)) as [-> | Hne].
          -- rewrite list_lookup_alter_eq. by destruct (heap _ !! ptr).
          -- by rewrite list_lookup_alter_ne.
        * apply Forall_alter; [done |]. by intros c Hc'.
        * done.
        * by rewrite Hl, length_alter. }
  split_and!; [done | done | | |].
  - intros id Hid. unfold GetCollection. by rewrite Hother.
  - intros id oid Hid. unfold AddToCollection. by rewrite Hother.
  - unfold GetCollection. rewrite Hlast. rewrite <- Hnames.
    destruct (heap o) as [|c0 h] eqn:Hh; [done |].
    rewrite fmap_cons. eexists. split; [done |]. split; [done |].
    rewrite <- fmap_cons, fmap_last, last_lookup. done.
Qed.

(** X21. Two collections created one after the other cannot be told apart
    by their [ID]: an [AddToCollection] under the [ID] of the first, as
    [CreateCollection] returned it, puts the object into the second, and
    the first stays empty; [GetCollection] of that [ID] returns the
    second. *)
Theorem AddToCollection_goes_to_the_other_collection
    (o : Organizer) (name1 name2 objectID : string) :
  ∃ p1 p2 o1 o2 o3 c1,
    CreateCollection name1 o = (Ok p1, o1) ∧
    CreateCollection name2 o1 = (Ok p2, o2) ∧
    p1 ≠ p2 ∧
    heap o2 !! p1 = Some c1 ∧ Name c1 = name1 ∧
    AddToCollection (ID c1) objectID o2 = (None, o3) ∧
    Objects <$> heap o3 !! p1 = Some [] ∧
    Objects <$> heap o3 !! p2 = Some [objectID] ∧
    GetCollection (ID c1) o3 = Ok p2.
Proof.
  unfold CreateCollection. simpl.
  eexists _, _, _, _, _, {| ID := EmptyString; Name := name1; Objects := [] |}.
  split; [done |]. split; [done |]. simpl.
  assert (length (heap o) ≠ length (heap o ++ [{| ID := EmptyString; Name := name1;
                                                   Objects := [] |}])) as Hne.
  { rewrite length_app. simpl. lia. }
  split; [done |]. split.
  { rewrite <- app_assoc. by rewrite lookup_app_r, Nat.sub_diag by lia. }
  split; [done |].
  unfold AddToCollection. simpl. rewrite lookup_insert_eq.
  split; [done |]. simpl. split_and!.
  - rewrite list_lookup_alter_ne by done.
    rewrite <- app_assoc. by rewrite lookup_app_r, Nat.sub_diag by lia.
  - rewrite list_lookup_alter_eq.
    by rewrite lookup_app_r, Nat.sub_diag by lia.
  - unfold GetCollection. simpl. by rewrite lookup_insert_eq.
Qed.

End References.

(* ===================================================================== *)
(** * The importers                                                      *)
(* ===================================================================== *)

Module Importers.
Import Go importers.

(** ** Indexing and slicing within bounds *)

Lemma at_index_Returns {A} (l : list A) (i : Z) :
  (0 ≤ i < len l)%Z → ∃ x, at_index l i = Returns x ∧ l !! Z.to_nat i = Some x.
Proof.
  intros [Hlo Hhi]. unfold at_index.
  destruct (Z.ltb_spec i 0); [lia |].
  destruct (lookup_lt_is_Some_2 l (Z.to_nat i)) as [x Hx]; [unfold len in Hhi; lia |].
  exists x. by rewrite Hx.
Qed.

Lemma slice_Returns {A} (l : list A) (lo hi : Z) :
  (0 ≤ lo ≤ hi)%Z → (hi ≤ len l)%Z →
  slice l lo hi = Returns (take (Z.to_nat (hi - lo)) (drop (Z.to_nat lo) l)).
Proof.
  intros [H0 H1] H2. unfold slice.
  destruct (Z.leb_spec 0 lo); [| lia].
  destruct (Z.leb_spec lo hi); [| lia].
  destruct (Z.leb_spec hi (len l)); [done | lia].
Qed.

Lemma len_slice {A} (l k : list A) (lo hi : Z) :
  slice l lo hi = Returns k → len k = (hi - lo)%Z.
Proof.
  unfold slice.
  destruct (Z.leb_spec 0 lo); [| done].
  destruct (Z.leb_spec lo hi); [| done].
  destruct (Z.leb_spec hi (len l)); [| done].
  intros [= <-]. unfold len in *. rewrite length_take, length_drop. lia.
Qed.

(** ** [strconv.Atoi] gives an [int] *)

Lemma parseDigits_nonneg (s : string) :
  ∀ n r, (0 ≤ n)%Z → parseDigits s n = Ok r → (0 ≤ r)%Z.
Proof.
  induction s as [|c s IH]; intros n r Hn; simpl.
  - by intros [= <-].
  - destruct (is_digit c); [| done].
    destruct (_ >? _)%Z; [done |]. apply IH. lia.
Qed.

Lemma Atoi_range (s : string) (k : Z) :
  strconv_Atoi s = Ok k → (- 2 ^ 63 ≤ k < 2 ^ 63)%Z.
Proof.
  unfold strconv_Atoi. destruct (sign_and_body s) as [neg body].
  destruct (String.eqb body EmptyString); [done |].
  destruct (parseDigits body 0) as [un|] eqn:Hd; [| done].
  apply parseDigits_nonneg in Hd; [| done].
  destruct neg; simpl.
  - destruct (Z.gtb_spec un (2 ^ 63)); [done |]. intros [= <-]. lia.
  - destruct (Z.geb_spec un (2 ^ 63)); [done |]. intros [= <-]. lia.
Qed.

Lemma parseIndex_Ok_bounds (indexStr : string) (maxLen i : Z) :
  (0 ≤ maxLen < 2 ^ 63)%Z → parseIndex indexStr maxLen = Ok i → (0 ≤ i < maxLen)%Z.
Proof.
  intros Hmax. unfold parseIndex.
  destruct (strconv_Atoi indexStr) as [k0|err] eqn:Hk; [| done].
  pose proof (Atoi_range _ _ Hk) as Hr.
  destruct (Z.ltb_spec k0 0).
  - unfold add64. rewrite RoundTrip.wrap64_small by lia.
    destruct (Z.ltb_spec (maxLen + k0) 0); [done |].
    destruct (Z.geb_spec (maxLen + k0) maxLen); [done |].
    intros [= <-]. lia.
  - unfold add64. rewrite RoundTrip.wrap64_small by lia.
    destruct (Z.ltb_spec (k0 + -1) 0); [done |].
    destruct (Z.geb_spec (k0 + -1) maxLen); [done |].
    intros [= <-]. lia.
Qed.

(** X22. [parseIndex] for a list of [maxLen] elements: whatever it returns
    without an error is an index of the list; the string of [k] with
    [1 ≤ k ≤ maxLen] gives [k - 1], that of [-k] gives [maxLen - k], so
    [-1] is the last element; and [0] and every number further out is an
    error. *)
Theorem parseIndex_in_bounds (indexStr : string) (maxLen : Z) :
  (0 ≤ maxLen < 2 ^ 63)%Z →
  (∀ i, parseIndex indexStr maxLen = Ok i → (0 ≤ i < maxLen)%Z) ∧
  (∀ k, strconv_Atoi indexStr = Ok k →
        ((1 ≤ k ≤ maxLen)%Z → parseIndex indexStr maxLen = Ok (k - 1)%Z) ∧
        ((- maxLen ≤ k ≤ -1)%Z → parseIndex indexStr maxLen = Ok (maxLen + k)%Z) ∧
        ((k = 0 ∨ maxLen < k ∨ k < - maxLen)%Z →
         ∃ err, parseIndex indexStr maxLen = Err err)).
Proof.
  intros Hmax. split; [intros i; by apply parseIndex_Ok_bounds |].
  intros k Hk. unfold parseIndex. rewrite Hk.
  pose proof (Atoi_range _ _ Hk) as Hr.
  assert ((k < 0)%Z → add64 maxLen k = (maxLen + k)%Z) as Hneg.
  { intros ?. unfold add64. apply RoundTrip.wrap64_small. lia. }
  assert ((0 ≤ k)%Z → add64 k (-1) = (k - 1)%Z) as Hpos.
  { intros ?. unfold add64. rewrite RoundTrip.wrap64_small; lia. }
  split_and!.
  - intros Hk1. destruct (Z.ltb_spec k 0); [lia |]. rewrite Hpos by done.
    destruct (Z.ltb_spec (k - 1) 0); [lia |].
    destruct (Z.geb_spec (k - 1) maxLen); [lia | done].
  - intros Hk1. destruct (Z.ltb_spec k 0); [| lia]. rewrite Hneg by done.
    destruct (Z.ltb_spec (maxLen + k) 0); [lia |].
    destruct (Z.geb_spec (maxLen + k) maxLen); [lia | done].
  - intros Hout. destruct (Z.ltb_spec k 0).
    + rewrite Hneg by done.
      destruct (Z.ltb_spec (maxLen + k) 0); [by eexists |]. lia.
    + rewrite Hpos by done.
      destruct (Z.ltb_spec (k - 1) 0); [by eexists |].
      destruct (Z.geb_spec (k - 1) maxLen); [by eexists | lia].
Qed.

(** ** Wavefront OBJ: no index leaves its list *)

Lemma strings_Split_cons (s : string) (sep : ascii) :
  ∃ x r, strings_Split s sep = x :: r.
Proof.
  induction s as [|c s (x & r & IH)]; simpl; [by eexists _, _ |].
  destruct (Ascii.eqb c sep); [by eexists _, _ |]. rewrite IH. by eexists _, _.
Qed.

(** An index that [parseIndex] accepted is read without a panic. *)
Lemma at_parsed_index {A} (l : list A) (indexStr : string) (i : Z) :
  (len l < 2 ^ 63)%Z → parseIndex indexStr (len l) = Ok i →
  ∃ x, at_index l i = Returns x.
Proof.
  intros Hl Hp. apply parseIndex_Ok_bounds in Hp; [| unfold len in *; lia].
  destruct (at_index_Returns l i Hp) as (x & Hx & _). by exists x.
Qed.

Lemma faceCorner_total (vertexData : string)
    (positions normals : list vector3) (texCoords : list vector2) :
  (len positions < 2 ^ 63)%Z → (len normals < 2 ^ 63)%Z → (len texCoords < 2 ^ 63)%Z →
  ∃ r, faceCorner vertexData positions normals texCoords = Returns r.
Proof.
  intros Hp Hn Ht. unfold faceCorner.
  destruct (strings_Split_cons vertexData "/") as (i0 & rest & ->).
  change (at_index (i0 :: rest) 0) with (Returns i0). simpl.
  destruct (parseIndex i0 (len positions)) as [posIndex|] eqn:Hpos; [| by eexists].
  destruct (at_parsed_index _ _ _ Hp Hpos) as [position ->]. simpl.
  assert (∃ i1, (if (len (i0 :: rest) >? 1)%Z then at_index (i0 :: rest) 1
                 else Returns EmptyString) = Returns i1) as [i1 ->].
  { destruct (Z.gtb_spec (len (i0 :: rest)) 1); [| by eexists].
    destruct rest as [|i1 rest]; [unfold len in *; simpl in *; lia |]. by eexists. }
  simpl.
  assert (∃ withTex,
    (if ((len (i0 :: rest) >? 1)%Z && negb (String.eqb i1 EmptyString))%bool then
       match parseIndex i1 (len texCoords) with
       | Err err => Returns (Err (wrapf "invalid texture coordinate index" err))
       | Ok texIndex => tex ← at_index texCoords texIndex; Returns (Ok tex)
       end
     else Returns (Ok zero2)) = Returns withTex) as [withTex ->].
  { destruct (_ && _)%bool; [| by eexists].
    destruct (parseIndex i1 (len texCoords)) as [texIndex|] eqn:Htex; [| by eexists].
    destruct (at_parsed_index _ _ _ Ht Htex) as [tex ->]. by eexists. }
  simpl. destruct withTex as [tex|]; [| by eexists].
  assert (∃ i2, (if (len (i0 :: rest) >? 2)%Z then at_index (i0 :: rest) 2
                 else Returns EmptyString) = Returns i2) as [i2 ->].
  { destruct (Z.gtb_spec (len (i0 :: rest)) 2); [| by eexists].
    destruct rest as [|i1' [|i2 rest]]; [unfold len in *; simpl in *; lia .. |].
    by eexists. }
  simpl.
  assert (∃ withNormal,
    (if ((len (i0 :: rest) >? 2)%Z && negb (String.eqb i2 EmptyString))%bool then
       match parseIndex i2 (len normals) with
       | Err err => Returns (Err (wrapf "invalid normal index" err))
       | Ok normalIndex => normal ← at_index normals normalIndex; Returns (Ok normal)
       end
     else Returns (Ok zero3)) = Returns withNormal) as [withNormal ->].
  { destruct (_ && _)%bool; [| by eexists].
    destruct (parseIndex i2 (len normals)) as [normalIndex|] eqn:Hnorm; [| by eexists].
    destruct (at_parsed_index _ _ _ Hn Hnorm) as [normal ->]. by eexists. }
  simpl. destruct withNormal; by eexists.
Qed.

Lemma faceLoop_spec (faceData : list string)
    (positions normals : list vector3) (texCoords : list vector2) :
  (len positions < 2 ^ 63)%Z → (len normals < 2 ^ 63)%Z → (len texCoords < 2 ^ 63)%Z →
  ∀ vi, ∃ e new,
    faceLoop faceData positions normals texCoords vi
    = Returns (e, {| vertices := vertices vi ++ new |}) ∧
    (e = None → length new = length faceData).
Proof.
  intros Hp Hn Ht. induction faceData as [|vd faceData IH]; intros vi; simpl.
  - exists None, []. rewrite app_nil_r. by destruct vi.
  - destruct (faceCorner_total vd positions normals texCoords Hp Hn Ht) as [r ->]. simpl.
    destruct r as [vertex | err].
    + destruct (IH {| vertices := vertices vi ++ [vertex] |}) as (e & new & -> & Hlen).
      simpl. exists e, (vertex :: new). rewrite <- app_assoc. split; [done |].
      intros He. simpl. by rewrite (Hlen He).
    + exists (Some err), []. rewrite app_nil_r. by destruct vi.
Qed.

Lemma processFace_spec (faceData : list string)
    (positions normals : list vector3) (texCoords : list vector2) vi :
  (len positions < 2 ^ 63)%Z → (len normals < 2 ^ 63)%Z → (len texCoords < 2 ^ 63)%Z →
  ∃ e new,
    processFace faceData positions normals texCoords vi
    = Returns (e, {| vertices := vertices vi ++ new |}) ∧
    (e = None → length new = length faceData).
Proof.
  intros Hp Hn Ht. unfold processFace. destruct (_ <? _)%Z.
  - eexists _, []. rewrite app_nil_r. by destruct vi.
  - by apply faceLoop_spec.
Qed.

Section obj.
Context (strings_TrimSpace : string → string)
        (strings_Fields : string → list string)
        (strconv_ParseFloat : string → result float64).

Abbreviation parseVector3 := (parseVector3 strconv_ParseFloat).
Abbreviation parseVector2 := (parseVector2 strconv_ParseFloat).
Abbreviation objLine := (objLine strings_TrimSpace strings_Fields strconv_ParseFloat).
Abbreviation objLoop := (objLoop strings_TrimSpace strings_Fields strconv_ParseFloat).
Abbreviation ImportFromOBJ :=
  (ImportFromOBJ strings_TrimSpace strings_Fields strconv_ParseFloat).
Abbreviation corners := (corners strings_TrimSpace strings_Fields).

Lemma parseVector3_total (values : list string) : ∃ r, parseVector3 values = Returns r.
Proof.
  unfold importers.parseVector3. destruct (Z.ltb_spec (len values) 3); [by eexists |].
  destruct values as [|v0 [|v1 [|v2 rest]]]; [unfold len in *; simpl in *; lia .. |].
  unfold at_index. simpl.
  destruct (strconv_ParseFloat v0); [| by eexists].
  destruct (strconv_ParseFloat v1); [| by eexists].
  destruct (strconv_ParseFloat v2); by eexists.
Qed.

Lemma parseVector2_total (values : list string) : ∃ r, parseVector2 values = Returns r.
Proof.
  unfold importers.parseVector2. destruct (Z.ltb_spec (len values) 2); [by eexists |].
  destruct values as [|v0 [|v1 rest]]; [unfold len in *; simpl in *; lia .. |].
  unfold at_index. simpl.
  destruct (strconv_ParseFloat v0); [| by eexists].
  destruct (strconv_ParseFloat v1); by eexists.
Qed.

(** One line: no panic; the three lists grow by one element at most; a
    line that lets the loop go on adds one vertex per corner of the face
    it declares, and a line that stops it brings an error. *)
Lemma objLine_spec (text : string) (st : ObjState) :
  (len (positions st) < 2 ^ 63)%Z → (len (normals st) < 2 ^ 63)%Z →
  (len (texCoords st) < 2 ^ 63)%Z →
  ∃ t, objLine text st = Returns t ∧
       match t with
       | Continue st' =>
           (len (positions st') ≤ len (positions st) + 1)%Z ∧
           (len (normals st') ≤ len (normals st) + 1)%Z ∧
           (len (texCoords st') ≤ len (texCoords st) + 1)%Z ∧
           ∃ new, vertices (importer st') = vertices (importer st) ++ new ∧
                  length new = corners text
       | Return (e, vi) =>
           is_Some e ∧ ∃ new, vertices vi = vertices (importer st) ++ new
       end.
Proof.
  intros Hp Hn Ht. unfold importers.objLine, importers.corners.
  assert (∀ l : list Vertex, ∃ new, l = l ++ new ∧ length new = 0) as Hsame.
  { intros l. exists []. by rewrite app_nil_r. }
  assert (∀ l : list Vertex, ∃ new, l = l ++ new) as Hsame'.
  { intros l. exists []. by rewrite app_nil_r. }
  destruct (comment_or_blank (strings_TrimSpace text)).
  { eexists. split; [done |]. split_and!; [lia .. | apply Hsame]. }
  destruct (Z.ltb_spec (len (strings_Fields (strings_TrimSpace text))) 2) as [Hlt | Hge].
  { eexists. split; [done |]. split_and!; [lia .. |].
    destruct (strings_Fields _) as [|f0 [|f1 rest]];
      [apply Hsame | | unfold len in Hlt; simpl in Hlt; lia].
    simpl. destruct (String.eqb f0 "f"); apply Hsame. }
  destruct (strings_Fields (strings_TrimSpace text)) as [|f0 [|f1 rest]] eqn:Hfields;
    [unfold len in Hge; simpl in Hge; lia .. |].
  change (at_index (f0 :: f1 :: rest) 0) with (Returns f0). simpl.
  destruct (String.eqb f0 "v") eqn:Hv.
  { apply String.eqb_eq in Hv as ->. simpl.
    destruct (Z.ltb_spec (len ("v" :: f1 :: rest)) 4).
    { eexists. split; [done |]. split; [by eexists | apply Hsame']. }
    rewrite slice_Returns by lia. simpl.
    match goal with |- context [parseVector3 ?v] =>
      destruct (parseVector3_total v) as [[pos|err] ->] end; simpl.
    - eexists. split; [done |]. simpl. unfold len. rewrite length_app. simpl.
      split_and!; [lia .. | apply Hsame].
    - eexists. split; [done |]. split; [by eexists | apply Hsame']. }
  destruct (String.eqb f0 "vn") eqn:Hvn.
  { apply String.eqb_eq in Hvn as ->. simpl.
    destruct (Z.ltb_spec (len ("vn" :: f1 :: rest)) 4).
    { eexists. split; [done |]. split; [by eexists | apply Hsame']. }
    rewrite slice_Returns by lia. simpl.
    match goal with |- context [parseVector3 ?v] =>
      destruct (parseVector3_total v) as [[normal|err] ->] end; simpl.
    - eexists. split; [done |]. simpl. unfold len. rewrite length_app. simpl.
      split_and!; [lia .. | apply Hsame].
    - eexists. split; [done |]. split; [by eexists | apply Hsame']. }
  destruct (String.eqb f0 "vt") eqn:Hvt.
  { apply String.eqb_eq in Hvt as ->. simpl.
    destruct (Z.ltb_spec (len ("vt" :: f1 :: rest)) 3).
    { eexists. split; [done |]. split; [by eexists | apply Hsame']. }
    rewrite slice_Returns by lia. simpl.
    match goal with |- context [parseVector2 ?v] =>
      destruct (parseVector2_total v) as [[tex|err] ->] end; simpl.
    - eexists. split; [done |]. simpl. unfold len. rewrite length_app. simpl.
      split_and!; [lia .. | apply Hsame].
    - eexists. split; [done |]. split; [by eexists | apply Hsame']. }
  destruct (String.eqb f0 "f") eqn:Hf.
  { rewrite slice_Returns by (unfold len; simpl; lia). simpl.
    replace (Z.to_nat (len (f0 :: f1 :: rest) - 1)) with (length (f1 :: rest))
      by (unfold len; simpl; lia).
    rewrite firstn_all.
    destruct (processFace_spec (f1 :: rest) (positions st) (normals st) (texCoords st)
                (importer st) Hp Hn Ht) as (e & new & -> & Hlen). simpl.
    destruct e as [err|].
    - eexists. split; [done |]. split; [by eexists | by eexists]. 
    - eexists. split; [done |]. simpl. split_and!; [lia .. |].
      exists new. split; [done |]. by apply Hlen. }
  eexists. split; [done |]. split_and!; [lia .. | apply Hsame].
Qed.

Lemma objLoop_spec (scanned : list string) (scan_err : option error) :
  ∀ st,
    (len (positions st) + len scanned < 2 ^ 63)%Z →
    (len (normals st) + len scanned < 2 ^ 63)%Z →
    (len (texCoords st) + len scanned < 2 ^ 63)%Z →
    ∃ e new,
      objLoop scanned scan_err st
      = Returns (e, {| vertices := vertices (importer st) ++ new |}) ∧
      (e = None → scan_err = None ∧ length new = sum_list (corners <$> scanned)).
Proof.
  induction scanned as [|text scanned IH]; intros st Hp Hn Ht; simpl.
  - exists scan_err, []. rewrite app_nil_r. split; [by destruct (importer st) |]. done.
  - unfold len in Hp, Hn, Ht. simpl in Hp, Hn, Ht.
    destruct (objLine_spec text st) as (t & -> & Ht'); [unfold len; lia .. |]. simpl.
    destruct t as [st' | [e vi]].
    + destruct Ht' as (Hp' & Hn' & Htx' & new1 & Hv1 & Hlen1).
      destruct (IH st') as (e & new & -> & He); [unfold len in *; lia .. |].
      exists e, (new1 ++ new). rewrite Hv1, <- app_assoc. split; [done |].
      intros Hnone. destruct (He Hnone) as [-> Hlen]. split; [done |].
      rewrite length_app, Hlen1, Hlen. done.
    + destruct Ht' as ([err ->] & new & Hv). exists (Some err), new.
      split; [| done]. rewrite <- Hv. by destruct vi.
Qed.

(** X23. [ImportFromOBJ] never panics: whatever the lines are, and whatever
    [strings.TrimSpace], [strings.Fields] and [strconv.ParseFloat] make of
    them, no index leaves its slice; the call returns, and the importer
    then holds the vertices it held, followed by those of the faces read
    before the end or the error. *)
Theorem ImportFromOBJ_never_panics (scanned : list string) (scan_err : option error)
    (vi : VertexImporter) :
  (len scanned < 2 ^ 63)%Z →
  (∀ p, ImportFromOBJ scanned scan_err vi ≠ Panics p) ∧
  ∃ e vi', ImportFromOBJ scanned scan_err vi = Returns (e, vi') ∧
           vertices vi `prefix_of` vertices vi'.
Proof.
  intros Hlen. unfold importers.ImportFromOBJ.
  destruct (objLoop_spec scanned scan_err
              {| positions := []; normals := []; texCoords := []; importer := vi |})
    as (e & new & -> & _); [simpl; unfold len in *; simpl; lia .. |].
  split; [done |]. eexists _, _. split; [done |]. simpl. by eexists.
Qed.

(** X24. Only faces make vertices. When [ImportFromOBJ] returns nil, the
    scanner had stopped without an error and the importer has gained one
    vertex for each corner of each face line, in order, after those it
    held: the positions, normals and texture coordinates a file lists
    give no vertex unless a face names them. *)
Theorem ImportFromOBJ_one_vertex_per_corner (scanned : list string)
    (scan_err : option error) (vi vi' : VertexImporter) :
  (len scanned < 2 ^ 63)%Z →
  ImportFromOBJ scanned scan_err vi = Returns (None, vi') →
  scan_err = None ∧
  (∃ new, vertices vi' = vertices vi ++ new ∧
          length new = sum_list (corners <$> scanned)) ∧
  (Forall (λ text, corners text = 0) scanned → vertices vi' = vertices vi).
Proof.
  intros Hlen. unfold importers.ImportFromOBJ.
  destruct (objLoop_spec scanned scan_err
              {| positions := []; normals := []; texCoords := []; importer := vi |})
    as (e & new & -> & He); [simpl; unfold len in *; simpl; lia .. |].
  intros [= -> <-]. destruct (He eq_refl) as [-> Hnew]. simpl in *.
  split_and!; [done | by exists new |].
  intros Hnone.
  assert (sum_list (corners <$> scanned) = 0) as Hzero.
  { clear -Hnone. induction Hnone as [|text l Ht _ IH]; [done |].
    rewrite fmap_cons. simpl. by rewrite Ht, IH. }
  rewrite Hzero in Hnew. apply length_zero_iff_nil in Hnew as ->.
  by rewrite app_nil_r.
Qed.

End obj.

(** ** Binary FBX *)

Lemma wrap32_small (z : Z) : (0 ≤ z < 2 ^ 32)%Z → wrap32 z = z.
Proof. intros Hz. unfold wrap32. by apply Z.mod_small. Qed.

Lemma at_index_cases {A} (l : list A) (i : Z) :
  (∃ x, at_index l i = Returns x ∧ (0 ≤ i < len l)%Z) ∨
  (at_index l i = Panics IndexOutOfRange ∧ ¬ (0 ≤ i < len l)%Z).
Proof.
  unfold at_index. destruct (Z.ltb_spec i 0); [right; split; [done | lia] |].
  destruct (l !! Z.to_nat i) as [x|] eqn:Hx.
  - left. exists x. split; [done |]. apply lookup_lt_Some in Hx. unfold len. lia.
  - right. split; [done |]. apply lookup_ge_None in Hx. unfold len. lia.
Qed.

(** The float in the [k]-th place of an array: its eight bytes, after the
    four of the length. *)
Abbreviation float_at data :=
  (λ k : nat, le_uint (take 8 (drop (4 + 8 * k) data))).

Lemma floatLoop_spec (data : bytes) (arrayLen : Z) (count : nat) :
  (len data + 8 < 2 ^ 32)%Z →
  (4 ≤ len data)%Z →
  (0 ≤ arrayLen < 2 ^ 32)%Z →
  Z.of_nat count = Z.min arrayLen ((len data - 4) / 8) →
  ∀ fuel j result,
    j ≤ count → count - j < fuel →
    floatLoop fuel data arrayLen (Z.of_nat j) (4 + 8 * Z.of_nat j) result
    = Some (Returns (result ++ (float_at data <$> seq j (count - j)))).
Proof.
  intros Hlen H4 Harr Hcount.
  pose proof (Z.div_mod (len data - 4) 8 ltac:(lia)) as Hdm.
  pose proof (Z.mod_pos_bound (len data - 4) 8 ltac:(lia)) as Hmb.
  induction fuel as [|fuel IH]; intros j result Hj Hfuel; [lia |]. simpl.
  rewrite (wrap32_small (len data)) by lia.
  rewrite (wrap32_small (4 + 8 * Z.of_nat j + 8)) by lia.
  destruct (decide (j = count)) as [-> | Hne].
  - rewrite Nat.sub_diag. simpl. rewrite app_nil_r.
    destruct (Z.ltb_spec (Z.of_nat count) arrayLen); [| done].
    destruct (Z.leb_spec (4 + 8 * Z.of_nat count + 8) (len data)); [lia | done].
  - destruct (Z.ltb_spec (Z.of_nat j) arrayLen); [| lia].
    destruct (Z.leb_spec (4 + 8 * Z.of_nat j + 8) (len data)); [| lia]. simpl.
    rewrite slice_Returns by lia.
    rewrite (wrap32_small (Z.of_nat j + 1)) by lia.
    replace (Z.of_nat j + 1)%Z with (Z.of_nat (S j)) by lia.
    replace (4 + 8 * Z.of_nat j + 8)%Z with (4 + 8 * Z.of_nat (S j))%Z by lia.
    rewrite IH by lia. do 2 f_equal. rewrite <- app_assoc. f_equal.
    replace (count - j) with (S (count - S j)) by lia. simpl. f_equal.
    f_equal. f_equal; [lia |]. f_equal. lia.
Qed.

(** X25. [extractFloatArray] on a slice shorter than 4 GiB: nothing from
    fewer than four bytes; else the first four bytes give a count [n], and
    the result holds the floats whose bits are the eight-byte groups that
    follow, little-endian and in order: [n] of them, or as many whole
    groups as the data has if that is fewer. Bytes after them are
    ignored, and a count larger than the data is no error. *)
Theorem extractFloatArray_reads_the_whole_groups (data : bytes) :
  (len data + 8 < 2 ^ 32)%Z →
  ((len data < 4)%Z → extractFloatArray data = Some (Returns [])) ∧
  ((4 ≤ len data)%Z →
   let n := le_uint (take 4 data) in
   let count := Z.to_nat (Z.min n ((len data - 4) / 8)) in
   extractFloatArray data = Some (Returns (float_at data <$> seq 0 count)) ∧
   (n < 2 ^ 32)%Z).
Proof.
  intros Hlen. split.
  - intros Hlt. unfold extractFloatArray.
    destruct (Z.ltb_spec (len data) 4); [done | lia].
  - intros H4 n count. unfold extractFloatArray.
    destruct (Z.ltb_spec (len data) 4); [lia |].
    rewrite slice_Returns by lia. simpl. rewrite drop_0.
    change (Z.to_nat (4 - 0)) with 4.
    assert (∀ b : bytes, length b ≤ 4 → (0 ≤ le_uint b < 256 ^ Z.of_nat (length b))%Z)
      as Hle.
    { induction b as [|x b IH]; intros Hb; simpl; [lia |].
      specialize (IH ltac:(simpl in Hb; lia)).
      assert (0 ≤ Z.of_N (Byte.to_N x) < 256)%Z.
      { pose proof (Byte.to_N_bounded x). lia. }
      rewrite Nat2Z.inj_succ, Z.pow_succ_r by lia. fold (le_uint b). lia. }
    assert (0 ≤ n < 2 ^ 32)%Z as Hn.
    { specialize (Hle (take 4 data)). rewrite length_take in Hle.
      destruct Hle as [H0 H1]; [lia |]. split; [done |].
      eapply Z.lt_le_trans; [exact H1 |].
      change (2 ^ 32)%Z with (256 ^ 4)%Z. apply Z.pow_le_mono_r; lia. }
    split; [| lia].
    pose proof (Z.div_pos (len data - 4) 8 ltac:(lia) ltac:(lia)).
    assert (Z.of_nat count = Z.min n ((len data - 4) / 8)) as Hcount.
    { unfold count. lia. }
    assert (count - 0 < S (length data)) as Hfuel.
    { assert (Z.of_nat count ≤ len data)%Z; [| unfold len in *; lia].
      pose proof (Z.div_mod (len data - 4) 8 ltac:(lia)).
      pose proof (Z.mod_pos_bound (len data - 4) 8 ltac:(lia)). lia. }
    pose proof (floatLoop_spec data n count Hlen H4 Hn Hcount
                  (S (length data)) 0 [] ltac:(lia) Hfuel) as Hloop.
    rewrite Nat.sub_0_r in Hloop. exact Hloop.
Qed.

(** A node that is not read for geometry sends the loop on to the end
    offset its header gives. *)
Lemma geometryBody_plain (data : bytes) (st : GeometryState) (E : Z) (name : bytes) :
  (len data < 2 ^ 32)%Z →
  node_at data (offset st) = Some (E, name) →
  (0 < E ≤ len data)%Z →
  name ∉ geometry_names →
  geometryBody data st
  = Some (Returns (Continue {| offset := E; geo_vertices := geo_vertices st;
                               geo_normals := geo_normals st;
                               geo_uvs := geo_uvs st |})).
Proof.
  intros Hlen Hnode HE Hname. unfold node_at in Hnode.
  destruct (slice data (offset st) (offset st + 4)) as [header|] eqn:Hh; [| done].
  destruct (at_index_cases data (offset st + 13)) as [(nb & Hb & Hbr) | [Hb _]];
    rewrite Hb in Hnode; [| done].
  destruct (slice data (offset st + 14) (offset st + 14 + Z.of_N (Byte.to_N nb)))
    as [name'|] eqn:Hn; [| done].
  injection Hnode as HE' ->.
  assert (0 ≤ offset st ∧ offset st + 4 ≤ len data)%Z as [Ho0 Ho4].
  { revert Hh. unfold slice.
    destruct (Z.leb_spec 0 (offset st)); [| done].
    destruct (Z.leb_spec (offset st) (offset st + 4)); [| done].
    destruct (Z.leb_spec (offset st + 4) (len data)); [| done]. lia. }
  assert (offset st + 14 + Z.of_N (Byte.to_N nb) ≤ len data)%Z as Hnl.
  { revert Hn. unfold slice.
    destruct (Z.leb_spec 0 (offset st + 14)); [| done].
    destruct (Z.leb_spec (offset st + 14) (offset st + 14 + Z.of_N (Byte.to_N nb)));
      [| done].
    destruct (Z.leb_spec (offset st + 14 + Z.of_N (Byte.to_N nb)) (len data)); [| done].
    lia. }
  assert (0 ≤ Z.of_N (Byte.to_N nb))%Z by lia.
  unfold geometryBody. rewrite (wrap32_small (len data)) by lia.
  destruct (Z.ltb_spec (offset st) (len data)); [| lia]. simpl.
  rewrite (wrap32_small (offset st + 4)) by lia.
  destruct (Z.gtb_spec (offset st + 4) (len data)); [lia |].
  rewrite Hh, HE'.
  destruct (Z.eqb_spec E 0); [lia |].
  destruct (Z.gtb_spec E (len data)); [lia |]. simpl.
  rewrite (wrap32_small (offset st + 13)) by lia. rewrite Hb.
  rewrite (wrap32_small (offset st + 13 + 1)) by lia.
  replace (offset st + 13 + 1)%Z with (offset st + 14)%Z by lia.
  rewrite (wrap32_small (offset st + 14 + Z.of_N (Byte.to_N nb))) by lia.
  destruct (Z.gtb_spec (offset st + 14 + Z.of_N (Byte.to_N nb)) (len data)); [lia |].
  rewrite Hn.
  assert (name ≠ list_byte_of_string "Vertices" ∧
          name ≠ list_byte_of_string "Normals" ∧
          name ≠ list_byte_of_string "UV") as (N1 & N2 & N3).
  { unfold geometry_names in Hname.
    split_and!; intros ->; apply Hname; by repeat constructor. }
  rewrite !bool_decide_eq_false_2 by done. done.
Qed.

(** X26. [ImportFromFBX] can fail to return. In a file with the FBX magic
    and a version of 7100 or more, let the first node give the end offset
    [E] and let the node at [E] give [E] again, neither being named
    [Vertices], [Normals] or [UV]: the loop of [extractGeometryData] comes
    back to offset [E] for ever, so neither it nor
    [parseFBXBinary] nor [ImportFromFBX] returns, however many turns the
    loop is given. *)
Theorem ImportFromFBX_never_returns (file spare : bytes) (E : Z) (name0 name1 : bytes)
    (vi : VertexImporter) :
  take 20 file = magic →
  (27 ≤ len file)%Z →
  (7100 ≤ le_uint (take 4 (drop 23 file)))%Z →
  (len (drop 27 file) < 2 ^ 32)%Z →
  node_at (drop 27 file) 0 = Some (E, name0) →
  node_at (drop 27 file) E = Some (E, name1) →
  (0 < E ≤ len (drop 27 file))%Z →
  name0 ∉ geometry_names →
  name1 ∉ geometry_names →
  ∀ fuel,
    extractGeometryData fuel (drop 27 file) = None ∧
    parseFBXBinary fuel file spare = None ∧
    ImportFromFBX fuel (Ok (file, spare)) vi = None.
Proof.
  intros Hmagic Hlen Hver Hsize Hn0 Hn1 HE Hname0 Hname1 fuel.
  assert (∀ fuel vs ns us,
            geometryLoop fuel (drop 27 file)
              {| offset := E; geo_vertices := vs; geo_normals := ns; geo_uvs := us |}
            = None) as Hloop.
  { clear fuel. induction fuel as [|fuel IH]; intros vs ns us; [done |]. simpl.
    rewrite (geometryBody_plain _ _ E name1); [| done | done | done | done].
    apply IH. }
  assert (extractGeometryData fuel (drop 27 file) = None) as Hgeo.
  { unfold extractGeometryData. destruct fuel as [|fuel]; [done |]. simpl.
    rewrite (geometryBody_plain _ _ E name0); [| done | done | done | done].
    apply Hloop. }
  assert (parseFBXBinary fuel file spare = None) as Hparse.
  { unfold parseFBXBinary.
    change (len magic) with 20%Z. change (length magic) with 20.
    destruct (Z.ltb_spec (len file) 20); [lia |].
    rewrite bool_decide_eq_true_2 by done. simpl.
    rewrite slice_Returns by (unfold len in *; rewrite ?length_app; lia).
    change (Z.to_nat (27 - 23)) with 4. change (Z.to_nat 23) with 23.
    rewrite drop_app_le by (unfold len in *; lia).
    rewrite take_app_le by (rewrite length_drop; unfold len in *; lia).
    destruct (Z.ltb_spec (le_uint (take 4 (drop 23 file))) 7100); [lia |].
    rewrite slice_Returns by lia.
    rewrite take_ge by (rewrite length_drop; unfold len; lia).
    change (Z.to_nat 27) with 27. by rewrite Hgeo. }
  split_and!; [done | done |]. unfold ImportFromFBX. by rewrite Hparse.
Qed.

(** The loop that makes vertices of the floats: with a number of vertex
    floats that is no multiple of three, it runs off the slice. *)
Lemma fbxLoop_panics (vs ns us : list float64) :
  (len vs mod 3 ≠ 0)%Z →
  ∀ n i vi,
    (0 ≤ i ≤ len vs)%Z → (i mod 3 = 0)%Z → (len vs - i < 3 * Z.of_nat n)%Z →
    fbxLoop n i vs ns us vi = Panics IndexOutOfRange.
Proof.
  intros Hmod. induction n as [|n IH]; intros i vi Hi Hi3 Hn.
  { assert (i = len vs) by lia. subst i. done. }
  simpl.
  destruct (Z.ltb_spec i (len vs)); [| assert (i = len vs) by lia; subst i; done].
  destruct (at_index_cases vs i) as [(x & -> & _) | [-> _]]; [| done]. simpl.
  destruct (at_index_cases vs (i + 1)) as [(y & -> & Hy) | [-> _]]; [| done]. simpl.
  destruct (at_index_cases vs (i + 2)) as [(z & -> & Hz) | [-> _]]; [| done]. simpl.
  match goal with |- context [if (i <? len ns)%Z then ?a else ?b] =>
    assert (∃ r : outcome vector3, (if (i <? len ns)%Z then a else b) = r ∧
               (r = Panics IndexOutOfRange ∨ ∃ normal, r = Returns normal))
      as (r & -> & [-> | [normal ->]]); [| done |] end.
  { eexists. split; [done |]. destruct (_ <? _)%Z; [| right; by eexists].
    destruct (at_index_cases ns i) as [(nx & -> & _) | [-> _]]; [| by left]. simpl.
    destruct (at_index_cases ns (i + 1)) as [(ny & -> & _) | [-> _]]; [| by left]. simpl.
    destruct (at_index_cases ns (i + 2)) as [(nz & -> & _) | [-> _]]; [| by left]. simpl.
    right. by eexists. }
  simpl.
  match goal with |- context [if (i / 3 * 2 <? len us)%Z then ?a else ?b] =>
    assert (∃ r : outcome vector2, (if (i / 3 * 2 <? len us)%Z then a else b) = r ∧
               (r = Panics IndexOutOfRange ∨ ∃ tex, r = Returns tex))
      as (r & -> & [-> | [tex ->]]); [| done |] end.
  { eexists. split; [done |]. destruct (_ <? _)%Z; [| right; by eexists].
    destruct (at_index_cases us (i / 3 * 2)) as [(u & -> & _) | [-> _]]; [| by left]. simpl.
    destruct (at_index_cases us (i / 3 * 2 + 1)) as [(v & -> & _) | [-> _]]; [| by left].
    simpl. right. by eexists. }
  simpl. apply IH; [lia | | lia].
  rewrite <- (Z.mul_1_l 3) at 1. by rewrite Z.mod_add.
Qed.

(** With whole triples of vertex floats, whole triples of normals and
    whole pairs of coordinates, it makes one vertex per triple. *)
Lemma fbxLoop_returns (vs ns us : list float64) :
  (len vs mod 3 = 0)%Z → (len ns mod 3 = 0)%Z → (len us mod 2 = 0)%Z →
  ∀ n (k : nat) vi,
    (3 * Z.of_nat k ≤ len vs)%Z → (len vs - 3 * Z.of_nat k < 3 * Z.of_nat n)%Z →
    ∃ new,
      fbxLoop n (3 * Z.of_nat k) vs ns us vi
      = Returns {| vertices := vertices vi ++ new |} ∧
      (3 * Z.of_nat (length new) = len vs - 3 * Z.of_nat k)%Z.
Proof.
  intros Hv Hn Hu.
  pose proof (Z.div_mod (len vs) 3 ltac:(lia)) as Hvd.
  pose proof (Z.div_mod (len ns) 3 ltac:(lia)) as Hnd.
  pose proof (Z.div_mod (len us) 2 ltac:(lia)) as Hud.
  induction n as [|n IH]; intros k vi Hk Hfuel.
  { exists []. simpl. rewrite app_nil_r. split; [by destruct vi | simpl; lia]. }
  simpl.
  destruct (Z.ltb_spec (3 * Z.of_nat k) (len vs)).
  2: { exists []. rewrite app_nil_r. split; [by destruct vi | simpl; lia]. }
  destruct (at_index_Returns vs (3 * Z.of_nat k)) as (x & -> & _); [lia |]. simpl.
  destruct (at_index_Returns vs (3 * Z.of_nat k + 1)) as (y & -> & _); [lia |]. simpl.
  destruct (at_index_Returns vs (3 * Z.of_nat k + 2)) as (z & -> & _); [lia |]. simpl.
  match goal with |- context [if (3 * Z.of_nat k <? len ns)%Z then ?a else ?b] =>
    assert (∃ normal : vector3,
              (if (3 * Z.of_nat k <? len ns)%Z then a else b) = Returns normal)
      as [normal ->] end.
  { destruct (Z.ltb_spec (3 * Z.of_nat k) (len ns)); [| by eexists].
    destruct (at_index_Returns ns (3 * Z.of_nat k)) as (nx & -> & _); [lia |]. simpl.
    destruct (at_index_Returns ns (3 * Z.of_nat k + 1)) as (ny & -> & _); [lia |]. simpl.
    destruct (at_index_Returns ns (3 * Z.of_nat k + 2)) as (nz & -> & _); [lia |]. simpl.
    by eexists. }
  simpl.
  assert (3 * Z.of_nat k / 3 * 2 = 2 * Z.of_nat k)%Z as Hdiv.
  { rewrite (Z.mul_comm 3 (Z.of_nat k)), Z.div_mul by lia. lia. }
  rewrite Hdiv.
  match goal with |- context [if (2 * Z.of_nat k <? len us)%Z then ?a else ?b] =>
    assert (∃ tex : vector2,
              (if (2 * Z.of_nat k <? len us)%Z then a else b) = Returns tex)
      as [tex ->] end.
  { destruct (Z.ltb_spec (2 * Z.of_nat k) (len us)); [| by eexists].
    destruct (at_index_Returns us (2 * Z.of_nat k)) as (u & -> & _); [lia |]. simpl.
    destruct (at_index_Returns us (2 * Z.of_nat k + 1)) as (v & -> & _); [lia |]. simpl.
    by eexists. }
  simpl. replace (3 * Z.of_nat k + 3)%Z with (3 * Z.of_nat (S k))%Z by lia.
  match goal with |- context [fbxLoop n _ vs ns us ?vi1] =>
    destruct (IH (S k) vi1) as (new & -> & Hlen); [lia | lia |] end.
  simpl. eexists (_ :: new). rewrite <- app_assoc. split; [done |]. simpl length. lia.
Qed.

(** X27. What [ImportFromFBX] does with the floats [parseFBXBinary] found.
    When the vertex floats are no whole number of triples, it panics with
    an index out of range. When they are, and the normals come in whole
    triples and the texture coordinates in whole pairs, it returns nil
    and the importer has gained one vertex for every three vertex
    floats. *)
Theorem ImportFromFBX_needs_whole_triples (fuel : nat) (file spare : bytes)
    (vs ns us : list float64) (vi : VertexImporter) :
  parseFBXBinary fuel file spare = Some (Returns (Ok (vs, ns, us))) →
  ((len vs mod 3 ≠ 0)%Z →
   ImportFromFBX fuel (Ok (file, spare)) vi = Some (Panics IndexOutOfRange)) ∧
  ((len vs mod 3 = 0)%Z → (len ns mod 3 = 0)%Z → (len us mod 2 = 0)%Z →
   ∃ new,
     ImportFromFBX fuel (Ok (file, spare)) vi
     = Some (Returns (None, {| vertices := vertices vi ++ new |})) ∧
     (3 * len new = len vs)%Z).
Proof.
  intros Hparse. unfold ImportFromFBX. rewrite Hparse. split.
  - intros Hmod. rewrite (fbxLoop_panics vs ns us Hmod); [done | | done |].
    + unfold len. lia.
    + unfold len. lia.
  - intros Hv Hn Hu.
    destruct (fbxLoop_returns vs ns us Hv Hn Hu (S (length vs)) 0 vi)
      as (new & Hloop & Hlen); [unfold len; lia .. |].
    change (3 * Z.of_nat 0)%Z with 0%Z in Hloop. rewrite Hloop.
    exists new. split; [done |]. unfold len in *. lia.
Qed.

Import Fixtures.

Lemma parseIndex_in_bounds_run :
  parseIndex "2" 3 = Ok 1%Z ∧ parseIndex "-1" 3 = Ok 2%Z.
Proof.
  split.
  - destruct (parseIndex_in_bounds "2" 3 ltac:(lia)) as [_ H].
    destruct (H 2%Z eq_refl) as (H1 & _). apply H1. lia.
  - destruct (parseIndex_in_bounds "-1" 3 ltac:(lia)) as [_ H].
    destruct (H (-1)%Z eq_refl) as (_ & H2 & _). apply H2. lia.
Defined.

Lemma ImportFromOBJ_never_panics_run :
  ∃ e vi', importers.ImportFromOBJ ascii_TrimSpace ascii_Fields toy_ParseFloat
             obj_triangle None NewVertexImporter = Returns (e, vi').
Proof.
  destruct (ImportFromOBJ_never_panics ascii_TrimSpace ascii_Fields toy_ParseFloat
              obj_triangle None NewVertexImporter) as (_ & e & vi' & Hrun & _).
  - by vm_compute.
  - by exists e, vi'.
Defined.

Lemma ImportFromOBJ_one_vertex_per_corner_run :
  ∃ vi', importers.ImportFromOBJ ascii_TrimSpace ascii_Fields toy_ParseFloat
           obj_triangle None NewVertexImporter = Returns (None, vi') ∧
         length (vertices vi') = 3.
Proof.
  assert (∃ vi', importers.ImportFromOBJ ascii_TrimSpace ascii_Fields toy_ParseFloat
                   obj_triangle None NewVertexImporter = Returns (None, vi'))
    as [vi' Hrun] by (eexists; vm_compute; reflexivity).
  exists vi'. split; [exact Hrun |].
  destruct (ImportFromOBJ_one_vertex_per_corner ascii_TrimSpace ascii_Fields
              toy_ParseFloat obj_triangle None NewVertexImporter vi')
    as (_ & (new & Hnew & Hlen) & _).
  - by vm_compute.
  - exact Hrun.
  - rewrite Hnew. simpl. rewrite Hlen. by vm_compute.
Defined.

Lemma extractFloatArray_reads_the_whole_groups_run :
  extractFloatArray float_array = Some (Returns [1; 2]%Z).
Proof.
  destruct (extractFloatArray_reads_the_whole_groups float_array) as [_ H].
  - by vm_compute.
  - destruct H as [H _]; [by vm_compute |].
    etransitivity; [exact H |]. vm_compute. reflexivity.
Defined.

Lemma ImportFromFBX_never_returns_run :
  ImportFromFBX 1000 (Ok (fbx_hang, [])) NewVertexImporter = None.
Proof.
  assert (∀ name : bytes, name = [] → name ∉ geometry_names) as Hplain.
  { intros name -> H. unfold geometry_names in H.
    repeat (apply elem_of_cons in H as [H | H]; [discriminate |]).
    by apply elem_of_nil in H. }
  destruct (ImportFromFBX_never_returns fbx_hang [] 4 [] [] NewVertexImporter)
    with (fuel := 1000) as (_ & _ & H).
  - by vm_compute.
  - by vm_compute.
  - by vm_compute.
  - by vm_compute.
  - by vm_compute.
  - by vm_compute.
  - by vm_compute.
  - by apply Hplain.
  - by apply Hplain.
  - exact H.
Defined.

Lemma ImportFromFBX_needs_whole_triples_run :
  parseFBXBinary 3 fbx_one_float [] = Some (Returns (Ok ([42%Z], [], []))) ∧
  ImportFromFBX 3 (Ok (fbx_one_float, [])) NewVertexImporter
  = Some (Panics IndexOutOfRange).
Proof.
  assert (parseFBXBinary 3 fbx_one_float [] = Some (Returns (Ok ([42%Z], [], []))))
    as Hparse by (vm_compute; reflexivity).
  split; [exact Hparse |].
  destruct (ImportFromFBX_needs_whole_triples 3 fbx_one_float [] [42%Z] [] []
              NewVertexImporter Hparse) as [Hpanic _].
  apply Hpanic. by vm_compute.
Defined.

End Importers.

(* ===================================================================== *)
(** * From an upload to blocks and back; deleting an object              *)
(* ===================================================================== *)

Module Pipeline.
Import Go blocks importers service DiskFacts.

Section pipeline.
Context (sha256_Sum256 : bytes → bytes)
        (strings_TrimSpace : string → string)
        (strings_Fields : string → list string)
        (strconv_ParseFloat : string → result float64).

Abbreviation calculateHash := (calculateHash sha256_Sum256).
Abbreviation StoreBlock := (StoreBlock sha256_Sum256).
Abbreviation storeLoop := (storeLoop sha256_Sum256).
Abbreviation ProcessModelData :=
  (ProcessModelData sha256_Sum256 strings_TrimSpace strings_Fields strconv_ParseFloat).
Abbreviation ImportFromOBJ :=
  (ImportFromOBJ strings_TrimSpace strings_Fields strconv_ParseFloat).

(** The hash and the path of the block of a vertex. *)
Abbreviation hash_of v := (calculateHash (encodeVertex v)).
Abbreviation path_of s v := (getBlockPath (store s) (hash_of v)).

(** The block [GetBlock] is to return for a vertex. *)
Abbreviation block_of v :=
  {| Hash := hash_of v; Size := len (encodeVertex v); Data := encodeVertex v |}.

Abbreviation ready := (ready_for_blocks sha256_Sum256).

Lemma StoreBlock_files (s : Store) (P : bytes) (d : Disk) :
  getBlockPath s (calculateHash P) ∉ dirs d →
  write_fault (faults d) (getBlockPath s (calculateHash P)) = false →
  (∀ D, files d !! getBlockPath s (calculateHash P) = Some D → D = P) →
  ∃ d',
    StoreBlock s P d = (Ok (calculateHash P), d') ∧
    dirs d' = dirs d ∧ faults d' = faults d ∧
    files d' = <[getBlockPath s (calculateHash P) := P]> (files d).
Proof.
  intros Hnd Hwf Hsame. unfold blocks.StoreBlock.
  destruct (os_Stat_ok _ d) eqn:Hstat.
  - exists d. split_and!; try done.
    unfold os_Stat_ok in Hstat. destruct (stat_fault _ _); [done |].
    apply bool_decide_eq_true in Hstat as [[D HD] | Hdir]; [| done].
    rewrite insert_id; [done |]. by rewrite HD, (Hsame D HD).
  - unfold os_WriteFile. rewrite Hwf. destruct (decide _); [done |].
    by eexists.
Qed.

Lemma storeLoop_spec (s : Service) (vs : list Vertex) :
  ∀ d hashes,
    ready s vs d →
    ∃ d',
      storeLoop s vs d hashes = (Ok (hashes ++ ((λ v, hash_of v) <$> vs)), d') ∧
      dirs d' = dirs d ∧ faults d' = faults d ∧
      (∀ v, v ∈ vs → files d' !! path_of s v = Some (encodeVertex v)) ∧
      (∀ q, (∀ v, v ∈ vs → q ≠ path_of s v) → files d' !! q = files d !! q).
Proof.
  induction vs as [|v vs IH]; intros d hashes Hready; simpl.
  { exists d. rewrite app_nil_r. split_and!; try done.
    intros v Hv. by apply elem_of_nil in Hv. }
  destruct (Hready v ltac:(by left)) as (Hnd & Hwf & Hrf & Hsame & Hcoll).
  destruct (StoreBlock_files (store s) (encodeVertex v) d Hnd Hwf Hsame)
    as (d1 & -> & Hd1 & Hf1 & Hfiles1).
  destruct (IH d1 (hashes ++ [hash_of v])) as (d' & -> & Hd' & Hf' & Hin & Hout).
  { intros v' Hv'.
    destruct (Hready v' ltac:(by right)) as (Hnd' & Hwf' & Hrf' & Hsame' & Hcoll').
    rewrite Hd1, Hf1, Hfiles1. split_and!; try done.
    - intros D [[Hp <-] | [_ HD]]%lookup_insert_Some; [| by apply Hsame'].
      unfold getBlockPath in Hp. apply Join_inj in Hp.
      apply Hcoll'; [by left | done].
    - intros v'' Hv''. apply Hcoll'. by right. }
  exists d'. rewrite <- app_assoc. split_and!; [done | congruence | congruence | |].
  - intros v' [-> | Hv']%elem_of_cons; [| by apply Hin].
    destruct (decide (Exists (λ v', path_of s v' = path_of s v) vs))
      as [(v' & Hv' & Hp)%Exists_exists | Hno].
    + rewrite <- Hp, (Hin v' Hv'). f_equal.
      destruct (Hready v') as (_ & _ & _ & _ & Hcoll'); [by right |].
      symmetry. apply Hcoll'; [by left |].
      unfold getBlockPath in Hp. by apply Join_inj in Hp.
    + rewrite Hout.
      * rewrite Hfiles1. by rewrite lookup_insert_eq.
      * intros v' Hv' Hp. apply Hno, Exists_exists. by exists v'.
  - intros q Hq. rewrite Hout.
    + rewrite Hfiles1, lookup_insert_ne; [done |]. intros <-.
      apply (Hq v); [by left | done].
    + intros v' Hv'. apply Hq. by right.
Qed.

Lemma storeLoop_app (s : Service) (l1 l2 : list Vertex) :
  ∀ d hashes,
    storeLoop s (l1 ++ l2) d hashes =
    match storeLoop s l1 d hashes with
    | (Ok hashes1, d1) => storeLoop s l2 d1 hashes1
    | (Err err, d1) => (Err err, d1)
    end.
Proof.
  induction l1 as [|v l1 IH]; intros d hashes; simpl; [done |].
  destruct (StoreBlock (store s) (encodeVertex v) d) as [[hash | err] d1]; [| done].
  apply IH.
Qed.

(** X28. From an upload to blocks and back. When the import of an [obj]
    or [fbx] upload returns the vertices [vs] and the disk is ready for
    their blocks, [ProcessModelData] returns one hash per vertex, in the
    order of the vertices and as often as a vertex occurs: the digest of
    its 64-byte encoding; and [GetModelBlocks] on that list returns the
    encodings of the vertices, in order. *)
Theorem ProcessModelData_then_GetModelBlocks (fuel : nat) (s : Service)
    (format : string) (reader : Upload) (d : Disk) (vi : VertexImporter) :
  (format = "obj" ∧
   ImportFromOBJ (scanned reader) (scan_err reader) NewVertexImporter
   = Returns (None, vi)) ∨
  (format = "fbx" ∧
   ImportFromFBX fuel (read_all reader) NewVertexImporter
   = Some (Returns (None, vi))) →
  ready s (vertices vi) d →
  ∃ hashes d',
    ProcessModelData fuel s format reader d = Some (Returns (Ok hashes, d')) ∧
    hashes = (λ v, hash_of v) <$> vertices vi ∧
    GetModelBlocks s hashes d' = Ok ((λ v, block_of v) <$> vertices vi) ∧
    Forall (λ v, length (encodeVertex v) = 64) (vertices vi).
Proof.
  intros Himport Hready.
  destruct (storeLoop_spec s (vertices vi) d [] Hready)
    as (d' & Hloop & Hd' & Hf' & Hin & _).
  exists ((λ v, hash_of v) <$> vertices vi), d'.
  assert (ProcessModelData fuel s format reader d
          = Some (Returns (Ok ((λ v, hash_of v) <$> vertices vi), d'))) as Hrun.
  { unfold service.ProcessModelData.
    destruct Himport as [[-> Hobj] | [-> Hfbx]]; simpl.
    - rewrite Hobj. unfold GetVertices. by rewrite Hloop.
    - rewrite Hfbx. unfold GetVertices. by rewrite Hloop. }
  split_and!; [done | done | |].
  - apply BlockService.GetModelBlocks_Forall2.
    apply Forall2_fmap, Forall_Forall2_diag, Forall_forall. intros v Hv.
    destruct (Hready v Hv) as (_ & _ & Hrf & _).
    unfold GetBlock, os_ReadFile. rewrite Hf', Hrf, (Hin v Hv). done.
  - apply Forall_forall. intros [[[p0 p1] p2] [[n0 n1] n2] [t0 t1]] _. done.
Qed.

(** X30. [ProcessModelData] leaves behind what it stored. When the
    vertices imported from an [obj] upload are [pre ++ v :: post], the
    disk is ready for the blocks of [pre], and the block of [v] is not
    there and cannot be written: the call returns the error of
    [os.WriteFile] and no hash, and the blocks of [pre] stay on the
    disk, where no hash list names them. *)
Theorem ProcessModelData_leaves_blocks_behind (fuel : nat) (s : Service)
    (reader : Upload) (d : Disk) (vi : VertexImporter)
    (pre post : list Vertex) (v : Vertex) :
  ImportFromOBJ (scanned reader) (scan_err reader) NewVertexImporter
  = Returns (None, vi) →
  vertices vi = pre ++ v :: post →
  ready s pre d →
  files d !! path_of s v = None →
  path_of s v ∉ dirs d →
  write_fault (faults d) (path_of s v) = true →
  ∃ d',
    ProcessModelData fuel s "obj" reader d
    = Some (Returns (Err (PathError "open" (path_of s v) EIO), d')) ∧
    (∀ u, u ∈ pre → files d' !! path_of s u = Some (encodeVertex u)) ∧
    (∀ u, u ∈ pre → GetBlock (store s) (hash_of u) d' = Ok (block_of u)).
Proof.
  intros Himport Hvs Hready Hnone Hnd Hwf.
  destruct (storeLoop_spec s pre d [] Hready) as (d1 & Hloop & Hd1 & Hf1 & Hin & Hout).
  exists d1. split_and!; [| done |].
  - unfold service.ProcessModelData. simpl. rewrite Himport. unfold GetVertices.
    rewrite Hvs, storeLoop_app, Hloop. simpl.
    unfold blocks.StoreBlock, os_Stat_ok, os_WriteFile. rewrite Hf1, Hwf.
    assert (files d1 !! path_of s v = None) as Hnone1.
    { rewrite Hout; [done |]. intros u Hu Hp.
      destruct (Hready u Hu) as (_ & Hwu & _). rewrite <- Hp in Hwu. congruence. }
    destruct (stat_fault _ _); [done |].
    rewrite bool_decide_eq_false_2; [done |].
    rewrite Hnone1, Hd1. intros [[? [=]] | ?]. done.
  - intros u Hu. destruct (Hready u Hu) as (_ & _ & Hrf & _).
    unfold GetBlock, os_ReadFile. by rewrite Hf1, Hrf, (Hin u Hu).
Qed.

End pipeline.

(** ** Deleting an object *)

Section objects.
Import objects.
Context (json_Unmarshal : bytes → result Object).

Abbreviation Storage_GetObject := (Storage_GetObject json_Unmarshal).
Abbreviation GetObject := (GetObject json_Unmarshal).
Abbreviation DeleteObject := (DeleteObject json_Unmarshal).

Lemma deleteBlocksLoop_app (s : ObjectService) (l1 l2 : list string) :
  ∀ d,
    deleteBlocksLoop s (l1 ++ l2) d =
    match deleteBlocksLoop s l1 d with
    | (Some err, d1) => (Some err, d1)
    | (None, d1) => deleteBlocksLoop s l2 d1
    end.
Proof.
  induction l1 as [|h l1 IH]; intros d; simpl; [done |].
  destruct (Service_DeleteBlock (blockService s) h d) as [[err|] d1]; [done |].
  apply IH.
Qed.

Lemma deleteBlocksLoop_effect (s : ObjectService) (hashes : list string) :
  ∀ d e d',
    deleteBlocksLoop s hashes d = (e, d') →
    faults d' = faults d ∧ dirs d' = dirs d ∧
    (∀ q, files d !! q = None → files d' !! q = None) ∧
    (∀ q, (∀ h, h ∈ hashes → q ≠ getBlockPath (store (blockService s)) h) →
          files d' !! q = files d !! q) ∧
    (e = None →
     ∀ h, h ∈ hashes → files d' !! getBlockPath (store (blockService s)) h = None).
Proof.
  induction hashes as [|h hashes IH]; intros d e d'; simpl.
  { intros [= <- <-]. split_and!; try done. intros _ h Hh. by apply elem_of_nil in Hh. }
  unfold Service_DeleteBlock, DeleteBlock, os_Remove.
  destruct (remove_fault _ _); [by intros [= <- <-] |].
  destruct (files d !! getBlockPath (store (blockService s)) h) as [D|] eqn:Hfile;
    [| by intros [= <- <-]].
  intros Hloop. apply IH in Hloop as (Hf & Hd & Hnone & Hout & Hin). simpl in *.
  split_and!; [done | done | | |].
  - intros q Hq. apply Hnone. by rewrite lookup_delete_None; right.
  - intros q Hq. rewrite Hout by (intros h' Hh'; apply Hq; by right).
    apply lookup_delete_ne. intros <-. by apply (Hq h); [left |].
  - intros He h' [-> | Hh']%elem_of_cons; [| by apply Hin].
    apply Hnone, lookup_delete_eq.
Qed.

(** X29. An object whose list of block hashes names a block twice, as
    that of a model with a vertex shared by two corners does, cannot be
    deleted: [ObjectService.DeleteObject] returns an error, at the latest
    from the second [DeleteBlock] of the repeated hash, whose file the
    first one removed; the metadata is not removed, so [GetObject] still
    returns the object, with blocks that are gone. *)
Theorem DeleteObject_fails_on_a_repeated_block (s : ObjectService) (id : string)
    (d : Disk) (obj : Object) (h : string) (pre mid post : list string) :
  Storage_GetObject (storage s) id d = Ok obj →
  BlockHashes obj = pre ++ h :: mid ++ h :: post →
  (∀ h', h' ∈ BlockHashes obj →
     (getBlockPath (store (blockService s)) h' ∉ dirs d) ∧
     getBlockPath (store (blockService s)) h' ≠
       filepath_Join
         (filepath_Join (filepath_Join (core.basePath (storage s)) "objects") id)
         "metadata.json") →
  ∃ err d',
    DeleteObject s id d = (Some err, d') ∧
    GetObject s id d' = Ok obj ∧
    (∀ q, files d !! q = None → files d' !! q = None).
Proof.
  intros Hget Hhashes Hpaths.
  assert (∀ e d', deleteBlocksLoop s (BlockHashes obj) d = (e, d') →
                  GetObject s id d' = Ok obj) as Hmeta.
  { intros e d' Hloop. apply deleteBlocksLoop_effect in Hloop as (Hf & Hd & _ & Hout & _).
    unfold objects.GetObject, objects.Storage_GetObject, os_ReadFile in *.
    rewrite Hf, Hd, Hout; [done |].
    intros h' Hh' Heq. destruct (Hpaths h' Hh') as [_ Hne]. by apply Hne. }
  unfold objects.DeleteObject. rewrite Hget.
  destruct (deleteBlocksLoop s (BlockHashes obj) d) as [e d'] eqn:Hloop.
  specialize (Hmeta e d' eq_refl).
  pose proof (deleteBlocksLoop_effect _ _ _ _ _ Hloop) as (_ & _ & Hnone & _ & _).
  rewrite Hhashes in Hloop.
  replace (pre ++ h :: mid ++ h :: post) with ((pre ++ h :: mid) ++ h :: post) in Hloop
    by (by rewrite <- app_assoc).
  rewrite deleteBlocksLoop_app in Hloop.
  destruct (deleteBlocksLoop s (pre ++ h :: mid) d) as [[e1|] d1] eqn:Hfirst.
  - injection Hloop as <- <-. by exists e1, d1.
  - apply deleteBlocksLoop_effect in Hfirst as (_ & _ & _ & _ & Hgone).
    assert (files d1 !! getBlockPath (store (blockService s)) h = None) as Hh.
    { apply Hgone; [done |]. apply elem_of_app. right. by left. }
    simpl in Hloop. unfold Service_DeleteBlock, DeleteBlock, os_Remove in Hloop.
    rewrite Hh in Hloop.
    assert (∃ err, e = Some err ∧ d' = d1) as (err & -> & ->).
    { destruct (remove_fault _ _); injection Hloop as <- <-; by eexists. }
    by exists err, d1.
Qed.

End objects.

Import Fixtures.

Lemma triangle_imported :
  importers.ImportFromOBJ ascii_TrimSpace ascii_Fields toy_ParseFloat
    obj_triangle None NewVertexImporter
  = Returns (None, {| vertices := [corner1; corner2; corner3] |}).
Proof. vm_compute. reflexivity. Qed.

Lemma ProcessModelData_then_GetModelBlocks_run :
  ∃ hashes d',
    service.ProcessModelData toy_sha ascii_TrimSpace ascii_Fields toy_ParseFloat
      1 (NewService store0) "obj" triangle_upload blocks_disk
    = Some (Returns (Ok hashes, d')) ∧
    length hashes = 3 ∧
    ∃ bs, GetModelBlocks (NewService store0) hashes d' = Ok bs ∧
          Data <$> bs = encodeVertex <$> [corner1; corner2; corner3].
Proof.
  destruct (ProcessModelData_then_GetModelBlocks toy_sha ascii_TrimSpace ascii_Fields
              toy_ParseFloat 1 (NewService store0) "obj" triangle_upload
              blocks_disk {| vertices := [corner1; corner2; corner3] |})
    as (hashes & d' & Hrun & Hhashes & Hblocks & _).
  - left. split; [done | exact triangle_imported].
  - intros v Hv. split_and!.
    + intros Hin. unfold blocks_disk, disk_refusing_corner2 in Hin.
      cbn [dirs] in Hin. apply elem_of_singleton in Hin.
      by apply DiskFacts.Join_not_base in Hin.
    + done.
    + done.
    + intros D HD. simpl in HD. by rewrite lookup_empty in HD.
    + intros v' Hv' Hh.
      assert (∀ u, u ∈ [corner1; corner2; corner3] →
                   u = corner1 ∨ u = corner2 ∨ u = corner3) as Hcase.
      { intros u Hu. simpl in Hu.
        repeat (apply elem_of_cons in Hu as [-> | Hu]; [tauto |]).
        by apply elem_of_nil in Hu. }
      destruct (Hcase v Hv) as [-> | [-> | ->]];
        destruct (Hcase v' Hv') as [-> | [-> | ->]];
        first [reflexivity | by vm_compute in Hh].
  - exists hashes, d'. split; [exact Hrun |]. split; [by rewrite Hhashes |].
    eexists. split; [exact Hblocks |]. simpl. reflexivity.
Defined.

Lemma ProcessModelData_leaves_blocks_behind_run :
  ∃ d',
    service.ProcessModelData toy_sha ascii_TrimSpace ascii_Fields toy_ParseFloat
      1 (NewService store0) "obj" triangle_upload disk_refusing_corner2
    = Some (Returns (Err (PathError "open" (corner_path corner2) EIO), d')) ∧
    files d' !! corner_path corner1 = Some (encodeVertex corner1).
Proof.
  destruct (ProcessModelData_leaves_blocks_behind toy_sha ascii_TrimSpace ascii_Fields
              toy_ParseFloat 1 (NewService store0) triangle_upload
              disk_refusing_corner2 {| vertices := [corner1; corner2; corner3] |}
              [corner1] [corner3] corner2)
    as (d' & Hrun & Hleft & _).
  - exact triangle_imported.
  - reflexivity.
  - intros v Hv.
    assert (v = corner1) as ->.
    { apply elem_of_cons in Hv as [-> | Hv]; [done |]. by apply elem_of_nil in Hv. }
    split_and!.
    + intros Hin. unfold blocks_disk, disk_refusing_corner2 in Hin.
      cbn [dirs] in Hin. apply elem_of_singleton in Hin.
      by apply DiskFacts.Join_not_base in Hin.
    + by vm_compute.
    + done.
    + intros D HD. simpl in HD. by rewrite lookup_empty in HD.
    + intros v' Hv' _.
      apply elem_of_cons in Hv' as [-> | Hv']; [done |]. by apply elem_of_nil in Hv'.
  - apply lookup_empty.
  - by vm_compute.
  - by vm_compute.
  - exists d'. split; [exact Hrun |]. apply Hleft. by left.
Defined.

Lemma DeleteObject_fails_on_a_repeated_block_run :
  ∃ err d',
    objects.DeleteObject toy_Unmarshal object_service "o1" object_disk = (Some err, d') ∧
    objects.GetObject toy_Unmarshal object_service "o1" d' = Ok shared_corner_object ∧
    files d' !! "/blocks/00" = None.
Proof.
  destruct (DeleteObject_fails_on_a_repeated_block toy_Unmarshal object_service "o1"
              object_disk shared_corner_object "00" [] [] [])
    as (err & d' & Hdel & Hget & _).
  - by vm_compute.
  - reflexivity.
  - intros h' Hh'.
    assert (h' = "00") as ->.
    { simpl in Hh'. repeat (apply elem_of_cons in Hh' as [-> | Hh']; [done |]).
      by apply elem_of_nil in Hh'. }
    split; [by vm_compute | discriminate].
  - exists err, d'. split; [exact Hdel |]. split; [exact Hget |].
    assert (∃ e0 d0, objects.DeleteObject toy_Unmarshal object_service "o1" object_disk
                     = (e0, d0) ∧ files d0 !! "/blocks/00" = None)
      as (e0 & d0 & Hrun & Hgone)
      by (eexists _, _; split; [vm_compute; reflexivity | vm_compute; reflexivity]).
    rewrite Hdel in Hrun. by injection Hrun as _ <-.
Defined.

End Pipeline.
